(** * Matching and ranking engine of the ATEC Medical quotation tool

    A shallow embedding of the search engine of [src/App.tsx] (the current
    revision, with the looser scoring policy), of its earlier revision
    [src/unnamed/part_001] (the stricter scoring policy) and of the item
    extractor of [src/services/geminiService.ts], followed by the
    properties the specification states about them.  The development
    then covers the rest of the data path: the search intent fallback and
    the catalog loader of [src/services/geminiService.ts], the handlers of
    the quotation table, the supplier filter and its options, and the
    marks of [src/components/ProductTable.tsx].

    Modelling conventions.
    - A JavaScript string is the list of its UTF-16 code units, each a
      natural number ([N]).
    - [String.prototype.toLowerCase] and [String.prototype.normalize] are
      driven by the Unicode tables of the JavaScript runtime, which are
      not part of the repository.  They are parameters of the development
      ([Unicode]); the only fact assumed about them, and only where it is
      stated, is that they leave strings over [a-z0-9 ] unchanged.
    - Numbers: naturals and integers where the code only produces such,
      rationals ([Q]) for scores and prices.  The scorer multiplies a match
      quality (0.6, 0.8, 0.9 or 1) by a weight (50, 500, 2500 or 4500); on
      the pairs that can occur the product is an integer and the
      double-precision multiplication returns exactly that integer
      ([score_products_exact]), so the exact scores are the scores the
      code computes.  Money is computed as the code computes it: prices
      are doubles, quantities are integers below 2^53, and every product
      and every partial sum of the totals is rounded to the nearest
      binary64 value, ties to even ([roundDouble]).  Magnitudes stay below
      2^1024, where the code would produce [Infinity].
    - An object literal used as a dictionary is the list of its own
      entries together with what it inherits from [Object.prototype]: a
      key that is not its own but names a member of the prototype
      ([constructor], [toString], ...) reads that member.  Calling an array
      method on such a member throws a [TypeError]; the scorers are
      therefore functions into [Outcome], and the exception is followed
      through [every], [forEach] and [map].
    - [Array.prototype.sort] is stable, as ECMAScript 2019 requires.
    - React state updates are applied in the order in which the handlers
      queue them.
    - [parseFloat] and [Date.now] are parameters of the catalog loader; a
      non-negative integer in a template literal is printed in decimal
      (row numbers and clock values stay below 10^21, where JavaScript
      switches to the exponent form). *)

From Stdlib Require Import List NArith ZArith QArith Qminmax Lqa Lia String Ascii Bool.
From Stdlib Require Import DecimalString DecimalNat DecimalN Sorted Qabs Qround Qpower.
From stdpp Require Import gmap list.
Import ListNotations.

(** ** JavaScript strings *)

Abbreviation jschar := N.
Abbreviation jsstring := (list N).

(** The code units of an ASCII string literal. *)
Fixpoint lit (s : string) : jsstring :=
  match s with
  | EmptyString => []
  | String c r => N_of_ascii c :: lit r
  end.

Definition inRange (lo hi c : N) : bool := ((lo <=? c) && (c <=? hi))%N.

(** [===] on two strings. *)
Fixpoint streq (a b : jsstring) : bool :=
  match a, b with
  | [], [] => true
  | x :: a', y :: b' => (x =? y)%N && streq a' b'
  | _, _ => false
  end.

(** [arr.includes(x)] and [set.has(x)] for an array or [Set] of strings. *)
Definition arrayIncludes (arr : list jsstring) (x : jsstring) : bool :=
  existsb (streq x) arr.

(** [s.startsWith(p)]. *)
Fixpoint startsWith (s p : jsstring) : bool :=
  match p, s with
  | [], _ => true
  | _ :: _, [] => false
  | a :: p', b :: s' => (a =? b)%N && startsWith s' p'
  end.

(** [s.includes(sub)]: [sub] occurs in [s] as a contiguous substring. *)
Fixpoint includes (s sub : jsstring) : bool :=
  startsWith s sub ||
  match s with
  | [] => false
  | _ :: r => includes r sub
  end.

(** The characters matched by [\s] in a regular expression; the same set
    is removed by [String.prototype.trim] (ECMAScript WhiteSpace and
    LineTerminator). *)
Definition isWhiteSpace (c : jschar) : bool :=
  inRange 0x09 0x0D c || (c =? 0x20)%N || (c =? 0xA0)%N || (c =? 0x1680)%N
  || inRange 0x2000 0x200A c || (c =? 0x2028)%N || (c =? 0x2029)%N
  || (c =? 0x202F)%N || (c =? 0x205F)%N || (c =? 0x3000)%N || (c =? 0xFEFF)%N.

Fixpoint trimStart (s : jsstring) : jsstring :=
  match s with
  | [] => []
  | c :: r => if isWhiteSpace c then trimStart r else s
  end.

Fixpoint trimEnd (s : jsstring) : jsstring :=
  match s with
  | [] => []
  | c :: r =>
      match trimEnd r with
      | [] => if isWhiteSpace c then [] else [c]
      | r' => c :: r'
      end
  end.

(** [s.trim()]. *)
Definition trim (s : jsstring) : jsstring := trimEnd (trimStart s).

(** [s.split(sep)] for a separator of one code unit.  The result is never
    empty: the empty string splits into one empty piece. *)
Fixpoint splitOn (sep : jschar) (s : jsstring) : list jsstring :=
  match s with
  | [] => [[]]
  | c :: r =>
      if (c =? sep)%N then [] :: splitOn sep r
      else match splitOn sep r with
           | w :: ws => (c :: w) :: ws
           | [] => [[c]]
           end
  end.

(** [s.split(/[...]+/)] for a character class [isSep]: the pieces between
    the maximal runs of separator characters.  A run at the start or at
    the end of [s] leaves an empty piece there. *)
Fixpoint splitRuns (isSep : jschar -> bool) (s : jsstring) : list jsstring :=
  match s with
  | [] => [[]]
  | c :: r =>
      if isSep c then
        match r with
        | c' :: _ => if isSep c' then splitRuns isSep r else [] :: splitRuns isSep r
        | [] => [] :: splitRuns isSep r
        end
      else match splitRuns isSep r with
           | w :: ws => (c :: w) :: ws
           | [] => [[c]]
           end
  end.

Definition isDigit (c : jschar) : bool := inRange 48 57 c.
Definition isLowerLetter (c : jschar) : bool := inRange 97 122 c.
Definition isHexDigit (c : jschar) : bool := isDigit c || inRange 97 102 c.
Definition isBinDigit (c : jschar) : bool := inRange 48 49 c.
Definition isOctDigit (c : jschar) : bool := inRange 48 55 c.

Definition nonEmptyAll (p : jschar -> bool) (s : jsstring) : bool :=
  negb (Nat.eqb (length s) 0) && forallb p s.

(** [!isNaN(Number(t))] for a token [t] over [a-z0-9].  On that alphabet
    the numeric string literals are: decimal digits, decimal digits with an
    exponent part ([1e5]), and the prefixed hexadecimal, binary and octal
    integers ([0x1f], [0b101], [0o17]). *)
Definition isNumeric (t : jsstring) : bool :=
  nonEmptyAll isDigit t
  || match splitOn 101%N t with
     | [m; e] => nonEmptyAll isDigit m && nonEmptyAll isDigit e
     | _ => false
     end
  || match t with
     | 48 :: 120 :: r => nonEmptyAll isHexDigit r
     | 48 :: 98 :: r => nonEmptyAll isBinDigit r
     | 48 :: 111 :: r => nonEmptyAll isOctDigit r
     | _ => false
     end%N.

(** ** Text normalizer ([normalizeText], identical in both revisions) *)

Record Unicode := {
  toLowerCase : jsstring -> jsstring;
  normalizeNFD : jsstring -> jsstring
}.

(** [.replace(/[\u0300-\u036f]/g, empty)]: the combining diacritical marks
    are deleted. *)
Definition stripCombiningMarks (s : jsstring) : jsstring :=
  List.filter (fun c => negb (inRange 0x300 0x36F c)) s.

Definition isAlnum (c : jschar) : bool := isLowerLetter c || isDigit c.

(** [.replace(/[^a-z0-9]/g, space)]: every other code unit becomes a space. *)
Definition blankNonAlnum (s : jsstring) : jsstring :=
  map (fun c => if isAlnum c then c else 32%N) s.

(** [.replace(/\s+/g, space)]: a white-space character that closes its run
    becomes one space, the others of the run disappear. *)
Fixpoint collapseWhiteSpace (s : jsstring) : jsstring :=
  match s with
  | [] => []
  | c :: r =>
      if isWhiteSpace c then
        match r with
        | c' :: _ => if isWhiteSpace c' then collapseWhiteSpace r
                     else 32%N :: collapseWhiteSpace r
        | [] => [32%N]
        end
      else c :: collapseWhiteSpace r
  end.

Definition normalizeText (U : Unicode) (text : jsstring) : jsstring :=
  trim
    (collapseWhiteSpace
       (blankNonAlnum
          (stripCombiningMarks
             (normalizeNFD U (toLowerCase U text))))).

(** A runtime for ASCII text: on strings of code units below 128 it agrees
    with the JavaScript functions (upper-case letters are lowered, nothing
    decomposes).  It serves to evaluate the engine on concrete ASCII
    inputs. *)
Definition asciiLower (c : jschar) : jschar :=
  if inRange 65 90 c then (c + 32)%N else c.

Definition asciiRuntime : Unicode :=
  {| toLowerCase := map asciiLower; normalizeNFD := fun s => s |}.

(** Strings over [a-z0-9] and the space. *)
Definition plainChar (c : jschar) : bool := isAlnum c || (c =? 32)%N.

(** What the normalizer needs from the runtime: text that is already
    lower-case ASCII letters, digits and spaces is left as it is. *)
Definition fixesPlain (U : Unicode) : Prop :=
  forall s, forallb plainChar s = true ->
    toLowerCase U s = s /\ normalizeNFD U s = s.


(** ** Data model ([src/types.ts]) *)

(** [MappedProduct].  The raw spreadsheet columns ([_raw]) are carried by
    the loader only and never read by the engine; they are left out. *)
Record MappedProduct := {
  id : jsstring;
  title : jsstring;
  code : jsstring;
  price : option Q;
  image : jsstring;
  category : jsstring;
  description : jsstring;
  brand : jsstring;
  supplier : jsstring;
  matchScore : option Q
}.

(** [{ ...p, matchScore: s }] *)
Definition withMatchScore (p : MappedProduct) (s : Q) : MappedProduct :=
  {| id := id p; title := title p; code := code p; price := price p;
     image := image p; category := category p; description := description p;
     brand := brand p; supplier := supplier p; matchScore := Some s |}.

(** [p.matchScore || 0] *)
Definition matchScoreOr0 (p : MappedProduct) : Q :=
  match matchScore p with
  | Some s => s
  | None => 0
  end.

Record ExtractedItem := {
  name : jsstring;
  quantity : Z
}.

Record BulkSearchResult := {
  term : jsstring;
  originalTerm : jsstring;
  products : list MappedProduct;
  detectedQuantity : Z
}.

(** [QuotationMap]: term index to a record from product id to quantity.
    The inner record is kept as the list of its entries in key order. *)
Abbreviation QuotationMap := (gmap nat (list (jsstring * Z))).

(** ** Helpers for arrays *)

Definition Qlt_bool (x y : Q) : bool := negb (Qle_bool y x).

(** [arr.findIndex(f)], with [None] for [-1]. *)
Fixpoint findIndex {A : Type} (f : A -> bool) (arr : list A) : option nat :=
  match arr with
  | [] => None
  | x :: r => if f x then Some 0%nat else option_map S (findIndex f r)
  end.

(** The own entry of key [k] in an object literal used as a dictionary. *)
Definition lookupKey {V : Type} (table : list (jsstring * V)) (k : jsstring) : option V :=
  option_map snd (List.find (fun e => streq (fst e) k) table).

(** [Array.prototype.sort(compareFn)].  The sort is stable; for a
    comparator that orders the elements by a key, the result is the one
    insertion from the right produces: [x] is placed before the elements
    that do not have to precede it, [compareFn(y, x) < 0] meaning that [y]
    precedes [x]. *)
Fixpoint insertSorted {A : Type} (compareFn : A -> A -> Q) (x : A) (l : list A) : list A :=
  match l with
  | [] => [x]
  | y :: r => if Qlt_bool (compareFn y x) 0 then y :: insertSorted compareFn x r
              else x :: l
  end.

Definition arraySort {A : Type} (compareFn : A -> A -> Q) (l : list A) : list A :=
  fold_right (insertSorted compareFn) [] l.

(** ** Edit distance ([levenshtein]) *)

(** [arr[j] = v] on a dense array: an element in range is replaced, and the
    array grows by one when [j] is its length.  The loops below write at
    no other index. *)
Definition arraySet {A : Type} (arr : list A) (j : nat) (v : A) : list A :=
  if (j <? length arr)%nat then <[j := v]> arr else arr ++ [v].

(** [table[i][j] = v]; row [i] exists whenever the loops below write it. *)
Definition tableSet (table : list (list nat)) (i j v : nat) : list (list nat) :=
  match table !! i with
  | Some row => <[i := arraySet row j v]> table
  | None => table
  end.

(** [table[i][j]] *)
Definition tableGet (table : list (list nat)) (i j : nat) : nat :=
  nth j (nth i table []) 0%nat.

(** [for (let i = lo; i <= hi; i++) body] over a state [s]. *)
Definition forLoop {S : Type} (lo hi : nat) (body : S -> nat -> S) (s : S) : S :=
  fold_left body (seq lo (hi + 1 - lo)) s.

(** The loops both revisions run, with the rule for one cell left open:
<<
    for (let i = 0; i <= rows; i++) table[i] = [i];
    for (let j = 0; j <= cols; j++) table[0][j] = j;
    for (let i = 1; i <= rows; i++)
      for (let j = 1; j <= cols; j++) table[i][j] = cell(table, i, j);
>> *)
Definition fillTable (rows cols : nat)
    (cell : list (list nat) -> nat -> nat -> nat) : list (list nat) :=
  let table := forLoop 0 rows (fun t i => arraySet t i [i]) [] in
  let table := forLoop 0 cols (fun t j => tableSet t 0 j j) table in
  forLoop 1 rows
    (fun t i => forLoop 1 cols (fun t j => tableSet t i j (cell t i j)) t)
    table.

(** [s.charAt(i)]: the one-unit string at [i], or the empty string. *)
Definition charAt (s : jsstring) (i : nat) : jsstring :=
  match s !! i with
  | Some c => [c]
  | None => []
  end.

(** [a[i] === b[j]] on two strings; both sides are [undefined] out of
    range. *)
Definition sameUnit (x y : option jschar) : bool :=
  match x, y with
  | Some c, Some d => (c =? d)%N
  | None, None => true
  | _, _ => false
  end.

Definition min3 (x y z : nat) : nat := Nat.min (Nat.min x y) z.

(** The textbook recurrence on the two strings (insertion, deletion and
    substitution cost one each), against which both tables are checked. *)
Fixpoint editDistance (a b : jsstring) : nat :=
  match a with
  | [] => length b
  | x :: a' =>
      (fix inner (b : jsstring) : nat :=
         match b with
         | [] => length a
         | y :: b' =>
             min3 (editDistance a' b + 1) (inner b' + 1)
                  (editDistance a' b' + (if (x =? y)%N then 0 else 1))
         end) b
  end.


(** ** Exceptions *)

(** What a call does: it returns a value, or it throws a [TypeError] (the
    one exception the code below can throw). *)
Inductive Outcome (A : Type) : Type :=
  | Returns (value : A)
  | TypeError.
Arguments Returns {A} value.
Arguments TypeError {A}.

Definition bind {A B : Type} (call : Outcome A) (rest : A -> Outcome B) : Outcome B :=
  match call with
  | Returns value => rest value
  | TypeError => TypeError
  end.

Notation "'let!' x ':=' call 'in' rest" := (bind call (fun x => rest))
  (at level 10, x name, call at level 100, rest at level 200).

(** [arr.every(f)] for a callback that may throw: the first false answer
    ends the walk, and so does an exception. *)
Fixpoint every {A : Type} (f : A -> Outcome bool) (arr : list A) : Outcome bool :=
  match arr with
  | [] => Returns true
  | x :: r => let! ok := f x in if ok then every f r else Returns false
  end.

(** [arr.forEach(x => { state = step(state, x) })] and [for (const x of
    arr)], for a body that may throw. *)
Fixpoint forEach {A S : Type} (step : S -> A -> Outcome S) (arr : list A) (state : S)
    : Outcome S :=
  match arr with
  | [] => Returns state
  | x :: r => let! state := step state x in forEach step r state
  end.

(** [arr.findIndex(f)] for a callback that may throw. *)
Fixpoint findIndexOrThrow {A : Type} (f : A -> Outcome bool) (arr : list A)
    : Outcome (option nat) :=
  match arr with
  | [] => Returns None
  | x :: r =>
      let! found := f x in
      if found then Returns (Some 0%nat)
      else let! later := findIndexOrThrow f r in Returns (option_map S later)
  end.

(** [arr.map(f)] for a callback that may throw. *)
Fixpoint mapOrThrow {A B : Type} (f : A -> Outcome B) (arr : list A) : Outcome (list B) :=
  match arr with
  | [] => Returns []
  | x :: r => let! y := f x in let! ys := mapOrThrow f r in Returns (y :: ys)
  end.

(** ** Property reads on an object literal *)

(** The names every object literal inherits from [Object.prototype]. *)
Definition objectPrototypeKeys : list jsstring :=
  [ lit "constructor"; lit "__defineGetter__"; lit "__defineSetter__";
    lit "hasOwnProperty"; lit "__lookupGetter__"; lit "__lookupSetter__";
    lit "isPrototypeOf"; lit "propertyIsEnumerable"; lit "toString"; lit "valueOf";
    lit "__proto__"; lit "toLocaleString" ].

(** The value of [table[key]] for a table of arrays of strings: the own
    array, a member inherited from [Object.prototype] (a function, or for
    [__proto__] the prototype itself), or [undefined]. *)
Inductive Value :=
  | ArrayOf (items : list jsstring)
  | Inherited
  | Undefined.

Definition getMember (table : list (jsstring * list jsstring)) (key : jsstring) : Value :=
  match lookupKey table key with
  | Some items => ArrayOf items
  | None => if arrayIncludes objectPrototypeKeys key then Inherited else Undefined
  end.

(** [value || fallback]: arrays, functions and objects are truthy. *)
Definition orArray (value : Value) (fallback : list jsstring) : Value :=
  match value with
  | Undefined => ArrayOf fallback
  | _ => value
  end.

(** [value.some(f)] and [value.includes(x)].  No member of
    [Object.prototype] has a property [some] or [includes]: on such a
    value, and on [undefined], the call throws a [TypeError]. *)
Definition callSome (value : Value) (f : jsstring -> bool) : Outcome bool :=
  match value with
  | ArrayOf items => Returns (existsb f items)
  | _ => TypeError
  end.

Definition callIncludes (value : Value) (x : jsstring) : Outcome bool :=
  match value with
  | ArrayOf items => Returns (arrayIncludes items x)
  | _ => TypeError
  end.

(** ** Current revision ([src/App.tsx]): the looser scoring policy *)

Module Looser.
Local Open Scope Q_scope.

(** [levenshtein] of [src/App.tsx]: rows run over [b], columns over [a];
    equal characters copy the diagonal. *)
Definition levenshtein (a b : jsstring) : nat :=
  if (length a =? 0)%nat then length b
  else if (length b =? 0)%nat then length a
  else
    let matrix :=
      fillTable (length b) (length a)
        (fun matrix i j =>
           if streq (charAt b (i - 1)) (charAt a (j - 1))
           then tableGet matrix (i - 1) (j - 1)
           else min3 (tableGet matrix (i - 1) (j - 1) + 1)
                     (tableGet matrix i (j - 1) + 1)
                     (tableGet matrix (i - 1) j + 1)) in
    tableGet matrix (length b) (length a).


Definition c_cedilla : jsstring := [231%N].
Definition a_circumflex : jsstring := [226%N].
Definition e_acute : jsstring := [233%N].

Definition medicalThesaurus : list (jsstring * list jsstring) :=
  [ (lit "afastador", [lit "afastador"; lit "afast"; lit "retractor"; lit "afast."]);
    (lit "pinca", [lit "pinca"; lit "pin" ++ c_cedilla ++ lit "a"; lit "forceps";
                   lit "clamp"; lit "pinca."; lit "pin" ++ c_cedilla ++ lit "a."]);
    (lit "tesoura", [lit "tesoura"; lit "tes"; lit "scissors"; lit "tes."]);
    (lit "porta", [lit "porta"; lit "needle"; lit "holder"; lit "porta-agulha"]);
    (lit "cabo", [lit "cabo"; lit "handle"]);
    (lit "fio", [lit "fio"; lit "suture"; lit "wire"]);
    (lit "volkmann", [lit "volkmann"; lit "volkman"; lit "wulkman"; lit "vulkman";
                      lit "vulkmann"; lit "wolkman"; lit "wolkmann"]);
    (lit "kocher", [lit "kocher"; lit "kocker"; lit "cocher"; lit "cocker"; lit "kocher."]);
    (lit "senn", [lit "senn"; lit "sen"; lit "semm"; lit "sem"]);
    (lit "mueller", [lit "mueller"; lit "muller"; lit "mulir"; lit "muler"]);
    (lit "metzenbaum", [lit "metzenbaum"; lit "metz"; lit "metzebaum"]);
    (lit "mayo", [lit "mayo"; lit "maio"]);
    (lit "kelly", [lit "kelly"; lit "kely"; lit "keli"]);
    (lit "clipe", [lit "clipe"; lit "clips"; lit "clip"]);
    (lit "gancho", [lit "gancho"; lit "ganchos"; lit "garra"; lit "garras";
                    lit "dente"; lit "dentes"]);
    (lit "mosquito", [lit "mosquito"; lit "halstead"; lit "halsted"]);
    (lit "bisturi", [lit "bisturi"; lit "scalpel"; lit "l" ++ a_circumflex ++ lit "mina";
                     lit "lamina"]);
    (lit "adson", [lit "adson"; lit "adsson"]);
    (lit "allis", [lit "allis"; lit "alis"]);
    (lit "babcock", [lit "babcock"; lit "babcok"]);
    (lit "backhaus", [lit "backhaus"; lit "backaus"]);
    (lit "gelpi", [lit "gelpi"; lit "gelpy"; lit "golpi"]);
    (lit "weitlaner", [lit "weitlaner"; lit "weitlaner"; lit "westphal"]);
    (lit "mixter", [lit "mixter"; lit "mixture"]);
    (lit "crile", [lit "crile"; lit "crille"]);
    (lit "rochester", [lit "rochester"]);
    (lit "pean", [lit "pean"]);
    (lit "guthrie", [lit "guthrie"; lit "gunthrie"; lit "gutrie"]);
    (lit "cizalha", [lit "cizalha"; lit "cisalha"; lit "alicate"]);
    (lit "liston", [lit "liston"; lit "listom"]);
    (lit "farabeuf", [lit "farabeuf"; lit "farabef"; lit "farabauf"]);
    (lit "yankauer", [lit "yankauer"; lit "yankau"; lit "yancauer"]);
    (lit "hartmann", [lit "hartmann"; lit "hartman"]);
    (lit "bunt", [lit "bunt"; lit "bunti"]);
    (lit "hegar", [lit "hegar"; lit "hegger"]) ].

Definition STOP_WORDS : list jsstring :=
  [ lit "de"; lit "do"; lit "da"; lit "com"; lit "para"; lit "em"; lit "cm";
    lit "mm"; lit "ml"; lit "unid"; lit "cx"; lit "pc"; lit "p" ++ c_cedilla;
    lit "jogo"; lit "kit"; lit "conjunto" ].

Definition CATEGORY_TERMS : list jsstring :=
  [ lit "afastador"; lit "pinca"; lit "pin" ++ c_cedilla ++ lit "a"; lit "tesoura";
    lit "porta"; lit "cabo"; lit "fio"; lit "lamina";
    lit "l" ++ a_circumflex ++ lit "mina"; lit "bisturi"; lit "agulha"; lit "clip";
    lit "clipe"; lit "clips"; lit "broca"; lit "raspador"; lit "elevador";
    lit "descolador"; lit "valva"; lit "especulo"; lit "esp" ++ e_acute ++ lit "culo";
    lit "aspirador"; lit "canula"; lit "c" ++ a_circumflex ++ lit "nula"; lit "cesta";
    lit "caixa"; lit "cizalha"; lit "gancho"; lit "garra"; lit "dente"; lit "sonda";
    lit "cateter"; lit "drill"; lit "perfurador" ].

(** [medicalThesaurus[t] || [t]] *)
Definition synonymsOf (t : jsstring) : Value := orArray (getMember medicalThesaurus t) [t].

(** The callback of [queryTokens.every] in step 1. *)
Definition importantTokenPresent (normalizedTitle qToken : jsstring) : Outcome bool :=
  if arrayIncludes STOP_WORDS qToken then Returns true
  else if (length qToken <? 3)%nat && isNumeric qToken then Returns true
  else callSome (synonymsOf qToken) (fun syn => includes normalizedTitle syn).

(** The weight chosen for a query token in step 2. *)
Definition tokenWeight (qToken : jsstring) : Q :=
  if arrayIncludes STOP_WORDS qToken then 50
  else if arrayIncludes CATEGORY_TERMS qToken then 2500
  else if isNumeric qToken then 500
  else 4500.

(** One turn of the loop [for (const pToken of productTokens)] of step 2:
    the new value of [bestTokenScore]. *)
Definition matchToken (qToken : jsstring) (synonyms : Value) (bestTokenScore : Q)
    (pToken : jsstring) : Outcome Q :=
  let tokenWeight := tokenWeight qToken in
  let! isSynonym := callSome synonyms (fun s => streq s pToken) in
  Returns
    (if isSynonym
     then Qmax bestTokenScore 1
     else if Qlt_bool 1000 tokenWeight && (3 <? length qToken)%nat
             && startsWith pToken qToken
     then Qmax bestTokenScore 0.9
     else if Qlt_bool 100 tokenWeight && (3 <? length qToken)%nat
     then
       let dist := levenshtein qToken pToken in
       let threshold := if (6 <? length qToken)%nat then 2%nat else 1%nat in
       if (dist <=? threshold)%nat
       then Qmax bestTokenScore (1 - inject_Z (Z.of_nat dist) * 0.2)
       else bestTokenScore
     else bestTokenScore).

(** The whole loop, from [let bestTokenScore = 0]; [synonyms] is read
    once, before the loop. *)
Definition bestTokenScore (qToken : jsstring) (productTokens : list jsstring) : Outcome Q :=
  forEach (matchToken qToken (synonymsOf qToken)) productTokens 0.

(** One turn of [queryTokens.forEach] in step 2: the new [totalScore].
    (The counter [exactTokenMatches] is written but never read.) *)
Definition addTokenScore (productTokens : list jsstring) (totalScore : Q)
    (qToken : jsstring) : Outcome Q :=
  let! bestTokenScore := bestTokenScore qToken productTokens in
  Returns (if Qlt_bool 0 bestTokenScore
           then totalScore + bestTokenScore * tokenWeight qToken
           else totalScore).

Definition addTokenScores (queryTokens productTokens : list jsstring) (totalScore : Q)
    : Outcome Q :=
  forEach (addTokenScore productTokens) queryTokens totalScore.

(** Step 3, the anchor bias. *)
Definition anchorBonus (anchorSynonyms : Value) (productTokens : list jsstring) : Outcome Q :=
  let! anchorIndex :=
    findIndexOrThrow (fun p => callIncludes anchorSynonyms p) productTokens in
  Returns (match anchorIndex with
           | Some 0%nat => 2000
           | Some _ => 1000
           | None => 0
           end).

(** Step 4, the accessory penalty. *)
Definition accessoryPenalty (anchorSynonyms : Value) (productTokens : list jsstring)
    : Outcome Q :=
  let! asksCabo := callIncludes anchorSynonyms (lit "cabo") in
  let! isCaboQuery :=
    if asksCabo then Returns true else callIncludes anchorSynonyms (lit "suporte") in
  let productIsAccessory :=
    arrayIncludes productTokens (lit "cabo") || arrayIncludes productTokens (lit "suporte") in
  Returns (if productIsAccessory && negb isCaboQuery then 3000 else 0).

Section WithRuntime.
Context (U : Unicode).

Definition queryTokensOf (query : jsstring) : list jsstring :=
  List.filter (fun t => (0 <? length t)%nat) (splitOn 32%N (normalizeText U query)).

Definition calculateMatchScore (product : MappedProduct) (query : jsstring) : Outcome Q :=
  let normalizedTitle := normalizeText U (title product) in
  let queryTokens := queryTokensOf query in
  let productTokens := splitOn 32%N normalizedTitle in
  match queryTokens with
  | [] => Returns 0
  | anchorToken :: _ =>
      let totalScore := 0 in
      let! allImportantTokensPresent :=
        every (importantTokenPresent normalizedTitle) queryTokens in
      let totalScore :=
        if allImportantTokensPresent then totalScore + 6000 else totalScore in
      let! totalScore := addTokenScores queryTokens productTokens totalScore in
      let anchorSynonyms := synonymsOf anchorToken in
      let! bonus := anchorBonus anchorSynonyms productTokens in
      let totalScore := totalScore + bonus in
      let! penalty := accessoryPenalty anchorSynonyms productTokens in
      Returns (totalScore - penalty)
  end.
End WithRuntime.

End Looser.

(** ** Earlier revision ([src/unnamed/part_001]): the stricter scoring policy *)

Module Stricter.
Local Open Scope Z_scope.

Definition medicalThesaurus : list (jsstring * list jsstring) :=
  [ (lit "afastador", [lit "afastador"; lit "afast"; lit "retractor"]);
    (lit "pinca", [lit "pinca"; lit "pin" ++ [231%N] ++ lit "a"; lit "forceps"; lit "clamp"]);
    (lit "tesoura", [lit "tesoura"; lit "tes"; lit "scissors"]);
    (lit "porta", [lit "porta"; lit "needle"; lit "holder"]);
    (lit "cabo", [lit "cabo"; lit "handle"]);
    (lit "volkmann", [lit "volkmann"; lit "volkman"; lit "wulkman"; lit "vulkman";
                      lit "vulkmann"]);
    (lit "senn", [lit "senn"; lit "sen"; lit "semm"; lit "sem"]);
    (lit "mueller", [lit "mueller"; lit "muller"; lit "mulir"; lit "muler"]);
    (lit "metzenbaum", [lit "metzenbaum"; lit "metz"; lit "metzebaum"]);
    (lit "mayo", [lit "mayo"; lit "maio"]);
    (lit "kelly", [lit "kelly"; lit "kely"]);
    (lit "clipe", [lit "clipe"; lit "clips"; lit "clip"]);
    (lit "clips", [lit "clips"; lit "clipe"; lit "clip"]) ].

(** [medicalThesaurus[t] || [t]] *)
Definition synonymsOf (t : jsstring) : Value := orArray (getMember medicalThesaurus t) [t].

(** [levenshtein]: rows run over [a], columns over [b]; every cell is the
    minimum of the three neighbours. *)
Definition levenshtein (a b : jsstring) : nat :=
  let tmp :=
    fillTable (length a) (length b)
      (fun tmp i j =>
         min3 (tableGet tmp (i - 1) j + 1)
              (tableGet tmp i (j - 1) + 1)
              (tableGet tmp (i - 1) (j - 1)
               + (if sameUnit (a !! (i - 1)%nat) (b !! (j - 1)%nat) then 0 else 1)))%nat in
  tableGet tmp (length a) (length b).

Definition accessoryKeywords : list jsstring :=
  [ lit "cabo"; lit "capa"; lit "suporte"; lit "p/"; lit "para" ].

(** [anchorSynonyms.some(syn => productWords[0] === syn ||
    productWords[0]?.startsWith(syn))] *)
Definition productStartsWithAnchor (anchorSynonyms : Value) (productWords : list jsstring)
    : Outcome bool :=
  callSome anchorSynonyms
    (fun syn => match productWords with
                | first :: _ => streq first syn || startsWith first syn
                | [] => false
                end).

(** [anchorSynonyms.some(syn => productWords.includes(syn))] *)
Definition productContainsAnchor (anchorSynonyms : Value) (productWords : list jsstring)
    : Outcome bool :=
  callSome anchorSynonyms (fun syn => arrayIncludes productWords syn).

(** One turn of the inner [productWords.forEach] of the last loop: the new
    value of [bestMatch]. *)
Definition matchWord (token : jsstring) (synonyms : Value) (bestMatch : Z) (word : jsstring)
    : Outcome Z :=
  let! isSynonym := callSome synonyms (fun s => streq word s) in
  Returns
    (if isSynonym then 2000
     else
       let dist := levenshtein token word in
       let threshold := if (5 <? length token)%nat then 2%nat else 1%nat in
       if (dist <=? threshold)%nat
       then Z.max bestMatch (1000 - Z.of_nat dist * 200)
       else bestMatch).

(** The whole inner loop, from [let bestMatch = 0]; [synonyms] is read
    once, before the loop. *)
Definition bestMatch (token : jsstring) (productWords : list jsstring) : Outcome Z :=
  forEach (matchWord token (synonymsOf token)) productWords 0.

(** Everything after the anchor test: the accessory check and the
    per-token loop, starting from the running [score]. *)
Definition accumulate (queryTokens : list jsstring) (anchorSynonyms : Value)
    (productWords : list jsstring) (score : Z) : Outcome Z :=
  let! isCaboSearch := callIncludes anchorSynonyms (lit "cabo") in
  let isProductAccessory := existsb (fun w => arrayIncludes accessoryKeywords w) productWords in
  let score := if isProductAccessory && negb isCaboSearch then score - 4000 else score in
  forEach (fun score token =>
             let! bestMatch := bestMatch token productWords in Returns (score + bestMatch))
          queryTokens score.

Section WithRuntime.
Context (U : Unicode).

Definition queryTokensOf (query : jsstring) : list jsstring :=
  List.filter (fun t => (0 <? length t)%nat) (splitOn 32%N (normalizeText U query)).

Definition calculateMatchScore (product : MappedProduct) (query : jsstring) : Outcome Z :=
  let queryTokens := queryTokensOf query in
  match queryTokens with
  | [] => Returns 0
  | anchorToken :: _ =>
      let productTitle := normalizeText U (title product) in
      let productWords := splitOn 32%N productTitle in
      let score := 0 in
      let! containsAllTokens :=
        every (fun token =>
                 callSome (synonymsOf token) (fun syn => includes productTitle syn))
              queryTokens in
      let score := if containsAllTokens then score + 5000 else score in
      let anchorSynonyms := synonymsOf anchorToken in
      let! startsWithAnchor := productStartsWithAnchor anchorSynonyms productWords in
      let! containsAnchor := productContainsAnchor anchorSynonyms productWords in
      if startsWithAnchor
      then accumulate queryTokens anchorSynonyms productWords (score + 5000)
      else if containsAnchor
      then accumulate queryTokens anchorSynonyms productWords (score + 1000)
      else if (1 <? length queryTokens)%nat then Returns (-1)
      else accumulate queryTokens anchorSynonyms productWords score
  end.
End WithRuntime.

End Stricter.

(** ** Ranker and quotation aggregator ([App], identical in both revisions) *)

Section Aggregator.
Local Open Scope Q_scope.

(** The numbers the scoring function in use returns.  [rankOutcome] and
    [handleSearchOutcome] below are the same pipeline for a scoring
    function that may throw; whatever they return is what [rank] and
    [handleSearch] compute from the numbers returned
    ([rankOutcome_is_rank], [handleSearchOutcome_cases]). *)
Context (calculateMatchScore : MappedProduct -> jsstring -> Q).

(** The constant [matches] of [handleSearch]:
<<
  allProducts
    .map(p => ({ ...p, matchScore: calculateMatchScore(p, item.name) }))
    .filter(p => (p.matchScore || 0) > 0)
    .sort((a, b) => (b.matchScore || 0) - (a.matchScore || 0))
    .slice(0, 15)
>> *)
Definition rank (allProducts : list MappedProduct) (itemName : jsstring)
    : list MappedProduct :=
  take 15
    (arraySort (fun a b => matchScoreOr0 b - matchScoreOr0 a)
       (List.filter (fun p => Qlt_bool 0 (matchScoreOr0 p))
          (map (fun p => withMatchScore p (calculateMatchScore p itemName))
             allProducts))).

(** The body of [extractedItems.map((item, index) => ...)]: the line for
    one item, and the queued update of [quotationState]. *)
Definition searchLine (allProducts : list MappedProduct) (item : ExtractedItem)
    (index : nat) (prev : QuotationMap) : BulkSearchResult * QuotationMap :=
  let matches := rank allProducts (name item) in
  let state :=
    match matches with
    | top :: _ => <[index := [(id top, quantity item)]]> prev
    | [] => prev
    end in
  ({| term := name item; originalTerm := name item;
      products := matches; detectedQuantity := quantity item |}, state).

Fixpoint searchLines (allProducts : list MappedProduct) (items : list ExtractedItem)
    (index : nat) (prev : QuotationMap) : list BulkSearchResult * QuotationMap :=
  match items with
  | [] => ([], prev)
  | item :: rest =>
      let '(line, state) := searchLine allProducts item index prev in
      let '(lines, state) := searchLines allProducts rest (S index) state in
      (line :: lines, state)
  end.

(** [handleSearch] once the extractor has answered: [setQuotationState({})]
    empties the state, then every line is ranked.  The result is the new
    [bulkResults] and the new [quotationState]. *)
Definition handleSearch (allProducts : list MappedProduct)
    (extractedItems : list ExtractedItem) : list BulkSearchResult * QuotationMap :=
  searchLines allProducts extractedItems 0%nat ∅.

End Aggregator.

(** The constant [matches] for a scoring function that may throw: the
    exception leaves [allProducts.map] at the first product whose scoring
    throws, before anything is filtered or sorted. *)
Definition rankOutcome (calculateMatchScore : MappedProduct -> jsstring -> Outcome Q)
    (allProducts : list MappedProduct) (itemName : jsstring) : Outcome (list MappedProduct) :=
  let! scoredProducts :=
    mapOrThrow (fun p => let! matchScore := calculateMatchScore p itemName in
                         Returns (withMatchScore p matchScore))
               allProducts in
  Returns (take 15
             (arraySort (fun a b => matchScoreOr0 b - matchScoreOr0 a)%Q
                (List.filter (fun p => Qlt_bool 0 (matchScoreOr0 p)) scoredProducts))).

(** The loop [extractedItems.map((item, index) => ...)] for a scoring
    function that may throw.  The exception leaves the loop at the first
    line whose ranking throws; the updates of [quotationState] queued by
    the lines before it are applied all the same. *)
Fixpoint searchLinesOutcome (calculateMatchScore : MappedProduct -> jsstring -> Outcome Q)
    (allProducts : list MappedProduct) (items : list ExtractedItem)
    (index : nat) (prev : QuotationMap) : Outcome (list BulkSearchResult) * QuotationMap :=
  match items with
  | [] => (Returns [], prev)
  | item :: rest =>
      match rankOutcome calculateMatchScore allProducts (name item) with
      | TypeError => (TypeError, prev)
      | Returns matches =>
          let state :=
            match matches with
            | top :: _ => <[index := [(id top, quantity item)]]> prev
            | [] => prev
            end in
          let line := {| term := name item; originalTerm := name item;
                         products := matches; detectedQuantity := quantity item |} in
          let '(lines, state) :=
            searchLinesOutcome calculateMatchScore allProducts rest (S index) state in
          (let! lines := lines in Returns (line :: lines), state)
      end
  end.

(** [handleSearch] once the extractor has answered, for a scoring function
    that may throw.  [catch (err)] only logs: when the loop throws,
    [setBulkResults] is not reached and [bulkResults] stays what it was. *)
Definition handleSearchOutcome (calculateMatchScore : MappedProduct -> jsstring -> Outcome Q)
    (allProducts : list MappedProduct) (extractedItems : list ExtractedItem)
    (bulkResults : list BulkSearchResult) : list BulkSearchResult * QuotationMap :=
  match searchLinesOutcome calculateMatchScore allProducts extractedItems 0%nat ∅ with
  | (Returns results, state) => (results, state)
  | (TypeError, state) => (bulkResults, state)
  end.

(** [handleQuantityChange] *)
Definition handleQuantityChange (termIndex : nat) (productId : jsstring) (newQty : Z)
    (prev : QuotationMap) : QuotationMap :=
  <[termIndex := [(productId, Z.max 1 newQty)]]> prev.

(** The [onToggleSelect] handler of an expanded row: the clicked product
    replaces the selection, with [result.detectedQuantity || 1]. *)
Definition onToggleSelect (result : BulkSearchResult) (tIdx : nat) (pId : jsstring)
    (prev : QuotationMap) : QuotationMap :=
  <[tIdx := [(pId, if (detectedQuantity result =? 0)%Z then 1%Z else detectedQuantity result)]]> prev.

Definition allSuppliers : jsstring := lit "Todos os fornecedores".

(** [filteredResults] *)
Definition filteredResults (selectedSupplierFilter : jsstring)
    (bulkResults : list BulkSearchResult) : list BulkSearchResult :=
  if streq selectedSupplierFilter allSuppliers then bulkResults
  else map (fun res =>
              {| term := term res; originalTerm := originalTerm res;
                 products := List.filter (fun p => streq (supplier p) selectedSupplierFilter)
                                         (products res);
                 detectedQuantity := detectedQuantity res |})
           bulkResults.

(** A string is truthy unless it is empty. *)
Definition truthy (s : jsstring) : bool := negb (Nat.eqb (length s) 0).

(** [quotationState[idx]?.[activeId]] *)
Definition selectedQuantity (quotationState : QuotationMap) (idx : nat) (activeId : jsstring)
    : option Z :=
  match quotationState !! idx with
  | Some record => lookupKey record activeId
  | None => None
  end.

(** The selection in force on a line, as [grandTotal], [handleExportCSV]
    and the table rows all compute it:
<<
    const selectedIds = Object.keys(quotationState[idx] || {});
    const activeId = selectedIds[0] ||
      (result.products.length > 0 ? result.products[0].id : null);
    const p = activeId ? result.products.find(prod => prod.id === activeId) : null;
    const qty = activeId
      ? (quotationState[idx]?.[activeId] || result.detectedQuantity)
      : result.detectedQuantity;
>> *)
Definition activeIdOf (quotationState : QuotationMap) (result : BulkSearchResult) (idx : nat)
    : option jsstring :=
  let selectedIds := map fst (default [] (quotationState !! idx)) in
  let topId :=
    match products result with
    | top :: _ => Some (id top)
    | [] => None
    end in
  match selectedIds with
  | first :: _ => if truthy first then Some first else topId
  | [] => topId
  end.

Definition activeProduct (quotationState : QuotationMap) (result : BulkSearchResult) (idx : nat)
    : option MappedProduct :=
  match activeIdOf quotationState result idx with
  | Some activeId =>
      if truthy activeId
      then List.find (fun prod => streq (id prod) activeId) (products result)
      else None
  | None => None
  end.

Definition activeQuantity (quotationState : QuotationMap) (result : BulkSearchResult) (idx : nat)
    : Z :=
  match activeIdOf quotationState result idx with
  | Some activeId =>
      if truthy activeId
      then match selectedQuantity quotationState idx activeId with
           | Some q => if (q =? 0)%Z then detectedQuantity result else q
           | None => detectedQuantity result
           end
      else detectedQuantity result
  | None => detectedQuantity result
  end.

(** [p?.price || 0] *)
Definition priceOr0 (p : option MappedProduct) : Q :=
  match p with
  | Some prod => default 0%Q (price prod)
  | None => 0%Q
  end.

(** *** Double-precision arithmetic

    A finite double is an integer of magnitude below 2^53 times a power
    of two, the exponent at least -1074.  [*] and [+] return the double
    nearest to the exact result, a tie going to the even significand. *)

(** The [k] with [2^k <= |x| < 2^(k+1)], for [x] other than zero. *)
Definition floorLog2 (x : Q) : Z :=
  let k := (Z.log2 (Z.abs (Qnum x)) - Z.log2 (Zpos (Qden x)))%Z in
  if Qle_bool (2 ^ k) (Qabs x) then k else (k - 1)%Z.

Definition roundHalfEven (x : Q) : Z :=
  let f := Qfloor x in
  match Qcompare (x - inject_Z f) (1 # 2) with
  | Lt => f
  | Gt => (f + 1)%Z
  | Eq => if Z.even f then f else (f + 1)%Z
  end.

(** The double nearest to [x], in lowest terms: 53 significant bits from
    the leading bit of [x] down, or multiples of 2^-1074 for the
    subnormal numbers. *)
Definition roundDouble (x : Q) : Q :=
  let x := Qred x in
  if Qeq_bool x 0 then 0%Q
  else
    let e := Z.max (floorLog2 x - 52) (-1074) in
    Qred (inject_Z (roundHalfEven (x / 2 ^ e)) * 2 ^ e).

(** [x * y] and [x + y] on doubles. *)
Definition times (x y : Q) : Q := roundDouble (x * y).
Definition plus (x y : Q) : Q := roundDouble (x + y).

(** The quantity of a line as a number: an integer the code holds as a
    double. *)
Definition numberOf (n : Z) : Q := inject_Z n.

Fixpoint sumLines (quotationState : QuotationMap) (results : list BulkSearchResult)
    (idx : nat) (total : Q) : Q :=
  match results with
  | [] => total
  | result :: rest =>
      sumLines quotationState rest (S idx)
        (plus total
           (times (priceOr0 (activeProduct quotationState result idx))
                  (numberOf (activeQuantity quotationState result idx))))
  end.

(** [grandTotal]: [filteredResults.reduce((total, result, idx) => ..., 0)] *)
Definition grandTotal (selectedSupplierFilter : jsstring) (bulkResults : list BulkSearchResult)
    (quotationState : QuotationMap) : Q :=
  sumLines quotationState (filteredResults selectedSupplierFilter bulkResults) 0%nat 0%Q.

Inductive MatchStatus := Exact | Similar | NotFound.

(** The classification counted for the toast at the end of [handleSearch]. *)
Definition classify (U : Unicode) (res : BulkSearchResult) : MatchStatus :=
  match products res with
  | [] => NotFound
  | p :: _ =>
      if streq (normalizeText U (term res)) (normalizeText U (title p)) then Exact
      else Similar
  end.

(** The [status] column of [handleExportCSV], on the selection in force. *)
Definition exportStatus (U : Unicode) (quotationState : QuotationMap)
    (result : BulkSearchResult) (idx : nat) : MatchStatus :=
  match activeProduct quotationState result idx with
  | Some p =>
      if streq (normalizeText U (term result)) (normalizeText U (title p)) then Exact
      else Similar
  | None => NotFound
  end.

(** The states of [quotationState] the application can reach: it starts
    empty, and only [handleSearch], [handleQuantityChange] and
    [onToggleSelect] write it. *)
Inductive reachable (calculateMatchScore : MappedProduct -> jsstring -> Q)
    : QuotationMap -> Prop :=
  | reach_initial : reachable calculateMatchScore ∅
  | reach_search allProducts extractedItems prev :
      reachable calculateMatchScore prev ->
      reachable calculateMatchScore
        (snd (handleSearch calculateMatchScore allProducts extractedItems))
  | reach_quantity termIndex productId newQty prev :
      reachable calculateMatchScore prev ->
      reachable calculateMatchScore (handleQuantityChange termIndex productId newQty prev)
  | reach_toggle result tIdx pId prev :
      reachable calculateMatchScore prev ->
      reachable calculateMatchScore (onToggleSelect result tIdx pId prev).

(** ** Item extractor ([extractShoppingItems], [src/services/geminiService.ts]) *)

(** What the awaited call to the language model can do: throw, or answer
    with a response whose [text] may be absent. *)
Inductive GenerateContent :=
  | Throws
  | Responds (text : option jsstring).

Definition isLineBreakOrComma (c : jschar) : bool := (c =? 10)%N || (c =? 44)%N.

(** [text.split(/[\n,]+/).map(s => ({ name: s.trim(), quantity: 1 }))
         .filter(s => s.name.length > 0)] *)
Definition localSplit (text : jsstring) : list ExtractedItem :=
  List.filter (fun s => (0 <? length (name s))%nat)
    (map (fun s => {| name := trim s; quantity := 1 |})
       (splitRuns isLineBreakOrComma text)).

Section Extractor.
(** [JSON.parse] read as an array of items; [None] when it throws. *)
Context (JSON_parse : jsstring -> option (list ExtractedItem)).

Definition extractShoppingItems (call : GenerateContent) (text : jsstring)
    : list ExtractedItem :=
  match call with
  | Responds (Some responseText) =>
      if truthy responseText then
        match JSON_parse responseText with
        | Some items => items
        | None => localSplit text
        end
      else localSplit text
  | Responds None => localSplit text
  | Throws => localSplit text
  end.
End Extractor.

(** ** Vocabulary of the proofs *)

(** Row [i] of a table whose cell [(i, j)] holds [D i j], up to column
    [n]. *)
Definition tableRow (D : nat -> nat -> nat) (i n : nat) : list nat := map (D i) (seq 0 n).

(** The table while the rows are being filled: the rows before [i] are
    complete, the others still hold their first cell only. *)
Definition tableStarted (rows cols : nat) (D : nat -> nat -> nat) (i : nat)
    (t : list (list nat)) : Prop :=
  length t = rows + 1 /\
  (forall k, k < i -> t !! k = Some (tableRow D k (cols + 1))) /\
  (forall k, i <= k <= rows -> t !! k = Some [k]).

(** The distance between the reversed prefixes of two strings: the
    quantity cell [(i, j)] of a table holds. *)
Definition prefixDistance (a b : jsstring) (i j : nat) : nat :=
  editDistance (rev (take i a)) (rev (take j b)).


(** White space occurs only as single spaces, each followed by a
    character that is not white space (or by the end of the string). *)
Fixpoint spaced (s : jsstring) : Prop :=
  match s with
  | [] => True
  | c :: r =>
      (isWhiteSpace c = true ->
       c = 32%N /\ match r with
                   | d :: _ => isWhiteSpace d = false
                   | [] => True
                   end)
      /\ spaced r
  end.

Definition startsClean (s : jsstring) : Prop :=
  match s with
  | c :: _ => isWhiteSpace c = false
  | [] => True
  end.

(** The shape of every normalized text: words over [a-z0-9] separated by
    single spaces, with no space at either end. *)
Definition normalForm (s : jsstring) : Prop :=
  forallb plainChar s = true /\ spaced s /\ startsClean s /\ trimEnd s = s.

(** A list in non-increasing order of [key]. *)
Fixpoint descending {A : Type} (key : A -> Q) (l : list A) : Prop :=
  match l with
  | [] => True
  | x :: r => Forall (fun y => (key y <= key x)%Q) r /\ descending key r
  end.

(** The products of a list that carry the score [v]. *)
Definition withScore (v : Q) (l : list MappedProduct) : list MappedProduct :=
  List.filter (fun p => Qeq_bool (matchScoreOr0 p) v) l.

(** The first step of [rank]: every product with its score attached. *)
Definition scored (calculateMatchScore : MappedProduct -> jsstring -> Q)
    (allProducts : list MappedProduct) (itemName : jsstring) : list MappedProduct :=
  map (fun p => withMatchScore p (calculateMatchScore p itemName)) allProducts.

(** ** The value of a scoring call that returns

    The scorers throw only where they read the thesaurus at a token that
    names a member of [Object.prototype].  On the other tokens every read
    yields an array, every step returns, and the value returned is the one
    the functions below compute: the same steps, on arrays.  The lemmas
    [looser_returns] and [stricter_returns] say so. *)

Module LooserValue.
Import Looser.
Local Open Scope Q_scope.

(** The array [medicalThesaurus[t] || [t]] of a token that is a key of the
    thesaurus or names nothing in [Object.prototype]. *)
Definition synonymsOf (t : jsstring) : list jsstring :=
  match lookupKey medicalThesaurus t with
  | Some synonyms => synonyms
  | None => [t]
  end.

(** Step 1 on such a token. *)
Definition importantTokenPresent (normalizedTitle qToken : jsstring) : bool :=
  if arrayIncludes STOP_WORDS qToken then true
  else if (length qToken <? 3)%nat && isNumeric qToken then true
  else existsb (fun syn => includes normalizedTitle syn) (synonymsOf qToken).

(** One turn of the inner loop of step 2. *)
Definition matchToken (qToken : jsstring) (bestTokenScore : Q) (pToken : jsstring) : Q :=
  let tokenWeight := tokenWeight qToken in
  let synonyms := synonymsOf qToken in
  if existsb (fun s => streq s pToken) synonyms
  then Qmax bestTokenScore 1
  else if Qlt_bool 1000 tokenWeight && (3 <? length qToken)%nat
          && startsWith pToken qToken
  then Qmax bestTokenScore 0.9
  else if Qlt_bool 100 tokenWeight && (3 <? length qToken)%nat
  then
    let dist := levenshtein qToken pToken in
    let threshold := if (6 <? length qToken)%nat then 2%nat else 1%nat in
    if (dist <=? threshold)%nat
    then Qmax bestTokenScore (1 - inject_Z (Z.of_nat dist) * 0.2)
    else bestTokenScore
  else bestTokenScore.

Definition bestTokenScore (qToken : jsstring) (productTokens : list jsstring) : Q :=
  fold_left (matchToken qToken) productTokens 0.

Definition addTokenScore (productTokens : list jsstring) (totalScore : Q)
    (qToken : jsstring) : Q :=
  let bestTokenScore := bestTokenScore qToken productTokens in
  if Qlt_bool 0 bestTokenScore
  then totalScore + bestTokenScore * tokenWeight qToken
  else totalScore.

Definition addTokenScores (queryTokens productTokens : list jsstring) (totalScore : Q) : Q :=
  fold_left (addTokenScore productTokens) queryTokens totalScore.

Definition anchorBonus (anchorSynonyms productTokens : list jsstring) : Q :=
  match findIndex (fun p => arrayIncludes anchorSynonyms p) productTokens with
  | Some 0%nat => 2000
  | Some _ => 1000
  | None => 0
  end.

Definition accessoryPenalty (anchorSynonyms productTokens : list jsstring) : Q :=
  let isCaboQuery :=
    arrayIncludes anchorSynonyms (lit "cabo") || arrayIncludes anchorSynonyms (lit "suporte") in
  let productIsAccessory :=
    arrayIncludes productTokens (lit "cabo") || arrayIncludes productTokens (lit "suporte") in
  if productIsAccessory && negb isCaboQuery then 3000 else 0.

Section WithRuntime.
Context (U : Unicode).

Definition calculateMatchScore (product : MappedProduct) (query : jsstring) : Q :=
  let normalizedTitle := normalizeText U (title product) in
  let queryTokens := queryTokensOf U query in
  let productTokens := splitOn 32%N normalizedTitle in
  match queryTokens with
  | [] => 0
  | anchorToken :: _ =>
      let totalScore := 0 in
      let allImportantTokensPresent :=
        forallb (importantTokenPresent normalizedTitle) queryTokens in
      let totalScore :=
        if allImportantTokensPresent then totalScore + 6000 else totalScore in
      let totalScore := addTokenScores queryTokens productTokens totalScore in
      let anchorSynonyms := synonymsOf anchorToken in
      let totalScore := totalScore + anchorBonus anchorSynonyms productTokens in
      totalScore - accessoryPenalty anchorSynonyms productTokens
  end.
End WithRuntime.

End LooserValue.

Module StricterValue.
Import Stricter.
Local Open Scope Z_scope.

(** The array [medicalThesaurus[t] || [t]]. *)
Definition synonymsOf (t : jsstring) : list jsstring :=
  match lookupKey medicalThesaurus t with
  | Some synonyms => synonyms
  | None => [t]
  end.

Definition productStartsWithAnchor (anchorSynonyms productWords : list jsstring) : bool :=
  match productWords with
  | first :: _ => existsb (fun syn => streq first syn || startsWith first syn) anchorSynonyms
  | [] => false
  end.

Definition productContainsAnchor (anchorSynonyms productWords : list jsstring) : bool :=
  existsb (fun syn => arrayIncludes productWords syn) anchorSynonyms.

Definition matchWord (token : jsstring) (bestMatch : Z) (word : jsstring) : Z :=
  let synonyms := synonymsOf token in
  if existsb (fun s => streq word s) synonyms then 2000
  else
    let dist := levenshtein token word in
    let threshold := if (5 <? length token)%nat then 2%nat else 1%nat in
    if (dist <=? threshold)%nat
    then Z.max bestMatch (1000 - Z.of_nat dist * 200)
    else bestMatch.

Definition bestMatch (token : jsstring) (productWords : list jsstring) : Z :=
  fold_left (matchWord token) productWords 0.

Definition accumulate (queryTokens anchorSynonyms productWords : list jsstring)
    (score : Z) : Z :=
  let isCaboSearch := arrayIncludes anchorSynonyms (lit "cabo") in
  let isProductAccessory := existsb (fun w => arrayIncludes accessoryKeywords w) productWords in
  let score := if isProductAccessory && negb isCaboSearch then score - 4000 else score in
  fold_left (fun score token => score + bestMatch token productWords) queryTokens score.

Section WithRuntime.
Context (U : Unicode).

Definition calculateMatchScore (product : MappedProduct) (query : jsstring) : Z :=
  let queryTokens := queryTokensOf U query in
  match queryTokens with
  | [] => 0
  | anchorToken :: _ =>
      let productTitle := normalizeText U (title product) in
      let productWords := splitOn 32%N productTitle in
      let score := 0 in
      let containsAllTokens :=
        forallb (fun token => existsb (fun syn => includes productTitle syn) (synonymsOf token))
                queryTokens in
      let score := if containsAllTokens then score + 5000 else score in
      let anchorSynonyms := synonymsOf anchorToken in
      if productStartsWithAnchor anchorSynonyms productWords
      then accumulate queryTokens anchorSynonyms productWords (score + 5000)
      else if productContainsAnchor anchorSynonyms productWords
      then accumulate queryTokens anchorSynonyms productWords (score + 1000)
      else if (1 <? length queryTokens)%nat then -1
      else accumulate queryTokens anchorSynonyms productWords score
  end.
End WithRuntime.

End StricterValue.

(** The number a scoring call returns, 0 standing for a call that
    throws. *)
Definition returned (calculateMatchScore : MappedProduct -> jsstring -> Outcome Q)
    (product : MappedProduct) (query : jsstring) : Q :=
  match calculateMatchScore product query with
  | Returns score => score
  | TypeError => 0%Q
  end.

(** A token that reads an array from the thesaurus. *)
Definition ordinary (t : jsstring) : Prop := arrayIncludes objectPrototypeKeys t = false.

(** The sum of the weights of the query tokens: what step 2 adds when
    every token finds a perfect match. *)
Definition totalWeight (queryTokens : list jsstring) : Q :=
  fold_right (fun qToken acc => (Looser.tokenWeight qToken + acc)%Q) 0%Q queryTokens.

(** The accessory penalty a product receives for a query. *)
Definition accessoryPenaltyOf (U : Unicode) (product : MappedProduct) (query : jsstring) : Q :=
  match Looser.queryTokensOf U query with
  | [] => 0%Q
  | anchorToken :: _ =>
      LooserValue.accessoryPenalty (LooserValue.synonymsOf anchorToken)
        (splitOn 32%N (normalizeText U (title product)))
  end.

(** The four steps of the looser policy added up: the completeness bonus,
    the sum over the query tokens of best token score times weight, the
    anchor bonus, less the accessory penalty. *)
Definition sumOfSteps (U : Unicode) (product : MappedProduct) (query : jsstring) : Q :=
  let normalizedTitle := normalizeText U (title product) in
  let productTokens := splitOn 32%N normalizedTitle in
  let queryTokens := Looser.queryTokensOf U query in
  ((if forallb (LooserValue.importantTokenPresent normalizedTitle) queryTokens
    then 6000 else 0)
   + fold_right (fun qToken acc =>
                   LooserValue.bestTokenScore qToken productTokens
                   * Looser.tokenWeight qToken + acc)
                0 queryTokens
   + LooserValue.anchorBonus (LooserValue.synonymsOf (hd [] queryTokens)) productTokens
   - accessoryPenaltyOf U product query)%Q.

(** The synonym set of a term in a thesaurus: the entry whose key is the
    term, or the term alone. *)
Definition thesaurusSynonyms (table : list (jsstring * list jsstring)) (t : jsstring)
    : list jsstring :=
  default [t] (lookupKey table t).

(** ** The scoring contract in the words of the specification

    The weighted accumulation as the specification describes it, with the
    constants of the looser policy.  Nothing here is taken from the
    scorer's code but the three vocabulary tables. *)

Module Contract.
Local Open Scope Q_scope.

Definition synonyms (t : jsstring) : list jsstring :=
  thesaurusSynonyms Looser.medicalThesaurus t.

Inductive WeightClass := StopWord | CategoryTerm | NumericToken | SpecificName.

Definition weightClass (t : jsstring) : WeightClass :=
  if arrayIncludes Looser.STOP_WORDS t then StopWord
  else if arrayIncludes Looser.CATEGORY_TERMS t then CategoryTerm
  else if isNumeric t then NumericToken
  else SpecificName.

(** Minimal, moderate-high, medium and highest weight. *)
Definition weight (c : WeightClass) : Q :=
  match c with
  | StopWord => 50
  | CategoryTerm => 2500
  | NumericToken => 500
  | SpecificName => 4500
  end.

Definition higherWeight (c : WeightClass) : bool :=
  match c with
  | CategoryTerm | SpecificName => true
  | StopWord | NumericToken => false
  end.

Definition nonStop (c : WeightClass) : bool :=
  match c with
  | StopWord => false
  | _ => true
  end.

Definition minimumLength : nat := 3.

(** The distance allowed: stricter for short tokens, looser for long
    ones. *)
Definition threshold (t : jsstring) : nat := if (6 <? length t)%nat then 2%nat else 1%nat.

(** The three ways a title token can match a query token, each with its
    quality; a way that does not apply gives 0. *)
Definition exactOrSynonym (qToken pToken : jsstring) : Q :=
  if streq qToken pToken || arrayIncludes (synonyms qToken) pToken then 1 else 0.

Definition prefixMatch (qToken pToken : jsstring) : Q :=
  if higherWeight (weightClass qToken) && (minimumLength <? length qToken)%nat
     && startsWith pToken qToken
  then 0.9 else 0.

Definition withinDistance (qToken pToken : jsstring) : Q :=
  let distance := editDistance qToken pToken in
  if nonStop (weightClass qToken) && (minimumLength <? length qToken)%nat
     && (distance <=? threshold qToken)%nat
  then 1 - inject_Z (Z.of_nat distance) * 0.2 else 0.

(** The local match quality of a title token, and the best one over the
    title tokens. *)
Definition localQuality (qToken pToken : jsstring) : Q :=
  Qmax (exactOrSynonym qToken pToken)
       (Qmax (prefixMatch qToken pToken) (withinDistance qToken pToken)).

Definition quality (qToken : jsstring) (productTokens : list jsstring) : Q :=
  fold_right (fun pToken best => Qmax (localQuality qToken pToken) best) 0 productTokens.

(** A token the completeness gate looks at: not a stop word, not a short
    numeric token. *)
Definition significant (t : jsstring) : bool :=
  negb (arrayIncludes Looser.STOP_WORDS t)
  && negb ((length t <? minimumLength)%nat && isNumeric t).

Definition completenessGate (normalizedTitle : jsstring) (queryTokens : list jsstring) : bool :=
  forallb (fun t => negb (significant t)
                    || existsb (fun syn => includes normalizedTitle syn) (synonyms t))
          queryTokens.

(** The anchor bias: a synonym of the anchor is the first title token, or
    a later one, or none. *)
Definition anchorBias (anchorToken : jsstring) (productTokens : list jsstring) : Q :=
  match productTokens with
  | first :: others =>
      if arrayIncludes (synonyms anchorToken) first then 2000
      else if existsb (fun p => arrayIncludes (synonyms anchorToken) p) others then 1000
      else 0
  | [] => 0
  end.

Definition accessoryWords : list jsstring := [lit "cabo"; lit "suporte"].

(** The accessory penalty: the title has an accessory word and the anchor
    does not ask for an accessory. *)
Definition accessoryPenalty (anchorToken : jsstring) (productTokens : list jsstring) : Q :=
  if existsb (fun w => arrayIncludes productTokens w) accessoryWords
     && negb (existsb (fun w => arrayIncludes (synonyms anchorToken) w) accessoryWords)
  then 3000 else 0.

End Contract.

(** The weighted accumulation of the specification for a query with at
    least one token: the completeness bonus, quality times weight over the
    query tokens, the anchor bias, less the accessory penalty. *)
Definition weightedAccumulation (U : Unicode) (product : MappedProduct) (query : jsstring) : Q :=
  let normalizedTitle := normalizeText U (title product) in
  let productTokens := splitOn 32%N normalizedTitle in
  let queryTokens :=
    List.filter (fun t => negb (streq t [])) (splitOn 32%N (normalizeText U query)) in
  ((if Contract.completenessGate normalizedTitle queryTokens then 6000 else 0)
   + fold_right (fun qToken total =>
                   Contract.quality qToken productTokens
                   * Contract.weight (Contract.weightClass qToken) + total)
                0 queryTokens
   + Contract.anchorBias (hd [] queryTokens) productTokens
   - Contract.accessoryPenalty (hd [] queryTokens) productTokens)%Q.

(** The anchor of the query matches no title token, in the words of the
    claim: no synonym of the anchor equals a title token. *)
Definition anchorMatchesNoTitleToken (anchorSynonyms productWords : list jsstring) : Prop :=
  forall syn word, In syn anchorSynonyms -> In word productWords -> syn <> word.

(** The anchor test of the stricter policy fails: no synonym of the anchor
    equals a title token, and none begins the first title token. *)
Definition anchorUnmatched (anchorSynonyms productWords : list jsstring) : Prop :=
  anchorMatchesNoTitleToken anchorSynonyms productWords
  /\ (forall syn first rest, In syn anchorSynonyms -> productWords = first :: rest ->
        startsWith first syn = false).

(** The accumulation of the stricter policy with the rejection left out:
    the completeness bonus, the anchor bonus, the accessory check and the
    per-token matches. *)
Definition stricterAccumulation (U : Unicode) (product : MappedProduct) (query : jsstring) : Z :=
  let queryTokens := Stricter.queryTokensOf U query in
  let productTitle := normalizeText U (title product) in
  let productWords := splitOn 32%N productTitle in
  let anchorSynonyms := StricterValue.synonymsOf (hd [] queryTokens) in
  let containsAllTokens :=
    forallb (fun token => existsb (fun syn => includes productTitle syn)
                                   (StricterValue.synonymsOf token))
            queryTokens in
  StricterValue.accumulate queryTokens anchorSynonyms productWords
    ((if containsAllTokens then 5000 else 0)
     + (if StricterValue.productStartsWithAnchor anchorSynonyms productWords then 5000
        else if StricterValue.productContainsAnchor anchorSynonyms productWords then 1000
        else 0))%Z.

(** A catalog entry for the examples. *)
Definition sampleProduct (productId productTitle : string) (unitPrice : Q) : MappedProduct :=
  {| id := lit productId; title := lit productTitle; code := lit "REF-0";
     price := Some unitPrice; image := []; category := lit "Geral"; description := [];
     brand := lit "Marca"; supplier := lit "S1"; matchScore := None |}.

(** Every record of the quotation state holds exactly one entry. *)
Definition singleSelect (quotationState : QuotationMap) : Prop :=
  forall idx record, quotationState !! idx = Some record ->
    exists productId qty, record = [(productId, qty)].

(** The pieces of a text cut at every separator character, one cut per
    character. *)
Fixpoint splitAtEach (isSep : jschar -> bool) (s : jsstring) : list jsstring :=
  match s with
  | [] => [[]]
  | c :: r =>
      if isSep c then [] :: splitAtEach isSep r
      else match splitAtEach isSep r with
           | w :: ws => (c :: w) :: ws
           | [] => [[c]]
           end
  end.

(** The fallback of the extractor in the words of the specification: the
    raw text is split on line breaks and commas, and each non-empty
    trimmed piece becomes a query term with quantity 1. *)
Definition fallbackTerms (text : jsstring) : list ExtractedItem :=
  map (fun piece => {| name := piece; quantity := 1 |})
    (List.filter (fun piece => (0 <? length piece)%nat)
       (map trim (splitAtEach isLineBreakOrComma text))).

(** ** Further code of the repository *)

(** [arr.join(sep)] *)
Fixpoint joinWith (sep : jsstring) (arr : list jsstring) : jsstring :=
  match arr with
  | [] => []
  | x :: r =>
      match r with
      | [] => x
      | _ :: _ => x ++ sep ++ joinWith sep r
      end
  end.

(** Every occurrence of [sep] is followed by a character other than
    [sep]. *)
Fixpoint wellSeparated (sep : jschar) (s : jsstring) : Prop :=
  match s with
  | [] => True
  | c :: r =>
      (c = sep -> match r with
                  | d :: _ => d <> sep
                  | [] => False
                  end)
      /\ wellSeparated sep r
  end.

(** The score of the stricter policy as the number [handleSearch] of that
    revision sorts by. *)
Definition stricterScore (U : Unicode) (product : MappedProduct) (query : jsstring)
    : Outcome Q :=
  let! score := Stricter.calculateMatchScore U product query in Returns (inject_Z score).

(** The match qualities the looser policy can assign to a token. *)
Definition isQuality (q : Q) : Prop :=
  (q == 0 \/ q == 0.6 \/ q == 0.8 \/ q == 0.9 \/ q == 1)%Q.

(** The counters of the toast, as the loop [results.forEach] at the end of
    [handleSearch] advances them. *)
Record ToastStats := {
  exact : nat;
  similar : nat;
  notFound : nat
}.

Definition countLine (U : Unicode) (stats : ToastStats) (res : BulkSearchResult) : ToastStats :=
  match products res with
  | [] => {| exact := exact stats; similar := similar stats; notFound := S (notFound stats) |}
  | p :: _ =>
      if streq (normalizeText U (term res)) (normalizeText U (title p))
      then {| exact := S (exact stats); similar := similar stats; notFound := notFound stats |}
      else {| exact := exact stats; similar := S (similar stats); notFound := notFound stats |}
  end.

Definition toastStats (U : Unicode) (results : list BulkSearchResult) : ToastStats :=
  fold_left (countLine U) results {| exact := 0; similar := 0; notFound := 0 |}.

(** [isSelected] of [ProductTable]: [selectedItems[product.id] !== undefined],
    where [selectedItems] is [quotationState[idx] || {}].  The read finds
    the quantity stored under the id or, when the record has no such key,
    what [Object.prototype] holds under that name, which is never
    [undefined]. *)
Definition isSelected (quotationState : QuotationMap) (idx : nat) (product : MappedProduct)
    : bool :=
  match lookupKey (default [] (quotationState !! idx)) (id product) with
  | Some _ => true
  | None => arrayIncludes objectPrototypeKeys (id product)
  end.

(** The click on a table row: [if (hasMatches) setExpandedRows(prev =>
    prev.includes(idx) ? prev.filter(i => i !== idx) : [...prev, idx])]. *)
Definition onRowClick (hasMatches : bool) (idx : nat) (prev : list nat) : list nat :=
  if hasMatches then
    if existsb (Nat.eqb idx) prev
    then List.filter (fun i => negb (Nat.eqb i idx)) prev
    else prev ++ [idx]
  else prev.

(** What a line adds to the total right after a search: the price of its
    top candidate times the requested quantity, nothing without a
    candidate. *)
Definition lineDefaultTotal (calculateMatchScore : MappedProduct -> jsstring -> Q)
    (allProducts : list MappedProduct) (item : ExtractedItem) : Q :=
  match rank calculateMatchScore allProducts (name item) with
  | top :: _ => times (default 0%Q (price top)) (numberOf (quantity item))
  | [] => 0%Q
  end.

(** The sum of a list of doubles, added from the left in double
    precision, starting from 0. *)
Definition sumNumbers (l : list Q) : Q := fold_left plus l 0%Q.

(** The finite doubles. *)
Definition isDouble (y : Q) : Prop :=
  exists k j : Z, (Z.abs k < 2 ^ 53)%Z /\ (-1074 <= j)%Z /\ (y == inject_Z k * 2 ^ j)%Q.

(** What a line adds to the total right after a search when a supplier is
    chosen in the filter. *)
Definition lineSupplierTotal (calculateMatchScore : MappedProduct -> jsstring -> Q)
    (allProducts : list MappedProduct) (selectedSupplierFilter : jsstring)
    (item : ExtractedItem) : Q :=
  match rank calculateMatchScore allProducts (name item) with
  | top :: _ =>
      if streq (supplier top) selectedSupplierFilter
      then times (default 0%Q (price top)) (numberOf (quantity item))
      else 0%Q
  | [] => 0%Q
  end.

(** A sample product offered by another supplier. *)
Definition fromSupplier (supplierName : string) (p : MappedProduct) : MappedProduct :=
  {| id := id p; title := title p; code := code p; price := price p; image := image p;
     category := category p; description := description p; brand := brand p;
     supplier := lit supplierName; matchScore := matchScore p |}.

(** ** Search intent ([analyzeSearchIntent], [src/services/geminiService.ts]) *)

Module Intent.

Record SearchIntent := {
  keywords : list jsstring;
  minPrice : option Q;
  maxPrice : option Q;
  category : option jsstring;
  sentiment : option jsstring
}.

(** [{ keywords: query.split(' ') }] *)
Definition keywordsOnly (query : jsstring) : SearchIntent :=
  {| keywords := splitOn 32 query; minPrice := None; maxPrice := None;
     category := None; sentiment := None |}.

Section Analyze.
(** [JSON.parse] read as a search intent; [None] when it throws. *)
Context (JSON_parse : jsstring -> option SearchIntent).

Definition analyzeSearchIntent (call : GenerateContent) (query : jsstring) : SearchIntent :=
  match call with
  | Responds (Some responseText) =>
      if truthy responseText then
        match JSON_parse responseText with
        | Some intent => intent
        | None => keywordsOnly query
        end
      else keywordsOnly query
  | Responds None => keywordsOnly query
  | Throws => keywordsOnly query
  end.
End Analyze.

End Intent.

(** ** Catalog loader ([parseCSVLine], [fetchAndParseProducts]) *)

(** The loop of [parseCSVLine] from position [i] on: [line] is what is
    left of the line from [i], a doubled quote inside quotes advances by
    two. *)
Fixpoint parseCSVLoop (line : jsstring) (current : jsstring) (inQuotes : bool)
    (result : list jsstring) : list jsstring :=
  match line with
  | [] => result ++ [trim current]
  | char :: rest =>
      if (char =? 34)%N then
        match rest with
        | next :: rest' =>
            if inQuotes && (next =? 34)%N
            then parseCSVLoop rest' (current ++ [34%N]) inQuotes result
            else parseCSVLoop rest current (negb inQuotes) result
        | [] => parseCSVLoop rest current (negb inQuotes) result
        end
      else if (char =? 44)%N && negb inQuotes
      then parseCSVLoop rest [] inQuotes (result ++ [trim current])
      else parseCSVLoop rest (current ++ [char]) inQuotes result
  end.

Definition parseCSVLine (line : jsstring) : list jsstring := parseCSVLoop line [] false [].

(** [a || b] on strings. *)
Definition orElse (a b : jsstring) : jsstring := if truthy a then a else b.

(** A non-negative integer in a template literal. *)
Definition decimal (n : N) : jsstring := lit (NilEmpty.string_of_uint (N.to_uint n)).

(** The quoting of the requested term in [handleExportCSV]: every quote
    character of the term is doubled, and the result is put between
    quotes. *)
Definition doubleQuotes (s : jsstring) : jsstring :=
  flat_map (fun c => if (c =? 34)%N then [34%N; 34%N] else [c]) s.

Definition csvQuote (s : jsstring) : jsstring := [34%N] ++ doubleQuotes s ++ [34%N].

(** What [fetch] and [response.text()] can do: reject, or answer with a
    status and a body. *)
Inductive FetchResult :=
  | FetchThrows
  | FetchResponds (ok : bool) (text : option jsstring).

(** [headers.forEach((header, i) => { rawObj[header] = values[i] || empty })] *)
Fixpoint fillRaw (headers : list jsstring) (i : nat) (values : list jsstring)
    (rawObj : gmap jsstring jsstring) : gmap jsstring jsstring :=
  match headers with
  | [] => rawObj
  | header :: rest =>
      fillRaw rest (S i) values (<[header := default [] (values !! i)]> rawObj)
  end.

(** [findField] *)
Definition findField (headers : list jsstring) (rawObj : gmap jsstring jsstring)
    (keywords : list jsstring) : jsstring :=
  let exactKey := List.find (fun h => existsb (fun k => streq h k) keywords) headers in
  let containsKey := List.find (fun h => existsb (fun k => includes h k) keywords) headers in
  let key :=
    match exactKey with
    | Some k => if truthy k then exactKey else containsKey
    | None => containsKey
    end in
  match key with
  | Some k => if truthy k then default [] (rawObj !! k) else []
  | None => []
  end.

Definition a_tilde : jsstring := [227%N].
Definition o_acute : jsstring := [243%N].
Definition e_circumflex : jsstring := [234%N].

Definition titleKeywords : list jsstring :=
  [lit "nome"; lit "name"; lit "produto"; lit "title"; lit "item"; lit "descricao";
   lit "descri" ++ Looser.c_cedilla ++ a_tilde ++ lit "o"].
Definition codeKeywords : list jsstring :=
  [lit "codigo"; lit "c" ++ o_acute ++ lit "digo"; lit "code"; lit "id"; lit "ref";
   lit "referencia"; lit "refer" ++ e_circumflex ++ lit "ncia"].
Definition priceKeywords : list jsstring :=
  [lit "preco"; lit "pre" ++ Looser.c_cedilla ++ lit "o"; lit "price"; lit "valor";
   lit "cost"; lit "unitario"; lit "venda";
   lit "pre" ++ Looser.c_cedilla ++ lit "o venda"].
Definition brandKeywords : list jsstring :=
  [lit "marca"; lit "brand"; lit "fabricante"; lit "lab"; lit "laboratorio"; lit "mrc"].
Definition supplierKeywords : list jsstring :=
  [lit "fornecedor"; lit "supplier"; lit "distribuidor"; lit "vendedor"; lit "empresa";
   lit "origem"; lit "loja"].
Definition categoryKeywords : list jsstring := [lit "categoria"; lit "tipo"; lit "grupo"].
Definition descriptionKeywords : list jsstring := [lit "detalhes"; lit "descricao"; lit "obs"].

(** [priceStr.replace(/[^0-9.,]/g, empty).replace(',', '.')]: the second
    call replaces the first comma only. *)
Definition keepPriceChars (s : jsstring) : jsstring :=
  List.filter (fun c => isDigit c || (c =? 46)%N || (c =? 44)%N) s.

Fixpoint replaceFirstComma (s : jsstring) : jsstring :=
  match s with
  | [] => []
  | c :: r => if (c =? 44)%N then 46%N :: r else c :: replaceFirstComma r
  end.

Section Loader.
Context (U : Unicode).
(** [parseFloat], [None] for [NaN]; [Date.now()] at the time the row of
    the given index is built. *)
Context (parseFloat : jsstring -> option Q).
Context (Date_now : nat -> N).

(** The body of [lines.slice(1).map((line, index) => ...)] *)
Definition mapRow (headers : list jsstring) (index : nat) (line : jsstring) : MappedProduct :=
  let values := parseCSVLine line in
  let rawObj := fillRaw headers 0 values ∅ in
  let title :=
    orElse (orElse (findField headers rawObj titleKeywords) (default [] (values !! 0%nat)))
           (lit "Produto sem nome") in
  let code :=
    orElse (findField headers rawObj codeKeywords) (lit "REF-" ++ decimal (N.of_nat index)) in
  let priceStr := orElse (findField headers rawObj priceKeywords) (lit "0") in
  let brand :=
    orElse (findField headers rawObj brandKeywords)
           (lit "Marca n" ++ a_tilde ++ lit "o informada") in
  let supplier :=
    orElse (findField headers rawObj supplierKeywords) (lit "Fornecedor Direto") in
  let priceClean := parseFloat (replaceFirstComma (keepPriceChars priceStr)) in
  {| id := lit "prod-" ++ decimal (N.of_nat index) ++ lit "-" ++ decimal (Date_now index);
     title := trim title;
     code := trim code;
     price := Some (default 0%Q priceClean);
     image := lit "https://picsum.photos/400/300?random=" ++ decimal (N.of_nat index);
     category := orElse (findField headers rawObj categoryKeywords) (lit "Geral");
     description := orElse (findField headers rawObj descriptionKeywords) [];
     brand := trim brand;
     supplier := trim supplier;
     matchScore := None |}.

(** [fetchAndParseProducts] from the body of the response on. *)
Definition parseProducts (text : jsstring) : list MappedProduct :=
  let lines := List.filter (fun line => negb (streq (trim line) [])) (splitOn 10 text) in
  if (length lines <? 2)%nat then []
  else
    match lines with
    | headerLine :: dataLines =>
        let headers := map (fun h => trim (toLowerCase U h)) (parseCSVLine headerLine) in
        imap (mapRow headers) dataLines
    | [] => []
    end.

Definition fetchAndParseProducts (response : FetchResult) : list MappedProduct :=
  match response with
  | FetchThrows => []
  | FetchResponds ok text =>
      if negb ok then []
      else match text with
           | None => []
           | Some body =>
               if startsWith (trim body) (lit "<!DOCTYPE html>") then []
               else parseProducts body
           end
  end.
End Loader.

(** A sheet, a number parser and a clock for the examples. *)
Definition sampleSheet : FetchResult :=
  FetchResponds true
    (Some (joinWith [10%N] [lit "Nome,Preco,Fornecedor"; lit "Tesoura Mayo,10,S1";
                            lit "Pinca Kelly,7,S2"])).

Definition sampleParseFloat (s : jsstring) : option Q :=
  if streq s (lit "10") then Some 10%Q else Some 7%Q.

Definition sampleClock (index : nat) : N := 17%N.

Definition sampleCatalog : list MappedProduct :=
  fetchAndParseProducts asciiRuntime sampleParseFloat sampleClock sampleSheet.

(** ** The supplier filter options ([init], [src/App.tsx]) *)

(** [a < b] on strings: code unit by code unit, a proper prefix first. *)
Fixpoint unitsLt (a b : jsstring) : bool :=
  match a, b with
  | _, [] => false
  | [], _ :: _ => true
  | x :: a', y :: b' => (x <? y)%N || ((x =? y)%N && unitsLt a' b')
  end.

(** The comparison [Array.prototype.sort] uses when it is given no
    comparator. *)
Definition defaultCompare (a b : jsstring) : Q :=
  if unitsLt a b then (-1)%Q else if unitsLt b a then 1%Q else 0%Q.

(** [Array.from(new Set(xs))]: the first occurrences, in order. *)
Definition newSet (xs : list jsstring) : list jsstring :=
  fold_left (fun seen x => if arrayIncludes seen x then seen else seen ++ [x]) xs [].

(** [Array.from(new Set(data.map(p => p.supplier))).sort()] *)
Definition suppliersOf (data : list MappedProduct) : list jsstring :=
  arraySort defaultCompare (newSet (map supplier data)).

(** [init] once the loader has answered: the state is the catalog and
    the options of the supplier filter; an empty answer changes nothing. *)
Definition init (data : list MappedProduct) (prev : list MappedProduct * list jsstring)
    : list MappedProduct * list jsstring :=
  if (0 <? length data)%nat then (data, suppliersOf data) else prev.

(** * Properties *)

(** ** Edit distance *)

(** *** Loops *)

Lemma fold_seq_invariant {S : Type} (P : nat -> S -> Prop) (body : S -> nat -> S) :
  forall n lo s,
    P lo s ->
    (forall i s', lo <= i < lo + n -> P i s' -> P (Datatypes.S i) (body s' i)) ->
    P (lo + n) (fold_left body (seq lo n) s).
Proof.
  induction n as [|n IH]; intros lo s H0 Hstep; simpl.
  - by rewrite Nat.add_0_r.
  - replace (lo + Datatypes.S n) with (Datatypes.S lo + n) by lia.
    apply IH.
    + apply Hstep; [lia | done].
    + intros i s' Hi. apply Hstep. lia.
Qed.

Lemma forLoop_invariant {S : Type} (P : nat -> S -> Prop) lo hi (body : S -> nat -> S) s :
  lo <= hi + 1 ->
  P lo s ->
  (forall i s', lo <= i <= hi -> P i s' -> P (Datatypes.S i) (body s' i)) ->
  P (hi + 1) (forLoop lo hi body s).
Proof.
  intros Hle H0 Hstep. unfold forLoop.
  replace (hi + 1) with (lo + (hi + 1 - lo)) at 1 by lia.
  apply fold_seq_invariant; [done|].
  intros i s' Hi. apply Hstep. lia.
Qed.

Lemma tableGet_lookup table i j row v :
  table !! i = Some row -> row !! j = Some v -> tableGet table i j = v.
Proof.
  intros Hi Hj. unfold tableGet.
  rewrite (nth_lookup table i []), Hi. simpl.
  by rewrite (nth_lookup row j 0), Hj.
Qed.

Lemma arraySet_push {A : Type} (arr : list A) j v :
  j = length arr -> arraySet arr j v = arr ++ [v].
Proof.
  intros ->. unfold arraySet.
  destruct (length arr <? length arr) eqn:E; [|done].
  apply Nat.ltb_lt in E. lia.
Qed.

Lemma tableSet_push table i j v row :
  table !! i = Some row -> j = length row ->
  tableSet table i j v = <[i := row ++ [v]]> table.
Proof.
  intros Hi Hj. unfold tableSet. rewrite Hi. by rewrite arraySet_push.
Qed.

Section FillTable.
Context (rows cols : nat) (cell : list (list nat) -> nat -> nat -> nat).
Context (D : nat -> nat -> nat).
Hypothesis D_row0 : forall j, j <= cols -> D 0 j = j.
Hypothesis D_col0 : forall i, i <= rows -> D i 0 = i.
Hypothesis cell_D : forall t i j,
  1 <= i <= rows -> 1 <= j <= cols ->
  tableGet t (i - 1) (j - 1) = D (i - 1) (j - 1) ->
  tableGet t (i - 1) j = D (i - 1) j ->
  tableGet t i (j - 1) = D i (j - 1) ->
  cell t i j = D i j.

Local Abbreviation rowOf := (tableRow D).
Local Abbreviation started := (tableStarted rows cols D).

Lemma rowOf_lookup i n j : j < n -> rowOf i n !! j = Some (D i j).
Proof.
  intros Hj. unfold tableRow. rewrite list_lookup_fmap.
  by rewrite lookup_seq_lt.
Qed.

Lemma rowOf_push i n : rowOf i n ++ [D i n] = rowOf i (S n).
Proof. unfold tableRow. by rewrite seq_S, map_app. Qed.

Lemma rowOf_length i n : length (rowOf i n) = n.
Proof. unfold tableRow. by rewrite length_map, length_seq. Qed.

(** After the first loop every row [i] is [[i]]. *)
Lemma first_loop :
  forLoop 0 rows (fun t i => arraySet t i [i]) [] = map (fun i => [i]) (seq 0 (rows + 1)).
Proof.
  apply (forLoop_invariant (fun k t => t = map (fun i => [i]) (seq 0 k))); [lia|done|].
  intros i t _ ->.
  rewrite arraySet_push by (by rewrite length_map, length_seq).
  by rewrite seq_S, map_app.
Qed.

Lemma second_loop :
  started 1
    (forLoop 0 cols (fun t j => tableSet t 0 j j)
       (map (fun i => [i]) (seq 0 (rows + 1)))).
Proof.
  set (P := fun (j : nat) (t : list (list nat)) =>
    length t = rows + 1 /\ t !! 0 = Some (seq 0 (Nat.max 1 j)) /\
    (forall k, 1 <= k <= rows -> t !! k = Some [k])).
  assert (HP : P (cols + 1)
    (forLoop 0 cols (fun t j => tableSet t 0 j j) (map (fun i => [i]) (seq 0 (rows + 1))))).
  { apply forLoop_invariant; [lia | |].
    - repeat split.
      + by rewrite length_map, length_seq.
      + rewrite list_lookup_fmap, lookup_seq_lt by lia. done.
      + intros k Hk. rewrite list_lookup_fmap, lookup_seq_lt by lia. done.
    - intros j t _ (Hlen & H0 & Hrest).
      destruct j as [|j].
      + unfold tableSet. rewrite H0. simpl.
        replace (arraySet [0] 0 0) with [0] by done.
        repeat split.
        * by rewrite length_insert.
        * rewrite list_lookup_insert_eq by lia. done.
        * intros k Hk. rewrite list_lookup_insert_ne by lia. by apply Hrest.
      + rewrite (tableSet_push _ _ _ _ _ H0) by (rewrite length_seq; lia).
        repeat split.
        * by rewrite length_insert.
        * rewrite list_lookup_insert_eq by lia.
          replace (Nat.max 1 (S j)) with (S j) by lia.
          replace (Nat.max 1 (S (S j))) with (S (S j)) by lia.
          by rewrite (seq_S (S j) 0).
        * intros k Hk. rewrite list_lookup_insert_ne by lia. by apply Hrest. }
  destruct HP as (Hlen & H0 & Hrest).
  repeat split; [done | | done].
  intros k Hk. assert (k = 0) as -> by lia.
  rewrite H0. f_equal. replace (Nat.max 1 (cols + 1)) with (cols + 1) by lia.
  unfold tableRow. rewrite <- (map_id (seq 0 (cols + 1))) at 1.
  apply map_ext_in. intros j Hj. apply in_seq in Hj. rewrite D_row0; [done | lia].
Qed.

Lemma inner_loop i t :
  1 <= i <= rows -> started i t ->
  started (S i) (forLoop 1 cols (fun t j => tableSet t i j (cell t i j)) t).
Proof.
  intros Hi (Hlen & Hdone & Htodo).
  set (P := fun (j : nat) (t : list (list nat)) =>
    length t = rows + 1 /\
    (forall k, k < i -> t !! k = Some (rowOf k (cols + 1))) /\
    t !! i = Some (rowOf i j) /\
    (forall k, i < k <= rows -> t !! k = Some [k])).
  assert (HP : P (cols + 1) (forLoop 1 cols (fun t j => tableSet t i j (cell t i j)) t)).
  { apply forLoop_invariant; [lia | |].
    - repeat split; [done | done | | ].
      + rewrite Htodo by lia. unfold tableRow. simpl. rewrite D_col0; [done | lia].
      + intros k Hk. apply Htodo. lia.
    - intros j t' Hj (Hlen' & Hdone' & Hrow & Htodo').
      assert (Hcell : cell t' i j = D i j).
      { apply cell_D; [lia | lia | | |].
        - eapply tableGet_lookup; [apply Hdone'; lia | apply rowOf_lookup; lia].
        - eapply tableGet_lookup; [apply Hdone'; lia | apply rowOf_lookup; lia].
        - eapply tableGet_lookup; [apply Hrow | apply rowOf_lookup; lia]. }
      rewrite Hcell.
      rewrite (tableSet_push _ _ _ _ _ Hrow) by (by rewrite rowOf_length).
      repeat split.
      + by rewrite length_insert.
      + intros k Hk. rewrite list_lookup_insert_ne by lia. by apply Hdone'.
      + rewrite list_lookup_insert_eq by lia. by rewrite rowOf_push.
      + intros k Hk. rewrite list_lookup_insert_ne by lia. by apply Htodo'. }
  destruct HP as (Hlen' & Hdone' & Hrow & Htodo').
  repeat split; [done | | ].
  - intros k Hk. destruct (decide (k = i)) as [->|Hne]; [done|]. apply Hdone'. lia.
  - intros k Hk. apply Htodo'. lia.
Qed.

Lemma fillTable_started : started (rows + 1) (fillTable rows cols cell).
Proof.
  unfold fillTable. rewrite first_loop.
  apply (forLoop_invariant started); [lia | apply second_loop |].
  intros i t Hi Ht. by apply inner_loop.
Qed.

(** The last cell of the filled table. *)
Lemma fillTable_last : tableGet (fillTable rows cols cell) rows cols = D rows cols.
Proof.
  destruct fillTable_started as (_ & Hdone & _).
  eapply tableGet_lookup; [apply Hdone; lia | apply rowOf_lookup; lia].
Qed.
End FillTable.

(** *** The recurrence *)

Lemma editDistance_nil_r a : editDistance a [] = length a.
Proof. by destruct a. Qed.

Lemma editDistance_cons x a y b :
  editDistance (x :: a) (y :: b) =
  min3 (editDistance a (y :: b) + 1) (editDistance (x :: a) b + 1)
       (editDistance a b + (if (x =? y)%N then 0 else 1)).
Proof. done. Qed.

Lemma editDistance_sym a b : editDistance a b = editDistance b a.
Proof.
  revert b. induction a as [|x a IHa]; intros b.
  - by rewrite editDistance_nil_r.
  - induction b as [|y b IHb].
    + by rewrite editDistance_nil_r.
    + rewrite !editDistance_cons, IHb, <- (IHa (y :: b)), <- (IHa b), (N.eqb_sym y x).
      unfold min3. lia.
Qed.

Lemma editDistance_refl a : editDistance a a = 0.
Proof.
  induction a as [|x a IH]; [done|].
  rewrite editDistance_cons, IH, N.eqb_refl. unfold min3. lia.
Qed.

Lemma editDistance_grow_r a y b : editDistance a (y :: b) <= editDistance a b + 1.
Proof.
  destruct a as [|x a]; [simpl; lia|].
  rewrite editDistance_cons. unfold min3. lia.
Qed.

Lemma editDistance_shrink_l x a b : editDistance a b <= editDistance (x :: a) b + 1.
Proof.
  revert x a. induction b as [|y b IH]; intros x a.
  - rewrite !editDistance_nil_r. simpl. lia.
  - rewrite editDistance_cons.
    pose proof (editDistance_grow_r a y b).
    pose proof (IH x a).
    unfold min3. destruct (x =? y)%N; lia.
Qed.

Lemma editDistance_shrink_r a y b : editDistance a b <= editDistance a (y :: b) + 1.
Proof.
  rewrite (editDistance_sym a b), (editDistance_sym a (y :: b)).
  apply editDistance_shrink_l.
Qed.

(** Equal heads cost nothing: the diagonal alone decides. *)
Lemma editDistance_same_head x a b : editDistance (x :: a) (x :: b) = editDistance a b.
Proof.
  rewrite editDistance_cons, N.eqb_refl.
  pose proof (editDistance_shrink_l x a b).
  pose proof (editDistance_shrink_r a x b).
  pose proof (editDistance_grow_r (x :: a) x b).
  unfold min3. lia.
Qed.

Lemma rev_take_S (s : jsstring) i c :
  s !! i = Some c -> rev (take (S i) s) = c :: rev (take i s).
Proof.
  intros H. rewrite (take_S_r _ _ _ H), rev_app_distr. done.
Qed.

Lemma prefixDistance_0_l a b j : j <= length b -> prefixDistance a b 0 j = j.
Proof.
  intros Hj. unfold prefixDistance. rewrite take_0. simpl.
  rewrite length_rev, length_take. lia.
Qed.

Lemma prefixDistance_0_r a b i : i <= length a -> prefixDistance a b i 0 = i.
Proof.
  intros Hi. unfold prefixDistance. rewrite take_0, editDistance_nil_r.
  rewrite length_rev, length_take. lia.
Qed.

Lemma prefixDistance_full a b :
  prefixDistance a b (length a) (length b) = editDistance (rev a) (rev b).
Proof. unfold prefixDistance. by rewrite !firstn_all. Qed.

Lemma prefixDistance_step a b i j x y :
  a !! i = Some x -> b !! j = Some y ->
  prefixDistance a b (S i) (S j) =
  min3 (prefixDistance a b i (S j) + 1) (prefixDistance a b (S i) j + 1)
       (prefixDistance a b i j + (if (x =? y)%N then 0 else 1)).
Proof.
  intros Hx Hy. unfold prefixDistance.
  rewrite (rev_take_S _ _ _ Hx), (rev_take_S _ _ _ Hy).
  apply editDistance_cons.
Qed.

Lemma prefixDistance_step_same a b i j x :
  a !! i = Some x -> b !! j = Some x ->
  prefixDistance a b (S i) (S j) = prefixDistance a b i j.
Proof.
  intros Hx Hy. unfold prefixDistance.
  rewrite (rev_take_S _ _ _ Hx), (rev_take_S _ _ _ Hy).
  apply editDistance_same_head.
Qed.

Lemma streq_refl a : streq a a = true.
Proof. induction a as [|x a IH]; [done|]. simpl. by rewrite N.eqb_refl. Qed.

Lemma streq_eq a b : streq a b = true <-> a = b.
Proof.
  split; [|intros ->; apply streq_refl].
  revert b. induction a as [|x a IH]; intros [|y b]; simpl; try done.
  intros H. apply andb_true_iff in H as [Hxy Hab].
  apply N.eqb_eq in Hxy. by rewrite Hxy, (IH b Hab).
Qed.

(** *** The two tables compute the recurrence *)

Lemma looser_levenshtein_spec a b :
  Looser.levenshtein a b = editDistance (rev b) (rev a).
Proof.
  unfold Looser.levenshtein.
  destruct (length a =? 0) eqn:Ea.
  { apply Nat.eqb_eq in Ea. destruct a; [|done]. simpl.
    by rewrite editDistance_nil_r, length_rev. }
  destruct (length b =? 0) eqn:Eb.
  { apply Nat.eqb_eq in Eb. destruct b; [|done]. simpl. by rewrite length_rev. }
  rewrite <- prefixDistance_full.
  apply fillTable_last.
  - intros j Hj. by apply prefixDistance_0_l.
  - intros i Hi. by apply prefixDistance_0_r.
  - intros t [|i] [|j] Hi Hj; [lia | lia | lia |]. cbv beta.
    replace (S i - 1) with i by lia. replace (S j - 1) with j by lia.
    intros Hdiag Hup Hleft.
    destruct (lookup_lt_is_Some_2 b i ltac:(lia)) as [x Hx].
    destruct (lookup_lt_is_Some_2 a j ltac:(lia)) as [y Hy].
    unfold charAt. rewrite Hx, Hy, Hdiag, Hup, Hleft.
    simpl streq. rewrite andb_true_r.
    destruct (x =? y)%N eqn:Exy.
    + apply N.eqb_eq in Exy. subst y.
      symmetry. apply (prefixDistance_step_same _ _ _ _ _ Hx Hy).
    + rewrite (prefixDistance_step _ _ _ _ _ _ Hx Hy), Exy.
      unfold min3. lia.
Qed.

Lemma stricter_levenshtein_spec a b :
  Stricter.levenshtein a b = editDistance (rev a) (rev b).
Proof.
  unfold Stricter.levenshtein.
  rewrite <- prefixDistance_full.
  apply fillTable_last.
  - intros j Hj. by apply prefixDistance_0_l.
  - intros i Hi. by apply prefixDistance_0_r.
  - intros t [|i] [|j] Hi Hj; [lia | lia | lia |]. cbv beta.
    replace (S i - 1) with i by lia. replace (S j - 1) with j by lia.
    intros Hdiag Hup Hleft.
    destruct (lookup_lt_is_Some_2 a i ltac:(lia)) as [x Hx].
    destruct (lookup_lt_is_Some_2 b j ltac:(lia)) as [y Hy].
    rewrite Hx, Hy, Hdiag, Hup, Hleft. simpl sameUnit.
    rewrite (prefixDistance_step _ _ _ _ _ _ Hx Hy).
    destruct (x =? y)%N; unfold min3; lia.
Qed.

(** C9.  For all strings [a] and [b], the edit distance of [a] to itself is
    0 and the distance is symmetric; this holds for the implementation of
    either revision. *)
Theorem levenshtein_zero_and_symmetric (a b : jsstring) :
  Looser.levenshtein a a = 0
  /\ Looser.levenshtein a b = Looser.levenshtein b a
  /\ Stricter.levenshtein a a = 0
  /\ Stricter.levenshtein a b = Stricter.levenshtein b a.
Proof.
  rewrite !looser_levenshtein_spec, !stricter_levenshtein_spec, !editDistance_refl.
  repeat split; apply editDistance_sym.
Qed.

(** ** Text normalizer *)

Lemma plainChar_cases c :
  plainChar c = true -> isAlnum c = true \/ c = 32%N.
Proof.
  unfold plainChar. intros H. apply orb_true_iff in H as [H|H]; [by left|].
  right. by apply N.eqb_eq.
Qed.

Lemma plainChar_not_mark c : plainChar c = true -> inRange 0x300 0x36F c = false.
Proof.
  intros H. apply plainChar_cases in H as [H| ->]; [|done].
  unfold isAlnum, isLowerLetter, isDigit, inRange in *.
  apply orb_true_iff in H as [H|H]; apply andb_true_iff in H as [_ H];
    apply N.leb_le in H; apply andb_false_iff; left; apply N.leb_gt; lia.
Qed.

Lemma blankNonAlnum_plain s : forallb plainChar (blankNonAlnum s) = true.
Proof.
  induction s as [|c s IH]; [done|]. simpl. rewrite IH, andb_true_r.
  unfold plainChar. destruct (isAlnum c) eqn:E; [by rewrite E | done].
Qed.

Lemma collapse_cons_clean c r :
  isWhiteSpace c = false -> collapseWhiteSpace (c :: r) = c :: collapseWhiteSpace r.
Proof. intros H. simpl. by rewrite H. Qed.

Lemma collapse_plain s :
  forallb plainChar s = true -> forallb plainChar (collapseWhiteSpace s) = true.
Proof.
  induction s as [|c s IH]; [done|]. intros H.
  apply andb_true_iff in H as [Hc Hs]. specialize (IH Hs).
  simpl. destruct (isWhiteSpace c).
  - destruct s as [|d s]; [done|].
    destruct (isWhiteSpace d); [done|]. simpl in *. by rewrite IH.
  - simpl. by rewrite Hc, IH.
Qed.

Lemma collapse_spaced s : spaced (collapseWhiteSpace s).
Proof.
  induction s as [|c s IH]; [done|].
  simpl. destruct (isWhiteSpace c) eqn:Ec.
  - destruct s as [|d s]; [simpl; tauto|].
    destruct (isWhiteSpace d) eqn:Ed; [done|].
    rewrite (collapse_cons_clean d s Ed) in *.
    split; [|done]. intros _. by split.
  - split; [|done]. intros H. simpl in H. congruence.
Qed.

Lemma spaced_fixed s : spaced s -> collapseWhiteSpace s = s.
Proof.
  induction s as [|c s IH]; [done|]. intros [Hc Hs]. specialize (IH Hs).
  simpl. destruct (isWhiteSpace c) eqn:Ec.
  - destruct (Hc eq_refl) as [-> Hnext].
    destruct s as [|d s]; [done|]. rewrite Hnext. by rewrite IH.
  - by rewrite IH.
Qed.

Lemma trimStart_plain s : forallb plainChar s = true -> forallb plainChar (trimStart s) = true.
Proof.
  induction s as [|c s IH]; [done|]. intros H. simpl.
  destruct (isWhiteSpace c); [|done].
  apply andb_true_iff in H as [_ H]. by apply IH.
Qed.

Lemma trimStart_spaced s : spaced s -> spaced (trimStart s).
Proof.
  induction s as [|c s IH]; [done|]. intros H. simpl.
  destruct (isWhiteSpace c); [|done]. apply IH, H.
Qed.

Lemma trimStart_clean s : startsClean (trimStart s).
Proof.
  induction s as [|c s IH]; [done|]. simpl.
  destruct (isWhiteSpace c) eqn:E; [done|]. simpl. done.
Qed.

Lemma startsClean_fixed s : startsClean s -> trimStart s = s.
Proof. destruct s as [|c s]; [done|]. simpl. by intros ->. Qed.

(** [trimEnd] keeps the first character of whatever it keeps. *)
Lemma trimEnd_head s d r : trimEnd s = d :: r -> exists r', s = d :: r'.
Proof.
  destruct s as [|c s]; [done|]. simpl.
  destruct (trimEnd s); [destruct (isWhiteSpace c)|]; intros [= <- _]; eauto.
Qed.

Lemma trimEnd_plain s : forallb plainChar s = true -> forallb plainChar (trimEnd s) = true.
Proof.
  induction s as [|c s IH]; [done|]. intros H.
  apply andb_true_iff in H as [Hc Hs]. specialize (IH Hs). simpl.
  destruct (trimEnd s) as [|d r].
  - destruct (isWhiteSpace c); [done|]. simpl. by rewrite Hc.
  - change (forallb plainChar (c :: d :: r)) with (plainChar c && forallb plainChar (d :: r)).
    by rewrite Hc, IH.
Qed.

Lemma trimEnd_spaced s : spaced s -> spaced (trimEnd s).
Proof.
  induction s as [|c s IH]; [done|]. intros [Hc Hs]. specialize (IH Hs). simpl.
  destruct (trimEnd s) as [|d r] eqn:E.
  - destruct (isWhiteSpace c) eqn:Ec; [done|]. simpl. rewrite Ec. split; [done|done].
  - split; [|done]. intros Hw. destruct (Hc Hw) as [-> Hnext]. split; [done|].
    apply trimEnd_head in E as [r' ->]. done.
Qed.

Lemma trimEnd_clean s : startsClean s -> startsClean (trimEnd s).
Proof.
  destruct s as [|c s]; [done|]. simpl. intros Hc.
  destruct (trimEnd s); [by rewrite Hc|done].
Qed.

Lemma trimEnd_idempotent s : trimEnd (trimEnd s) = trimEnd s.
Proof.
  induction s as [|c s IH]; [done|]. simpl.
  destruct (trimEnd s) as [|d r] eqn:E.
  - destruct (isWhiteSpace c) eqn:Ec; [done|]. simpl. by rewrite Ec.
  - change (trimEnd (c :: d :: r)) with
      (match trimEnd (d :: r) with
       | [] => if isWhiteSpace c then [] else [c]
       | r' => c :: r'
       end).
    by rewrite IH.
Qed.

Lemma normalizeText_normalForm U s : normalForm (normalizeText U s).
Proof.
  unfold normalizeText, trim.
  set (t := blankNonAlnum _).
  assert (Ht : forallb plainChar t = true) by apply blankNonAlnum_plain.
  repeat split.
  - by apply trimEnd_plain, trimStart_plain, collapse_plain.
  - apply trimEnd_spaced, trimStart_spaced, collapse_spaced.
  - apply trimEnd_clean, trimStart_clean.
  - apply trimEnd_idempotent.
Qed.

Lemma normalForm_fixed U s : fixesPlain U -> normalForm s -> normalizeText U s = s.
Proof.
  intros HU (Hplain & Hspaced & Hclean & Hend).
  destruct (HU s Hplain) as [Hlow Hnfd].
  unfold normalizeText, trim. rewrite Hlow, Hnfd.
  assert (Hstrip : stripCombiningMarks s = s).
  { unfold stripCombiningMarks. clear -Hplain.
    induction s as [|c s IH]; [done|].
    simpl in *. apply andb_true_iff in Hplain as [Hc Hs].
    by rewrite (plainChar_not_mark c Hc), (IH Hs). }
  assert (Hblank : blankNonAlnum s = s).
  { unfold blankNonAlnum. clear -Hplain.
    induction s as [|c s IH]; [done|].
    simpl in *. apply andb_true_iff in Hplain as [Hc Hs]. rewrite (IH Hs).
    destruct (plainChar_cases c Hc) as [-> | ->]; done. }
  by rewrite Hstrip, Hblank, (spaced_fixed s Hspaced), (startsClean_fixed s Hclean).
Qed.

Lemma asciiRuntime_fixesPlain : fixesPlain asciiRuntime.
Proof.
  intros s Hs. split; [|done]. simpl.
  induction s as [|c s IH]; [done|].
  simpl in *. apply andb_true_iff in Hs as [Hc Hs]. rewrite (IH Hs). f_equal.
  unfold asciiLower.
  destruct (plainChar_cases c Hc) as [H | ->]; [|done].
  assert (Hr : inRange 65 90 c = false); [|by rewrite Hr].
  unfold isAlnum, isLowerLetter, isDigit, inRange in *.
  apply orb_true_iff in H as [H|H]; apply andb_true_iff in H as [H1 H2];
    apply N.leb_le in H1, H2; apply andb_false_iff.
  - right. apply N.leb_gt. lia.
  - left. apply N.leb_gt. lia.
Qed.

(** C8.  Normalization is idempotent: normalizing an already normalized
    text changes nothing, for every input string.  The runtime's
    lower-casing and NFD decomposition are only required to leave text
    over [a-z0-9 ] unchanged. *)
Theorem normalizeText_idempotent (U : Unicode) (s : jsstring) :
  fixesPlain U ->
  normalizeText U (normalizeText U s) = normalizeText U s.
Proof.
  intros HU. apply normalForm_fixed; [done|]. apply normalizeText_normalForm.
Qed.

Lemma normalizeText_idempotent_witness :
  fixesPlain asciiRuntime /\
  normalizeText asciiRuntime (normalizeText asciiRuntime (lit "  Pinca KELLY, 16cm "))
  = normalizeText asciiRuntime (lit "  Pinca KELLY, 16cm ").
Proof.
  split; [apply asciiRuntime_fixesPlain|].
  apply (normalizeText_idempotent asciiRuntime (lit "  Pinca KELLY, 16cm ")).
  apply asciiRuntime_fixesPlain.
Defined.

(** ** Tokens of a normalized text *)

Lemma splitOn_nonempty sep s : splitOn sep s <> [].
Proof.
  destruct s as [|c r]; [done|]. simpl.
  destruct (c =? sep)%N; [done|]. by destruct (splitOn sep r).
Qed.

Lemma startsWith_first_piece sep s : startsWith s (hd [] (splitOn sep s)) = true.
Proof.
  induction s as [|c r IH]; [done|]. simpl.
  destruct (c =? sep)%N; [done|].
  destruct (splitOn sep r) as [|w ws]; simpl in *.
  - by rewrite N.eqb_refl.
  - by rewrite N.eqb_refl, IH.
Qed.

(** Every piece of a split occurs in the text it was cut from. *)
Lemma piece_included sep s piece :
  In piece (splitOn sep s) -> includes s piece = true.
Proof.
  induction s as [|c r IH]; simpl.
  - by intros [<- | []].
  - destruct (c =? sep)%N eqn:E.
    + intros [<- | Hin]; [done|].
      rewrite (IH Hin). apply orb_true_r.
    + pose proof (startsWith_first_piece sep r) as Hfirst.
      pose proof (splitOn_nonempty sep r) as Hne.
      destruct (splitOn sep r) as [|w ws]; simpl in *.
      * done.
      * intros [<- | Hin].
        -- simpl. by rewrite N.eqb_refl, Hfirst.
        -- rewrite (IH (or_intror Hin)). apply orb_true_r.
Qed.

Lemma streq_sym a b : streq a b = streq b a.
Proof.
  destruct (streq a b) eqn:E1, (streq b a) eqn:E2; try done.
  - apply streq_eq in E1 as ->. by rewrite streq_refl in E2.
  - apply streq_eq in E2 as ->. by rewrite streq_refl in E1.
Qed.

Lemma lookupKey_entry {V : Type} (table : list (jsstring * V)) k v :
  lookupKey table k = Some v -> In (k, v) table.
Proof.
  unfold lookupKey. destruct (List.find _ table) as [[k' v']|] eqn:E; [|done].
  intros [= <-]. apply List.find_some in E as [Hin Heq].
  simpl in Heq. apply streq_eq in Heq as <-. done.
Qed.

(** Every token is one of its own synonyms: each entry of the thesaurus
    lists its key. *)
Lemma synonymsOf_self t : existsb (fun s => streq s t) (LooserValue.synonymsOf t) = true.
Proof.
  unfold LooserValue.synonymsOf.
  destruct (lookupKey Looser.medicalThesaurus t) as [synonyms|] eqn:E.
  - apply lookupKey_entry in E.
    assert (Hall : forallb (fun e => existsb (fun s => streq s (fst e)) (snd e))
                     Looser.medicalThesaurus = true) by (vm_compute; reflexivity).
    rewrite forallb_forall in Hall. apply (Hall _ E).
  - simpl. by rewrite streq_refl.
Qed.

Lemma arrayIncludes_synonymsOf_self t : arrayIncludes (LooserValue.synonymsOf t) t = true.
Proof.
  unfold arrayIncludes. rewrite <- (synonymsOf_self t).
  induction (LooserValue.synonymsOf t) as [|s l IH]; [done|].
  simpl. by rewrite IH, (streq_sym t s).
Qed.

(** The tokens of a text that has a token: the first piece of the split
    is the first token, provided the text does not open with a space. *)
Lemma first_token_is_first_piece s :
  startsClean s ->
  List.filter (fun t => (0 <? length t)%nat) (splitOn 32%N s) <> [] ->
  exists first pieces,
    splitOn 32%N s = first :: pieces /\
    List.filter (fun t => (0 <? length t)%nat) (splitOn 32%N s)
    = first :: List.filter (fun t => (0 <? length t)%nat) pieces.
Proof.
  destruct s as [|c r]; [done|]. intros Hclean _. simpl in Hclean.
  simpl. destruct (c =? 32)%N eqn:E.
  - apply N.eqb_eq in E. subst c. done.
  - pose proof (splitOn_nonempty 32%N r) as Hne.
    destruct (splitOn 32%N r) as [|w ws]; [done|].
    exists (c :: w), ws. done.
Qed.

Lemma editDistance_zero a b : editDistance a b = 0 -> a = b.
Proof.
  revert b. induction a as [|x a IH]; intros b.
  - simpl. by destruct b.
  - destruct b as [|y b]; [done|]. rewrite editDistance_cons. unfold min3.
    destruct (N.eqb_spec x y) as [->|Hne]; [|lia].
    intros H. f_equal. apply IH. lia.
Qed.

(** The distance does not change when both strings are reversed. *)

Lemma min3_exchange (A B C D E F G H I cxy cab : nat) :
  min3 (min3 (A + 1) (D + 1) (G + cxy) + 1) (min3 (B + 1) (E + 1) (H + cxy) + 1)
       (min3 (C + 1) (F + 1) (I + cxy) + cab)
  = min3 (min3 (A + 1) (B + 1) (C + cab) + 1) (min3 (D + 1) (E + 1) (F + cab) + 1)
         (min3 (G + 1) (H + 1) (I + cab) + cxy).
Proof.
  unfold min3. apply Nat.le_antisymm; repeat apply Nat.min_glb; lia.
Qed.

Lemma editDistance_nil_l b : editDistance [] b = length b.
Proof. done. Qed.

Lemma editDistance_snoc_single x b y :
  editDistance [x] (b ++ [y]) =
  min3 (length b + 1 + 1) (editDistance [x] b + 1)
       (length b + (if (x =? y)%N then 0 else 1)).
Proof.
  induction b as [|z b IH].
  - simpl. unfold min3. destruct (x =? y)%N; lia.
  - change ((z :: b) ++ [y]) with (z :: (b ++ [y])).
    rewrite !editDistance_cons, IH, !editDistance_nil_l. simpl length.
    rewrite ?length_app. simpl length.
    unfold min3. destruct (x =? y)%N, (x =? z)%N; lia.
Qed.

(** The recurrence read from the last characters. *)
Lemma editDistance_snoc a x b y :
  editDistance (a ++ [x]) (b ++ [y]) =
  min3 (editDistance a (b ++ [y]) + 1) (editDistance (a ++ [x]) b + 1)
       (editDistance a b + (if (x =? y)%N then 0 else 1)).
Proof.
  revert b. induction a as [|u a IHa]; intros b.
  - rewrite !app_nil_l, editDistance_snoc_single, !editDistance_nil_l, ?length_app.
    simpl length. unfold min3. lia.
  - induction b as [|v b IHb].
    + rewrite !app_nil_l, !editDistance_nil_r.
      rewrite (editDistance_sym _ [y]).
      change ((u :: a) ++ [x]) with (u :: (a ++ [x])).
      pose proof (editDistance_snoc_single y (u :: a) x) as H1.
      change ((u :: a) ++ [x]) with (u :: (a ++ [x])) in H1. rewrite H1.
      rewrite (editDistance_sym (u :: a) [y]), (N.eqb_sym y x). simpl length.
      rewrite ?length_app. simpl length. unfold min3. lia.
    + change ((u :: a) ++ [x]) with (u :: (a ++ [x])) in *.
      change ((v :: b) ++ [y]) with (v :: (b ++ [y])) in *.
      rewrite !editDistance_cons.
      pose proof (IHa (v :: b)) as H1. change ((v :: b) ++ [y]) with (v :: (b ++ [y])) in H1.
      rewrite H1, IHb, (IHa b), ?editDistance_cons. apply min3_exchange.
Qed.

Lemma editDistance_rev a b : editDistance (rev a) (rev b) = editDistance a b.
Proof.
  revert b. induction a as [|x a IHa]; intros b.
  - simpl. by rewrite length_rev.
  - induction b as [|y b IHb].
    + rewrite !editDistance_nil_r. by rewrite length_rev.
    + simpl rev at 1 2. rewrite editDistance_snoc.
      pose proof (IHa (y :: b)) as H1. simpl rev in H1. rewrite H1.
      simpl rev in IHb. rewrite IHb, (IHa b). by rewrite editDistance_cons.
Qed.

(** ** Splitting and joining *)

Lemma joinWith_cons sep x y r :
  joinWith sep (x :: y :: r) = x ++ sep ++ joinWith sep (y :: r).
Proof. done. Qed.

(** Splitting on a separator and joining on it gives the text back. *)
Lemma joinWith_splitOn sep s : joinWith [sep] (splitOn sep s) = s.
Proof.
  induction s as [|c r IH]; [done|]. simpl splitOn.
  pose proof (splitOn_nonempty sep r) as Hne.
  destruct (c =? sep)%N eqn:E.
  - apply N.eqb_eq in E. subst c.
    destruct (splitOn sep r) as [|w ws]; [done|].
    rewrite joinWith_cons, IH. done.
  - destruct (splitOn sep r) as [|w ws]; [done|].
    destruct ws as [|w' ws].
    + simpl in *. by rewrite IH.
    + rewrite joinWith_cons. rewrite joinWith_cons in IH. by rewrite <- IH.
Qed.

Lemma spaced_wellSeparated s : spaced s -> trimEnd s = s -> wellSeparated 32%N s.
Proof.
  induction s as [|c r IH]; [done|]. intros [Hc Hr] Hend. simpl in Hend.
  destruct (trimEnd r) as [|d r'] eqn:E.
  - destruct (isWhiteSpace c) eqn:Ec; [done|]. injection Hend as <-.
    split; [|done]. intros ->. done.
  - injection Hend as Hend. split; [|by apply IH].
    intros ->. destruct (Hc eq_refl) as [_ Hnext]. rewrite <- Hend.
    rewrite <- Hend in Hnext. intros ->. done.
Qed.

(** In a well separated text only the first piece of the split can be
    empty, and it is empty exactly when the text is empty or opens with
    the separator. *)
Lemma splitOn_wellSeparated sep s :
  wellSeparated sep s ->
  exists first pieces,
    splitOn sep s = first :: pieces
    /\ Forall (fun t => t <> []) pieces
    /\ (first = [] <-> s = [] \/ exists r, s = sep :: r).
Proof.
  induction s as [|c r IH]; intros Hs.
  - exists [], []. repeat split; auto.
  - destruct Hs as [Hc Hr]. destruct (IH Hr) as (first & pieces & Hsplit & Hall & Hfirst).
    simpl. rewrite Hsplit. destruct (c =? sep)%N eqn:E.
    + apply N.eqb_eq in E. subst c. exists [], (first :: pieces).
      repeat split; eauto.
      constructor; [|done]. intros Hnil. apply Hfirst in Hnil.
      specialize (Hc eq_refl). destruct Hnil as [-> | [r' ->]]; [done | by apply Hc].
    + apply N.eqb_neq in E. exists (c :: first), pieces.
      repeat split; [done | done |]. intros [Hnil | [r' Hr']]; [done|].
      injection Hr' as -> _. done.
Qed.

Lemma splitOn_units sep s :
  Forall (fun t => Forall (fun c => In c s /\ c <> sep) t) (splitOn sep s).
Proof.
  induction s as [|c r IH]; [by repeat constructor|]. simpl.
  assert (IH' : Forall (fun t => Forall (fun c0 => In c0 (c :: r) /\ c0 <> sep) t)
                       (splitOn sep r)).
  { eapply Forall_impl; [apply IH|]. intros t Ht. simpl in *.
    eapply Forall_impl; [apply Ht|]. simpl. tauto. }
  destruct (c =? sep)%N eqn:E.
  - constructor; [constructor | done].
  - apply N.eqb_neq in E.
    destruct (splitOn sep r) as [|w ws].
    + constructor; [|constructor].
      constructor; [|constructor]. split; [by left | done].
    + apply Forall_cons in IH' as [Hw Hws].
      constructor; [|done]. constructor; [|done]. split; [by left | done].
Qed.

Lemma startsWith_cons a p b s : startsWith (b :: s) (a :: p) = ((a =? b)%N && startsWith s p).
Proof. done. Qed.

Lemma startsWith_nil s : startsWith s [] = true.
Proof. by destruct s. Qed.

Lemma includes_two_spaces s : spaced s -> includes s [32%N; 32%N] = false.
Proof.
  induction s as [|c r IH]; [done|]. intros [Hc Hr].
  change (includes (c :: r) [32%N; 32%N])
    with (startsWith (c :: r) [32%N; 32%N] || includes r [32%N; 32%N]).
  rewrite (IH Hr), orb_false_r, startsWith_cons.
  destruct (N.eqb_spec 32 c) as [<-|Hne]; [|done].
  destruct (Hc eq_refl) as [_ Hnext].
  destruct r as [|d r]; [done|]. rewrite startsWith_cons.
  destruct (N.eqb_spec 32 d) as [<-|Hne]; [done | done].
Qed.

Lemma trimEnd_fixed_last s : trimEnd s = s -> s <> [] -> isWhiteSpace (List.last s 0%N) = false.
Proof.
  induction s as [|c r IH]; [done|]. intros Hend _. simpl in Hend.
  destruct (trimEnd r) as [|d r'] eqn:E.
  - destruct (isWhiteSpace c) eqn:Ec; [done|]. by injection Hend as <-.
  - injection Hend as Hend. rewrite <- Hend. rewrite <- Hend in IH.
    specialize (IH eq_refl ltac:(done)). done.
Qed.

(** ** Sorting and ranking *)

Lemma Qlt_bool_iff x y : Qlt_bool x y = true <-> (x < y)%Q.
Proof.
  unfold Qlt_bool. rewrite negb_true_iff. split.
  - intros H. apply Qnot_le_lt. intros Hle. apply Qle_bool_iff in Hle. congruence.
  - intros H. destruct (Qle_bool y x) eqn:E; [|done].
    apply Qle_bool_iff in E. apply Qlt_not_le in H. contradiction.
Qed.

Lemma Qlt_bool_false x y : Qlt_bool x y = false <-> (y <= x)%Q.
Proof.
  unfold Qlt_bool. rewrite negb_false_iff. apply Qle_bool_iff.
Qed.

Section SortFacts.
Context {A : Type} (key : A -> Q).

Local Abbreviation byKey := (fun a b : A => (key b - key a)%Q).

Lemma insertSorted_Forall (P : A -> Prop) x l :
  P x -> Forall P l -> Forall P (insertSorted byKey x l).
Proof.
  intros Hx. induction 1 as [|y r Hy Hr IH]; simpl.
  - by constructor.
  - destruct (Qlt_bool _ _); repeat constructor; done.
Qed.

Lemma arraySort_Forall (P : A -> Prop) l : Forall P l -> Forall P (arraySort byKey l).
Proof.
  induction 1 as [|x l Hx Hl IH]; simpl; [constructor|].
  by apply insertSorted_Forall.
Qed.

Lemma insertSorted_length x l : length (insertSorted byKey x l) = S (length l).
Proof.
  induction l as [|y r IH]; [done|]. simpl.
  destruct (Qlt_bool _ _); simpl; [by rewrite IH | done].
Qed.

Lemma arraySort_length l : length (arraySort byKey l) = length l.
Proof.
  induction l as [|x l IH]; [done|]. simpl. by rewrite insertSorted_length, IH.
Qed.

Lemma insertSorted_descending x l :
  descending key l -> descending key (insertSorted byKey x l).
Proof.
  induction l as [|y r IH]; intros Hl.
  - simpl. split; [constructor | done].
  - destruct Hl as [Hy Hr]. simpl.
    destruct (Qlt_bool (key x - key y) 0) eqn:E.
    + apply Qlt_bool_iff in E. split; [|by apply IH].
      apply insertSorted_Forall; [lra | done].
    + apply Qlt_bool_false in E. split; [|by split].
      constructor; [lra|].
      eapply Forall_impl; [apply Hy|]. simpl. intros z Hz. lra.
Qed.

Lemma arraySort_descending l : descending key (arraySort byKey l).
Proof.
  induction l as [|x l IH]; [done|]. simpl. by apply insertSorted_descending.
Qed.

Lemma descending_take n l : descending key l -> descending key (take n l).
Proof.
  revert n. induction l as [|x l IH]; intros [|n] Hl; try done.
  destruct Hl as [Hx Hl]. simpl. split; [by apply Forall_take | by apply IH].
Qed.

Lemma descending_lookup l i j a b :
  descending key l -> i < j -> l !! i = Some a -> l !! j = Some b ->
  (key b <= key a)%Q.
Proof.
  revert i j. induction l as [|x l IH]; intros i j Hl Hij Hi Hj; [done|].
  destruct Hl as [Hx Hl]. destruct j as [|j]; [lia|]. simpl in Hj.
  destruct i as [|i].
  - simpl in Hi. injection Hi as ->.
    rewrite List.Forall_forall in Hx. apply Hx. apply list_elem_of_In.
    by apply list_elem_of_lookup_2 in Hj.
  - simpl in Hi. apply (IH i j); [done | lia | done | done].
Qed.

(** Insertion is stable: among the elements of one key, [x] comes first
    and the others keep their order. *)
Lemma insertSorted_stable v x l :
  List.filter (fun a => Qeq_bool (key a) v) (insertSorted byKey x l) =
  List.filter (fun a => Qeq_bool (key a) v) (x :: l).
Proof.
  induction l as [|y r IH]; [done|].
  simpl insertSorted. destruct (Qlt_bool (key x - key y) 0) eqn:E; [|done].
  apply Qlt_bool_iff in E.
  change (List.filter (fun a => Qeq_bool (key a) v) (y :: insertSorted byKey x r))
    with (if Qeq_bool (key y) v
          then y :: List.filter (fun a => Qeq_bool (key a) v) (insertSorted byKey x r)
          else List.filter (fun a => Qeq_bool (key a) v) (insertSorted byKey x r)).
  rewrite IH. simpl.
  destruct (Qeq_bool (key x) v) eqn:Ex, (Qeq_bool (key y) v) eqn:Ey; try done.
  apply Qeq_bool_iff in Ex, Ey. lra.
Qed.

Lemma arraySort_stable v l :
  List.filter (fun a => Qeq_bool (key a) v) (arraySort byKey l) =
  List.filter (fun a => Qeq_bool (key a) v) l.
Proof.
  induction l as [|x l IH]; [done|].
  simpl arraySort. rewrite insertSorted_stable. simpl. by rewrite IH.
Qed.

(** The head of the sorted array is the first element of greatest key. *)
Lemma arraySort_head pre x post :
  Forall (fun y => (key y < key x)%Q) pre ->
  Forall (fun y => (key y <= key x)%Q) post ->
  exists rest, arraySort byKey (pre ++ x :: post) = x :: rest.
Proof.
  intros Hpre Hpost.
  induction Hpre as [|y pre Hy Hpre IH].
  - simpl. pose proof (arraySort_Forall _ _ Hpost) as Hs.
    destruct (arraySort byKey post) as [|z zs]; [by eexists|].
    simpl. apply Forall_inv in Hs.
    assert (E : Qlt_bool (key x - key z) 0 = false) by (apply Qlt_bool_false; lra).
    rewrite E. by eexists.
  - destruct IH as [rest Hrest]. simpl. rewrite Hrest. simpl.
    assert (E : Qlt_bool (key y - key x) 0 = true) by (apply Qlt_bool_iff; lra).
    rewrite E. by eexists.
Qed.
End SortFacts.

Lemma matchScoreOr0_withMatchScore p s : matchScoreOr0 (withMatchScore p s) = s.
Proof. done. Qed.

Lemma filter_take_prefix {A : Type} (f : A -> bool) n (l : list A) :
  exists rest, List.filter f l = List.filter f (take n l) ++ rest.
Proof.
  exists (List.filter f (drop n l)).
  rewrite <- List.filter_app. by rewrite take_drop.
Qed.

Lemma filter_filter_and {A : Type} (f g : A -> bool) (l : list A) :
  List.filter f (List.filter g l) = List.filter (fun x => f x && g x) l.
Proof.
  induction l as [|x l IH]; [done|]. simpl.
  destruct (g x) eqn:Eg; simpl; destruct (f x) eqn:Ef; simpl; by rewrite ?IH.
Qed.

Section RankFacts.
Context (calculateMatchScore : MappedProduct -> jsstring -> Q).
Context (allProducts : list MappedProduct) (itemName : jsstring).

Local Abbreviation candidates :=
  (List.filter (fun p => Qlt_bool 0 (matchScoreOr0 p))
     (scored calculateMatchScore allProducts itemName)).

Lemma rank_unfold :
  rank calculateMatchScore allProducts itemName =
  take 15 (arraySort (fun a b => (matchScoreOr0 b - matchScoreOr0 a)%Q) candidates).
Proof. done. Qed.

Lemma rank_length : length (rank calculateMatchScore allProducts itemName) <= 15.
Proof. rewrite rank_unfold, length_take. lia. Qed.

Lemma rank_descending : descending matchScoreOr0 (rank calculateMatchScore allProducts itemName).
Proof. rewrite rank_unfold. apply descending_take, arraySort_descending. Qed.

Lemma rank_Forall (P : MappedProduct -> Prop) :
  Forall P candidates -> Forall P (rank calculateMatchScore allProducts itemName).
Proof.
  intros H. rewrite rank_unfold. apply Forall_take.
  by apply (arraySort_Forall matchScoreOr0).
Qed.

Lemma rank_positive :
  Forall (fun p => (0 < matchScoreOr0 p)%Q) (rank calculateMatchScore allProducts itemName).
Proof.
  apply rank_Forall. apply List.Forall_forall. intros p Hp.
  apply List.filter_In in Hp as [_ Hp]. by apply Qlt_bool_iff.
Qed.

Lemma rank_from_catalog :
  Forall (fun p => exists c, In c allProducts /\
                             p = withMatchScore c (calculateMatchScore c itemName))
         (rank calculateMatchScore allProducts itemName).
Proof.
  apply rank_Forall. apply List.Forall_forall. intros p Hp.
  apply List.filter_In in Hp as [Hp _]. unfold scored in Hp.
  apply in_map_iff in Hp as (c & <- & Hc). eauto.
Qed.

Lemma rank_stable v :
  exists rest,
    withScore v (scored calculateMatchScore allProducts itemName) =
    withScore v (rank calculateMatchScore allProducts itemName) ++ rest.
Proof.
  unfold withScore. rewrite rank_unfold.
  destruct (filter_take_prefix (fun p => Qeq_bool (matchScoreOr0 p) v) 15
              (arraySort (fun a b => (matchScoreOr0 b - matchScoreOr0 a)%Q) candidates))
    as [rest Hrest].
  rewrite (arraySort_stable matchScoreOr0) in Hrest.
  destruct (Qlt_bool 0 v) eqn:Ev.
  - exists rest. rewrite <- Hrest, filter_filter_and.
    apply List.filter_ext. intros p.
    destruct (Qeq_bool (matchScoreOr0 p) v) eqn:E; [|done]. simpl.
    apply Qeq_bool_iff in E. apply Qlt_bool_iff in Ev. symmetry. apply Qlt_bool_iff. lra.
  - assert (Hnone : List.filter (fun p => Qeq_bool (matchScoreOr0 p) v) candidates = []).
    { clear Hrest. rewrite filter_filter_and.
      induction (scored calculateMatchScore allProducts itemName) as [|p l IH]; [done|].
      simpl.
      destruct (Qeq_bool (matchScoreOr0 p) v) eqn:E;
        destruct (Qlt_bool 0 (matchScoreOr0 p)) eqn:E'; simpl; try apply IH.
      apply Qeq_bool_iff in E. apply Qlt_bool_iff in E'. apply Qlt_bool_false in Ev. lra. }
    rewrite Hnone in Hrest. symmetry in Hrest. apply app_eq_nil in Hrest as [-> _].
    by eexists.
Qed.
End RankFacts.

(** C2.  For every catalog and every query string, whatever the scoring
    function, the ranked list has at most 15 entries, is in non-increasing
    order of score, keeps the catalog order among entries of equal score
    (for each score, the ranked entries with that score are the first
    catalog entries with that score, in catalog order), and holds no entry
    whose score is zero or negative.  Every entry is a catalog product with its
    computed score attached. *)
Theorem rank_is_bounded_sorted_stable_positive
    (calculateMatchScore : MappedProduct -> jsstring -> Q)
    (allProducts : list MappedProduct) (query : jsstring) :
  let ranked := rank calculateMatchScore allProducts query in
  length ranked <= 15
  /\ (forall i j a b, i < j -> ranked !! i = Some a -> ranked !! j = Some b ->
       (matchScoreOr0 b <= matchScoreOr0 a)%Q)
  /\ (forall v, exists rest,
        withScore v (scored calculateMatchScore allProducts query)
        = withScore v ranked ++ rest)
  /\ Forall (fun p => (0 < matchScoreOr0 p)%Q /\ ~ (matchScoreOr0 p <= 0)%Q) ranked
  /\ Forall (fun p => exists c, In c allProducts /\
                                p = withMatchScore c (calculateMatchScore c query)) ranked.
Proof.
  intros ranked. split; [apply rank_length|]. split; [|split; [|split]].
  - intros i j a b. apply descending_lookup, rank_descending.
  - apply rank_stable.
  - eapply Forall_impl; [apply rank_positive|]. simpl. intros p Hp. split; [done | lra].
  - apply rank_from_catalog.
Qed.

(** ** Calls that return and calls that throw *)

Lemma every_returns {A : Type} (f : A -> Outcome bool) (g : A -> bool) (l : list A) :
  (forall x, In x l -> f x = Returns (g x)) -> every f l = Returns (forallb g l).
Proof.
  induction l as [|x l IH]; intros Hf; [done|].
  simpl. rewrite (Hf x (or_introl eq_refl)). simpl.
  destruct (g x); [|done]. apply IH. intros y Hy. apply Hf. by right.
Qed.

Lemma forEach_returns {A S : Type} (step : S -> A -> Outcome S) (pureStep : S -> A -> S)
    (l : list A) (s : S) :
  (forall state x, In x l -> step state x = Returns (pureStep state x)) ->
  forEach step l s = Returns (fold_left pureStep l s).
Proof.
  revert s. induction l as [|x l IH]; intros s Hf; [done|].
  simpl. rewrite (Hf s x (or_introl eq_refl)). simpl.
  apply IH. intros state y Hy. apply Hf. by right.
Qed.

Lemma findIndexOrThrow_returns {A : Type} (f : A -> Outcome bool) (g : A -> bool)
    (l : list A) :
  (forall x, In x l -> f x = Returns (g x)) ->
  findIndexOrThrow f l = Returns (findIndex g l).
Proof.
  induction l as [|x l IH]; intros Hf; [done|].
  simpl. rewrite (Hf x (or_introl eq_refl)). simpl.
  destruct (g x); [done|]. rewrite IH; [done|]. intros y Hy. apply Hf. by right.
Qed.

Lemma mapOrThrow_returns {A B : Type} (f : A -> Outcome B) (g : A -> B) (l : list A) :
  (forall x, In x l -> f x = Returns (g x)) -> mapOrThrow f l = Returns (map g l).
Proof.
  induction l as [|x l IH]; intros Hf; [done|].
  simpl. rewrite (Hf x (or_introl eq_refl)). simpl.
  rewrite IH; [done|]. intros y Hy. apply Hf. by right.
Qed.

Lemma mapOrThrow_ext {A B : Type} (f g : A -> Outcome B) (l : list A) :
  (forall x, f x = g x) -> mapOrThrow f l = mapOrThrow g l.
Proof.
  intros Hfg. induction l as [|x l IH]; [done|]. simpl. by rewrite Hfg, IH.
Qed.

(** A loop whose body throws at some element throws, whatever happens at
    the elements before. *)
Lemma forEach_throws {A S : Type} (step : S -> A -> Outcome S) (l : list A) (x : A) :
  In x l -> (forall state, step state x = TypeError) ->
  forall s, forEach step l s = TypeError.
Proof.
  intros Hin Hx. induction l as [|y l IH]; [done|]. intros s. simpl.
  destruct Hin as [->|Hin].
  - by rewrite Hx.
  - destruct (step s y) as [state|]; [|done]. simpl. by apply IH.
Qed.

Lemma mapOrThrow_throws {A B : Type} (f : A -> Outcome B) (l : list A) (x : A) :
  In x l -> f x = TypeError -> mapOrThrow f l = TypeError.
Proof.
  intros Hin Hx. induction l as [|y l IH]; [done|]. simpl.
  destruct Hin as [->|Hin].
  - by rewrite Hx.
  - destruct (f y) as [v|]; [|done]. simpl. by rewrite IH.
Qed.

(** The ranking of a scorer that returns on every product of the catalog
    is the ranking by the values returned. *)
Lemma rankOutcome_returns (score : MappedProduct -> jsstring -> Outcome Q)
    (value : MappedProduct -> jsstring -> Q) (allProducts : list MappedProduct)
    (itemName : jsstring) :
  (forall p, In p allProducts -> score p itemName = Returns (value p itemName)) ->
  rankOutcome score allProducts itemName = Returns (rank value allProducts itemName).
Proof.
  intros Hscore. unfold rankOutcome, rank.
  rewrite (mapOrThrow_returns _ (fun p => withMatchScore p (value p itemName))); [done|].
  intros p Hp. by rewrite (Hscore p Hp).
Qed.

Lemma rankOutcome_throws (score : MappedProduct -> jsstring -> Outcome Q)
    (allProducts : list MappedProduct) (itemName : jsstring) (p : MappedProduct) :
  In p allProducts -> score p itemName = TypeError ->
  rankOutcome score allProducts itemName = TypeError.
Proof.
  intros Hin Hp. unfold rankOutcome.
  rewrite (mapOrThrow_throws _ allProducts p Hin); [done|]. by rewrite Hp.
Qed.

(** A search whose scoring calls all return is the search by the values
    returned. *)
Lemma searchLinesOutcome_returns (score : MappedProduct -> jsstring -> Outcome Q)
    (value : MappedProduct -> jsstring -> Q) (allProducts : list MappedProduct)
    (items : list ExtractedItem) (index : nat) (prev : QuotationMap) :
  (forall item p, In item items -> In p allProducts ->
     score p (name item) = Returns (value p (name item))) ->
  searchLinesOutcome score allProducts items index prev
  = (Returns (fst (searchLines value allProducts items index prev)),
     snd (searchLines value allProducts items index prev)).
Proof.
  revert index prev. induction items as [|item rest IH]; intros index prev Hscore; [done|].
  simpl searchLinesOutcome.
  rewrite (rankOutcome_returns score value allProducts (name item))
    by (intros p Hp; apply Hscore; [by left | done]).
  change (searchLines value allProducts (item :: rest) index prev)
    with (let '(line, state) := searchLine value allProducts item index prev in
          let '(lines, state) := searchLines value allProducts rest (S index) state in
          (line :: lines, state)).
  unfold searchLine.
  rewrite IH by (intros item' p Hitem Hp; apply Hscore; [by right | done]).
  by destruct (searchLines value allProducts rest (S index) _).
Qed.

Lemma handleSearchOutcome_returns (score : MappedProduct -> jsstring -> Outcome Q)
    (value : MappedProduct -> jsstring -> Q) (allProducts : list MappedProduct)
    (extractedItems : list ExtractedItem) (bulkResults : list BulkSearchResult) :
  (forall item p, In item extractedItems -> In p allProducts ->
     score p (name item) = Returns (value p (name item))) ->
  handleSearchOutcome score allProducts extractedItems bulkResults
  = handleSearch value allProducts extractedItems.
Proof.
  intros Hscore. unfold handleSearchOutcome, handleSearch.
  rewrite (searchLinesOutcome_returns score value) by done.
  by destruct (searchLines value allProducts extractedItems 0 ∅).
Qed.

(** ** Tokens and inherited names *)

(** Of the names in [Object.prototype] only [constructor] is written in
    lower-case letters and digits alone. *)
Lemma alnum_ordinary (t : jsstring) :
  forallb isAlnum t = true -> t <> lit "constructor" -> ordinary t.
Proof.
  intros Halnum Hne. unfold ordinary, arrayIncludes.
  apply not_true_is_false. intros H.
  apply existsb_exists in H as (key & Hkey & Heq).
  apply streq_eq in Heq. subst key.
  unfold objectPrototypeKeys in Hkey. simpl in Hkey.
  repeat (destruct Hkey as [Hkey|Hkey];
          [first [ by apply Hne | rewrite <- Hkey in Halnum; vm_compute in Halnum; discriminate ]|]).
  done.
Qed.

Lemma queryTokens_alnum (U : Unicode) (query : jsstring) :
  Forall (fun t => forallb isAlnum t = true) (Looser.queryTokensOf U query).
Proof.
  unfold Looser.queryTokensOf.
  destruct (normalizeText_normalForm U query) as (Hplain & _).
  set (n := normalizeText U query) in *.
  apply List.Forall_forall. intros t Ht.
  apply List.filter_In in Ht as [Ht _].
  pose proof (splitOn_units 32%N n) as Hunits.
  rewrite List.Forall_forall in Hunits. specialize (Hunits t Ht).
  apply forallb_forall. intros c Hc.
  rewrite List.Forall_forall in Hunits. destruct (Hunits c Hc) as [Hin Hsep].
  rewrite forallb_forall in Hplain. specialize (Hplain c Hin).
  destruct (plainChar_cases c Hplain); [done | contradiction].
Qed.

Lemma queryTokens_ordinary (U : Unicode) (query : jsstring) :
  ~ In (lit "constructor") (Looser.queryTokensOf U query) ->
  Forall ordinary (Looser.queryTokensOf U query).
Proof.
  intros Hnot. pose proof (queryTokens_alnum U query) as Halnum.
  rewrite List.Forall_forall in *. intros t Ht.
  apply alnum_ordinary; [by apply Halnum|]. intros ->. by apply Hnot.
Qed.

Lemma arrayIncludes_In (arr : list jsstring) (x : jsstring) :
  arrayIncludes arr x = true <-> In x arr.
Proof.
  unfold arrayIncludes. rewrite existsb_exists. split.
  - intros (y & Hy & Heq). apply streq_eq in Heq. by subst.
  - intros Hin. exists x. split; [done | apply streq_refl].
Qed.

Lemma stop_word_ordinary (t : jsstring) :
  arrayIncludes Looser.STOP_WORDS t = true -> ordinary t.
Proof.
  intros Hstop. apply arrayIncludes_In in Hstop.
  assert (Hall : forallb (fun w => negb (arrayIncludes objectPrototypeKeys w))
                   Looser.STOP_WORDS = true) by (vm_compute; reflexivity).
  rewrite forallb_forall in Hall. specialize (Hall t Hstop).
  unfold ordinary. by destruct (arrayIncludes objectPrototypeKeys t).
Qed.

(** Every inherited name has more than six characters. *)
Lemma short_ordinary (t : jsstring) : length t <= 6 -> ordinary t.
Proof.
  intros Hlen. unfold ordinary. apply not_true_is_false. intros H.
  apply arrayIncludes_In in H.
  assert (Hall : forallb (fun key => (6 <? length key)%nat) objectPrototypeKeys = true)
    by (vm_compute; reflexivity).
  rewrite forallb_forall in Hall. specialize (Hall t H).
  apply Nat.ltb_lt in Hall. lia.
Qed.

(** ** The looser scorer returns on ordinary tokens *)

Lemma looser_synonymsOf (t : jsstring) :
  ordinary t -> Looser.synonymsOf t = ArrayOf (LooserValue.synonymsOf t).
Proof.
  unfold ordinary, Looser.synonymsOf, LooserValue.synonymsOf, getMember. intros Hord.
  destruct (lookupKey Looser.medicalThesaurus t); [done|]. by rewrite Hord.
Qed.

Lemma looser_synonymsOf_constructor : Looser.synonymsOf (lit "constructor") = Inherited.
Proof. vm_compute. reflexivity. Qed.

Lemma importantTokenPresent_returns (normalizedTitle t : jsstring) :
  ordinary t ->
  Looser.importantTokenPresent normalizedTitle t
  = Returns (LooserValue.importantTokenPresent normalizedTitle t).
Proof.
  intros Hord. unfold Looser.importantTokenPresent, LooserValue.importantTokenPresent.
  destruct (arrayIncludes Looser.STOP_WORDS t); [done|].
  destruct (_ && _); [done|]. by rewrite (looser_synonymsOf t Hord).
Qed.

Lemma matchToken_returns (qToken : jsstring) (best : Q) (pToken : jsstring) :
  Looser.matchToken qToken (ArrayOf (LooserValue.synonymsOf qToken)) best pToken
  = Returns (LooserValue.matchToken qToken best pToken).
Proof.
  unfold Looser.matchToken, LooserValue.matchToken. cbv zeta. simpl.
  by destruct (existsb _ _).
Qed.

Lemma bestTokenScore_returns (qToken : jsstring) (productTokens : list jsstring) :
  ordinary qToken ->
  Looser.bestTokenScore qToken productTokens
  = Returns (LooserValue.bestTokenScore qToken productTokens).
Proof.
  intros Hord. unfold Looser.bestTokenScore, LooserValue.bestTokenScore.
  rewrite (looser_synonymsOf qToken Hord).
  apply forEach_returns. intros best pToken _. apply matchToken_returns.
Qed.

Lemma addTokenScores_returns (queryTokens productTokens : list jsstring) (totalScore : Q) :
  Forall ordinary queryTokens ->
  Looser.addTokenScores queryTokens productTokens totalScore
  = Returns (LooserValue.addTokenScores queryTokens productTokens totalScore).
Proof.
  intros Hord. unfold Looser.addTokenScores, LooserValue.addTokenScores.
  apply forEach_returns. intros total qToken Hin.
  rewrite List.Forall_forall in Hord.
  unfold Looser.addTokenScore, LooserValue.addTokenScore.
  by rewrite (bestTokenScore_returns qToken productTokens (Hord qToken Hin)).
Qed.

Lemma anchorBonus_returns (anchorSynonyms productTokens : list jsstring) :
  Looser.anchorBonus (ArrayOf anchorSynonyms) productTokens
  = Returns (LooserValue.anchorBonus anchorSynonyms productTokens).
Proof.
  unfold Looser.anchorBonus, LooserValue.anchorBonus.
  by rewrite (findIndexOrThrow_returns _ (fun p => arrayIncludes anchorSynonyms p)).
Qed.

Lemma accessoryPenalty_returns (anchorSynonyms productTokens : list jsstring) :
  Looser.accessoryPenalty (ArrayOf anchorSynonyms) productTokens
  = Returns (LooserValue.accessoryPenalty anchorSynonyms productTokens).
Proof.
  unfold Looser.accessoryPenalty, LooserValue.accessoryPenalty, callIncludes. cbv zeta.
  destruct (arrayIncludes anchorSynonyms (lit "cabo")); reflexivity.
Qed.

(** When every token of the query is ordinary the looser scorer returns. *)
Lemma looser_returns (U : Unicode) (product : MappedProduct) (query : jsstring) :
  Forall ordinary (Looser.queryTokensOf U query) ->
  Looser.calculateMatchScore U product query
  = Returns (LooserValue.calculateMatchScore U product query).
Proof.
  intros Hord. unfold Looser.calculateMatchScore, LooserValue.calculateMatchScore. cbv zeta.
  destruct (Looser.queryTokensOf U query) as [|anchorToken rest] eqn:E; [done|].
  rewrite (every_returns _ (LooserValue.importantTokenPresent
                              (normalizeText U (title product)))).
  2:{ intros t Ht. apply importantTokenPresent_returns.
      rewrite List.Forall_forall in Hord. by apply Hord. }
  simpl bind. rewrite (addTokenScores_returns _ _ _ Hord). simpl bind.
  rewrite (looser_synonymsOf anchorToken (Forall_inv Hord)).
  rewrite anchorBonus_returns. simpl bind. by rewrite accessoryPenalty_returns.
Qed.

(** A query with the token [constructor] makes the looser scorer throw:
    the token loop of step 2 reaches it, and the title always has a first
    token to compare it with. *)
Lemma looser_throws (U : Unicode) (product : MappedProduct) (query : jsstring) :
  In (lit "constructor") (Looser.queryTokensOf U query) ->
  Looser.calculateMatchScore U product query = TypeError.
Proof.
  intros Hin. unfold Looser.calculateMatchScore. cbv zeta.
  destruct (Looser.queryTokensOf U query) as [|anchorToken rest] eqn:E; [done|].
  destruct (every _ _) as [gate|]; [|done]. simpl bind.
  unfold Looser.addTokenScores.
  rewrite (forEach_throws _ _ (lit "constructor") Hin); [done|].
  intros total. unfold Looser.addTokenScore, Looser.bestTokenScore.
  rewrite looser_synonymsOf_constructor.
  pose proof (splitOn_nonempty 32%N (normalizeText U (title product))) as Hne.
  by destruct (splitOn 32%N (normalizeText U (title product))).
Qed.

(** The search of the looser policy: when no requested name has the token
    [constructor] it is the search by the values returned. *)
Lemma looser_search_returns (U : Unicode) (allProducts : list MappedProduct)
    (extractedItems : list ExtractedItem) (bulkResults : list BulkSearchResult) :
  Forall (fun item => ~ In (lit "constructor") (Looser.queryTokensOf U (name item)))
         extractedItems ->
  handleSearchOutcome (Looser.calculateMatchScore U) allProducts extractedItems bulkResults
  = handleSearch (LooserValue.calculateMatchScore U) allProducts extractedItems.
Proof.
  intros Hnot. apply handleSearchOutcome_returns. intros item p Hitem _.
  apply looser_returns, queryTokens_ordinary.
  rewrite List.Forall_forall in Hnot. by apply Hnot.
Qed.

(** ** The stricter scorer returns on ordinary tokens *)

Lemma stricter_synonymsOf (t : jsstring) :
  ordinary t -> Stricter.synonymsOf t = ArrayOf (StricterValue.synonymsOf t).
Proof.
  unfold ordinary, Stricter.synonymsOf, StricterValue.synonymsOf, getMember. intros Hord.
  destruct (lookupKey Stricter.medicalThesaurus t); [done|]. by rewrite Hord.
Qed.

Lemma productStartsWithAnchor_returns (anchorSynonyms productWords : list jsstring) :
  Stricter.productStartsWithAnchor (ArrayOf anchorSynonyms) productWords
  = Returns (StricterValue.productStartsWithAnchor anchorSynonyms productWords).
Proof.
  unfold Stricter.productStartsWithAnchor, StricterValue.productStartsWithAnchor. simpl.
  destruct productWords as [|first rest]; [|done].
  f_equal. by induction anchorSynonyms.
Qed.

Lemma matchWord_returns (token : jsstring) (best : Z) (word : jsstring) :
  Stricter.matchWord token (ArrayOf (StricterValue.synonymsOf token)) best word
  = Returns (StricterValue.matchWord token best word).
Proof.
  unfold Stricter.matchWord, StricterValue.matchWord. cbv zeta. simpl.
  by destruct (existsb _ _).
Qed.

Lemma bestMatch_returns (token : jsstring) (productWords : list jsstring) :
  ordinary token ->
  Stricter.bestMatch token productWords = Returns (StricterValue.bestMatch token productWords).
Proof.
  intros Hord. unfold Stricter.bestMatch, StricterValue.bestMatch.
  rewrite (stricter_synonymsOf token Hord).
  apply forEach_returns. intros best word _. apply matchWord_returns.
Qed.

Lemma accumulate_returns (queryTokens anchorSynonyms productWords : list jsstring)
    (score : Z) :
  Forall ordinary queryTokens ->
  Stricter.accumulate queryTokens (ArrayOf anchorSynonyms) productWords score
  = Returns (StricterValue.accumulate queryTokens anchorSynonyms productWords score).
Proof.
  intros Hord. unfold Stricter.accumulate, StricterValue.accumulate. cbv zeta. simpl bind.
  apply forEach_returns. intros total token Hin.
  rewrite List.Forall_forall in Hord.
  by rewrite (bestMatch_returns token productWords (Hord token Hin)).
Qed.

(** When every token of the query is ordinary the stricter scorer
    returns. *)
Lemma stricter_returns (U : Unicode) (product : MappedProduct) (query : jsstring) :
  Forall ordinary (Stricter.queryTokensOf U query) ->
  Stricter.calculateMatchScore U product query
  = Returns (StricterValue.calculateMatchScore U product query).
Proof.
  intros Hord. unfold Stricter.calculateMatchScore, StricterValue.calculateMatchScore.
  cbv zeta.
  destruct (Stricter.queryTokensOf U query) as [|anchorToken rest] eqn:E; [done|].
  rewrite (every_returns _
             (fun token => existsb (fun syn => includes (normalizeText U (title product)) syn)
                                   (StricterValue.synonymsOf token))).
  2:{ intros t Ht. rewrite List.Forall_forall in Hord.
      by rewrite (stricter_synonymsOf t (Hord t Ht)). }
  simpl bind. rewrite (stricter_synonymsOf anchorToken (Forall_inv Hord)).
  rewrite productStartsWithAnchor_returns. simpl bind.
  unfold Stricter.productContainsAnchor. simpl bind.
  fold (StricterValue.productContainsAnchor (StricterValue.synonymsOf anchorToken)
          (splitOn 32%N (normalizeText U (title product)))).
  destruct (StricterValue.productStartsWithAnchor _ _); [by apply accumulate_returns|].
  destruct (StricterValue.productContainsAnchor _ _); [by apply accumulate_returns|].
  destruct (1 <? _)%nat; [done|]. by apply accumulate_returns.
Qed.

Lemma stricter_tokens (U : Unicode) (query : jsstring) :
  Stricter.queryTokensOf U query = Looser.queryTokensOf U query.
Proof. done. Qed.

Lemma stricter_synonymsOf_constructor : Stricter.synonymsOf (lit "constructor") = Inherited.
Proof. vm_compute. reflexivity. Qed.

(** The token loop of the stricter scorer throws at the token
    [constructor]. *)
Lemma accumulate_throws (queryTokens anchorSynonyms productWords : list jsstring)
    (score : Z) :
  In (lit "constructor") queryTokens -> productWords <> [] ->
  Stricter.accumulate queryTokens (ArrayOf anchorSynonyms) productWords score = TypeError.
Proof.
  intros Hin Hwords. unfold Stricter.accumulate. cbv zeta. simpl bind.
  apply (forEach_throws _ _ (lit "constructor") Hin).
  intros total. unfold Stricter.bestMatch. rewrite stricter_synonymsOf_constructor.
  by destruct productWords.
Qed.

(** With the token [constructor] in the query the stricter scorer throws,
    unless the completeness test stops before that token and the anchor
    test fails: then it returns -1. *)
Lemma stricter_with_constructor (U : Unicode) (product : MappedProduct) (query : jsstring) :
  In (lit "constructor") (Stricter.queryTokensOf U query) ->
  Stricter.calculateMatchScore U product query = TypeError
  \/ (Stricter.calculateMatchScore U product query = Returns (-1)%Z
      /\ 1 < length (Stricter.queryTokensOf U query)).
Proof.
  intros Hin. unfold Stricter.calculateMatchScore. cbv zeta.
  pose proof (queryTokens_alnum U query) as Halnum.
  change (Looser.queryTokensOf U query) with (Stricter.queryTokensOf U query) in Halnum.
  destruct (Stricter.queryTokensOf U query) as [|anchorToken rest] eqn:E; [done|].
  pose proof (splitOn_nonempty 32%N (normalizeText U (title product))) as Hwords.
  destruct (decide (anchorToken = lit "constructor")) as [->|Hanchor].
  { left. simpl every. by rewrite stricter_synonymsOf_constructor. }
  destruct (every _ _) as [gate|]; [|by left]. simpl bind.
  rewrite (stricter_synonymsOf anchorToken)
    by (apply alnum_ordinary; [exact (Forall_inv Halnum) | done]).
  rewrite productStartsWithAnchor_returns. simpl bind.
  unfold Stricter.productContainsAnchor. simpl bind.
  destruct (StricterValue.productStartsWithAnchor _ _);
    [left; by apply accumulate_throws|].
  destruct (existsb _ _); [left; by apply accumulate_throws|].
  right. destruct Hin as [Hin|Hin]; [congruence|].
  destruct rest as [|second rest]; [done|]. split; [done | simpl; lia].
Qed.

(** ** The looser scorer *)

Section LooserFacts.
Import Looser.
Import LooserValue.
Local Open Scope Q_scope.

Lemma Qmax_unit_interval x y : 0 <= x <= 1 -> 0 <= y <= 1 -> x <= Qmax x y <= 1.
Proof.
  intros Hx Hy. destruct (Q.max_spec x y) as [[H1 H2]|[H1 H2]]; rewrite H2; lra.
Qed.

Lemma matchToken_bounds qToken best pToken :
  0 <= best <= 1 -> best <= matchToken qToken best pToken <= 1.
Proof.
  intros Hb. unfold matchToken. cbv zeta.
  destruct (existsb _ _); [apply Qmax_unit_interval; lra|].
  destruct (_ && startsWith _ _); [apply Qmax_unit_interval; lra|].
  destruct (_ && _); [|lra].
  destruct (_ <=? _)%nat eqn:E; [|lra].
  apply Nat.leb_le in E.
  apply Qmax_unit_interval; [done|].
  assert (Hd : (0 <= Z.of_nat (levenshtein qToken pToken) <= 2)%Z)
    by (destruct (6 <? length qToken)%nat; lia).
  assert (H0 : inject_Z 0 <= inject_Z (Z.of_nat (levenshtein qToken pToken)))
    by (rewrite <- Zle_Qle; lia).
  assert (H2 : inject_Z (Z.of_nat (levenshtein qToken pToken)) <= inject_Z 2)
    by (rewrite <- Zle_Qle; lia).
  change (inject_Z 0) with 0 in H0. change (inject_Z 2) with 2 in H2.
  lra.
Qed.

Lemma matchToken_fold_bounds qToken productTokens best :
  0 <= best <= 1 ->
  best <= fold_left (matchToken qToken) productTokens best <= 1.
Proof.
  revert best. induction productTokens as [|pToken ps IH]; intros best Hb; [simpl; lra|].
  pose proof (matchToken_bounds qToken best pToken Hb) as Hstep.
  simpl. specialize (IH (matchToken qToken best pToken)). lra.
Qed.

Lemma bestTokenScore_bounds qToken productTokens :
  0 <= bestTokenScore qToken productTokens <= 1.
Proof. apply (matchToken_fold_bounds qToken productTokens 0). lra. Qed.

(** A product token that equals a synonym of the query token makes the
    match perfect. *)
Lemma bestTokenScore_exact qToken productTokens pToken :
  In pToken productTokens ->
  existsb (fun s => streq s pToken) (synonymsOf qToken) = true ->
  bestTokenScore qToken productTokens == 1.
Proof.
  intros Hin Hsyn.
  apply in_split in Hin as (pre & post & ->).
  unfold bestTokenScore. rewrite fold_left_app. simpl.
  pose proof (matchToken_fold_bounds qToken pre 0 ltac:(lra)) as Hpre.
  set (b := fold_left (matchToken qToken) pre 0) in *.
  assert (Hexact : matchToken qToken b pToken = Qmax b 1)
    by (unfold matchToken; cbv zeta; by rewrite Hsyn).
  rewrite Hexact.
  pose proof (Qmax_unit_interval b 1 ltac:(lra) ltac:(lra)) as Hmax.
  pose proof (Q.le_max_r b 1) as Hone.
  pose proof (matchToken_fold_bounds qToken post (Qmax b 1) ltac:(lra)).
  lra.
Qed.

Lemma tokenWeight_cases qToken :
  tokenWeight qToken = 50 \/ tokenWeight qToken = 2500 \/
  tokenWeight qToken = 500 \/ tokenWeight qToken = 4500.
Proof.
  unfold tokenWeight.
  destruct (arrayIncludes STOP_WORDS qToken); [tauto|].
  destruct (arrayIncludes CATEGORY_TERMS qToken); [tauto|].
  destruct (isNumeric qToken); tauto.
Qed.

Lemma tokenWeight_positive qToken : 0 < tokenWeight qToken.
Proof. destruct (tokenWeight_cases qToken) as [-> | [-> | [-> | ->]]]; lra. Qed.

(** One query token adds its match quality times its weight. *)
Lemma addTokenScore_value productTokens totalScore qToken :
  addTokenScore productTokens totalScore qToken ==
  totalScore + bestTokenScore qToken productTokens * tokenWeight qToken.
Proof.
  unfold addTokenScore. cbv zeta.
  destruct (Qlt_bool 0 (bestTokenScore qToken productTokens)) eqn:E; [lra|].
  apply Qlt_bool_false in E.
  pose proof (bestTokenScore_bounds qToken productTokens) as Hb.
  assert (Hz : bestTokenScore qToken productTokens == 0) by lra.
  rewrite Hz. lra.
Qed.

Lemma addTokenScores_value queryTokens productTokens totalScore :
  addTokenScores queryTokens productTokens totalScore ==
  totalScore +
  fold_right (fun qToken acc =>
                bestTokenScore qToken productTokens * tokenWeight qToken + acc)
             0 queryTokens.
Proof.
  unfold addTokenScores. revert totalScore.
  induction queryTokens as [|qToken qs IH]; intros totalScore; simpl; [lra|].
  rewrite IH, addTokenScore_value. lra.
Qed.

Lemma tokenSum_bounds queryTokens productTokens :
  0 <= fold_right (fun qToken acc =>
                     bestTokenScore qToken productTokens * tokenWeight qToken + acc)
                  0 queryTokens
    <= totalWeight queryTokens.
Proof.
  induction queryTokens as [|qToken qs IH]; simpl; [lra|].
  pose proof (bestTokenScore_bounds qToken productTokens) as Hb.
  pose proof (tokenWeight_positive qToken) as Hw.
  nra.
Qed.

Lemma tokenSum_exact queryTokens productTokens :
  Forall (fun qToken => bestTokenScore qToken productTokens == 1) queryTokens ->
  fold_right (fun qToken acc =>
                bestTokenScore qToken productTokens * tokenWeight qToken + acc)
             0 queryTokens
  == totalWeight queryTokens.
Proof.
  induction 1 as [|qToken qs Hq Hqs IH]; simpl; [lra|].
  rewrite IH, Hq. lra.
Qed.

Lemma anchorBonus_bounds anchorSynonyms productTokens :
  0 <= anchorBonus anchorSynonyms productTokens <= 2000.
Proof.
  unfold anchorBonus. destruct (findIndex _ _) as [[|n]|]; lra.
Qed.

Lemma accessoryPenalty_bounds anchorSynonyms productTokens :
  0 <= accessoryPenalty anchorSynonyms productTokens <= 3000.
Proof.
  unfold accessoryPenalty. cbv zeta. destruct (_ && _); lra.
Qed.

(** The value returned, whenever the query has a token, is the sum of the
    four steps. *)
Lemma calculateMatchScore_accumulates U product query :
  queryTokensOf U query <> [] ->
  calculateMatchScore U product query == sumOfSteps U product query.
Proof.
  intros Hne. unfold calculateMatchScore, sumOfSteps, accessoryPenaltyOf.
  cbv zeta. destruct (queryTokensOf U query) as [|anchorToken rest] eqn:E; [done|].
  rewrite addTokenScores_value. simpl hd.
  destruct (forallb _ _); lra.
Qed.

(** *** The steps against the contract *)

Lemma tokenWeight_class qToken :
  tokenWeight qToken = Contract.weight (Contract.weightClass qToken).
Proof.
  unfold tokenWeight, Contract.weightClass.
  destruct (arrayIncludes STOP_WORDS qToken); [done|].
  destruct (arrayIncludes CATEGORY_TERMS qToken); [done|].
  by destruct (isNumeric qToken).
Qed.

Lemma higherWeight_class qToken :
  Qlt_bool 1000 (tokenWeight qToken) = Contract.higherWeight (Contract.weightClass qToken).
Proof. rewrite tokenWeight_class. by destruct (Contract.weightClass qToken). Qed.

Lemma nonStop_class qToken :
  Qlt_bool 100 (tokenWeight qToken) = Contract.nonStop (Contract.weightClass qToken).
Proof. rewrite tokenWeight_class. by destruct (Contract.weightClass qToken). Qed.

Lemma synonyms_contract t : Contract.synonyms t = synonymsOf t.
Proof.
  unfold Contract.synonyms, thesaurusSynonyms, synonymsOf.
  by destruct (lookupKey medicalThesaurus t).
Qed.

Lemma levenshtein_distance a b : levenshtein a b = editDistance a b.
Proof. by rewrite looser_levenshtein_spec, editDistance_rev, editDistance_sym. Qed.

Lemma some_equal_includes (arr : list jsstring) x :
  existsb (fun s => streq s x) arr = arrayIncludes arr x.
Proof.
  unfold arrayIncludes. induction arr as [|s arr IH]; [done|].
  simpl. by rewrite IH, (streq_sym s x).
Qed.

Lemma exactOrSynonym_contract qToken pToken :
  Contract.exactOrSynonym qToken pToken
  = if existsb (fun s => streq s pToken) (synonymsOf qToken) then 1 else 0.
Proof.
  unfold Contract.exactOrSynonym. rewrite synonyms_contract, some_equal_includes.
  destruct (streq qToken pToken) eqn:E; [|done].
  apply streq_eq in E as <-. by rewrite arrayIncludes_synonymsOf_self.
Qed.

Lemma withinDistance_bounds qToken pToken :
  0 <= Contract.withinDistance qToken pToken <= 1
  /\ (qToken <> pToken -> Contract.withinDistance qToken pToken <= 0.8).
Proof.
  unfold Contract.withinDistance. cbv zeta.
  destruct (_ && (_ <=? _)%nat) eqn:E; [|split; [lra | intros _; lra]].
  apply andb_true_iff in E as [_ E]. apply Nat.leb_le in E.
  assert (Hd : (0 <= Z.of_nat (editDistance qToken pToken) <= 2)%Z)
    by (unfold Contract.threshold in E; destruct (6 <? length qToken)%nat; lia).
  assert (H0 : inject_Z 0 <= inject_Z (Z.of_nat (editDistance qToken pToken)))
    by (rewrite <- Zle_Qle; lia).
  assert (H2 : inject_Z (Z.of_nat (editDistance qToken pToken)) <= inject_Z 2)
    by (rewrite <- Zle_Qle; lia).
  change (inject_Z 0) with 0 in H0. change (inject_Z 2) with 2 in H2.
  split; [lra|]. intros Hne.
  assert (Hpos : (1 <= Z.of_nat (editDistance qToken pToken))%Z).
  { destruct (editDistance qToken pToken) eqn:Ed; [|lia].
    by apply editDistance_zero in Ed. }
  assert (H1 : inject_Z 1 <= inject_Z (Z.of_nat (editDistance qToken pToken)))
    by (rewrite <- Zle_Qle; lia).
  change (inject_Z 1) with 1 in H1. lra.
Qed.

(** One turn of the inner loop keeps the better of the running best and
    the local quality of the title token. *)
Lemma matchToken_contract qToken best pToken :
  0 <= best ->
  matchToken qToken best pToken == Qmax best (Contract.localQuality qToken pToken).
Proof.
  intros Hbest. unfold matchToken, Contract.localQuality. cbv zeta.
  rewrite exactOrSynonym_contract.
  destruct (withinDistance_bounds qToken pToken) as [Hwd Hfar].
  unfold Contract.prefixMatch.
  rewrite higherWeight_class, nonStop_class, levenshtein_distance.
  change 3%nat with Contract.minimumLength.
  destruct (existsb _ _) eqn:Esyn.
  { assert (Hlocal : forall pm, pm <= 1 ->
              Qmax 1 (Qmax pm (Contract.withinDistance qToken pToken)) == 1)
      by (intros pm Hpm; apply Q.max_l, Q.max_lub; lra).
    rewrite Hlocal; [reflexivity|]. destruct (_ && startsWith _ _); lra. }
  assert (Hne : qToken <> pToken).
  { intros ->. by rewrite synonymsOf_self in Esyn. }
  specialize (Hfar Hne).
  destruct (_ && startsWith _ _) eqn:Epre.
  { assert (Hlocal : Qmax 0 (Qmax 0.9 (Contract.withinDistance qToken pToken)) == 0.9).
    { rewrite (Q.max_l 0.9) by lra. apply Q.max_r. lra. }
    by rewrite Hlocal. }
  unfold Contract.withinDistance in *. cbv zeta in *.
  fold (Contract.threshold qToken).
  destruct (Contract.nonStop _ && _) eqn:Efuzzy; simpl andb in *.
  - destruct (_ <=? _)%nat.
    + assert (Hlocal : forall w, 0 <= w -> Qmax 0 (Qmax 0 w) == w)
        by (intros w Hw; rewrite (Q.max_r 0 w) by lra; apply Q.max_r; lra).
      by rewrite (Hlocal _ (proj1 Hwd)).
    + rewrite (Q.max_l best) by (rewrite !Q.max_id; lra). reflexivity.
  - rewrite (Q.max_l best) by (rewrite !Q.max_id; lra). reflexivity.
Qed.

Lemma quality_bounds qToken productTokens :
  0 <= Contract.quality qToken productTokens.
Proof.
  induction productTokens as [|pToken ps IH]; simpl; [lra|].
  eapply Qle_trans; [exact IH | apply Q.le_max_r].
Qed.

Lemma matchToken_fold_contract qToken productTokens best :
  0 <= best <= 1 ->
  fold_left (matchToken qToken) productTokens best
  == Qmax best (Contract.quality qToken productTokens).
Proof.
  revert best. induction productTokens as [|pToken ps IH]; intros best Hb.
  - simpl. symmetry. apply Q.max_l. lra.
  - simpl. pose proof (matchToken_bounds qToken best pToken Hb) as Hstep.
    rewrite IH by lra. rewrite (matchToken_contract qToken best pToken) by lra.
    by rewrite Q.max_assoc.
Qed.

Lemma bestTokenScore_contract qToken productTokens :
  bestTokenScore qToken productTokens == Contract.quality qToken productTokens.
Proof.
  unfold bestTokenScore. rewrite matchToken_fold_contract by lra.
  apply Q.max_r, quality_bounds.
Qed.

Lemma gate_contract normalizedTitle queryTokens :
  forallb (importantTokenPresent normalizedTitle) queryTokens
  = Contract.completenessGate normalizedTitle queryTokens.
Proof.
  unfold Contract.completenessGate.
  induction queryTokens as [|t ts IH]; [done|]. simpl. rewrite IH. f_equal.
  unfold importantTokenPresent, Contract.significant.
  replace (Contract.synonyms t) with (synonymsOf t) by (symmetry; apply synonyms_contract).
  change Contract.minimumLength with 3%nat.
  destruct (arrayIncludes STOP_WORDS t); [done|].
  by destruct ((length t <? 3)%nat && isNumeric t).
Qed.

Lemma findIndex_none {A : Type} (f : A -> bool) (l : list A) :
  findIndex f l = None <-> existsb f l = false.
Proof.
  induction l as [|x l IH]; [done|]. simpl.
  destruct (f x); [done|]. simpl. rewrite <- IH.
  by destruct (findIndex f l).
Qed.

Lemma anchorBonus_contract anchorToken productTokens :
  anchorBonus (synonymsOf anchorToken) productTokens
  = Contract.anchorBias anchorToken productTokens.
Proof.
  unfold anchorBonus, Contract.anchorBias.
  replace (Contract.synonyms anchorToken) with (synonymsOf anchorToken)
    by (symmetry; apply synonyms_contract).
  destruct productTokens as [|first others]; [done|]. simpl findIndex.
  destruct (arrayIncludes (synonymsOf anchorToken) first); [done|].
  destruct (existsb _ others) eqn:E.
  - destruct (findIndex _ others) as [n|] eqn:Ei; [done|].
    apply findIndex_none in Ei. by rewrite Ei in E.
  - apply findIndex_none in E. by rewrite E.
Qed.

Lemma accessoryPenalty_contract anchorToken productTokens :
  accessoryPenalty (synonymsOf anchorToken) productTokens
  = Contract.accessoryPenalty anchorToken productTokens.
Proof.
  unfold accessoryPenalty, Contract.accessoryPenalty, Contract.accessoryWords.
  replace (Contract.synonyms anchorToken) with (synonymsOf anchorToken)
    by (symmetry; apply synonyms_contract).
  cbv zeta. simpl existsb. by rewrite !orb_false_r.
Qed.

Lemma queryTokens_contract U query :
  List.filter (fun t => negb (streq t [])) (splitOn 32%N (normalizeText U query))
  = queryTokensOf U query.
Proof. unfold queryTokensOf. apply List.filter_ext. by intros []. Qed.

(** The sum of the steps is the weighted accumulation of the contract. *)
Lemma sumOfSteps_contract U product query :
  queryTokensOf U query <> [] ->
  sumOfSteps U product query == weightedAccumulation U product query.
Proof.
  intros Hne. unfold sumOfSteps, weightedAccumulation, accessoryPenaltyOf. cbv zeta.
  rewrite queryTokens_contract, gate_contract.
  destruct (queryTokensOf U query) as [|anchorToken rest] eqn:E; [done|].
  simpl hd. rewrite anchorBonus_contract, accessoryPenalty_contract.
  assert (Hsum : forall tokens productTokens,
    fold_right (fun qToken acc =>
                  bestTokenScore qToken productTokens * tokenWeight qToken + acc) 0 tokens
    == fold_right (fun qToken total =>
                     Contract.quality qToken productTokens
                     * Contract.weight (Contract.weightClass qToken) + total) 0 tokens).
  { intros tokens productTokens. induction tokens as [|t ts IH]; simpl; [reflexivity|].
    by rewrite IH, bestTokenScore_contract, tokenWeight_class. }
  by rewrite Hsum.
Qed.

Lemma calculateMatchScore_weighted U product query :
  queryTokensOf U query <> [] ->
  calculateMatchScore U product query == weightedAccumulation U product query.
Proof.
  intros Hne. rewrite (calculateMatchScore_accumulates U product query Hne).
  by apply sumOfSteps_contract.
Qed.
End LooserFacts.

(** ** C10: a query of stop words *)

Lemma rank_all_positive calculateMatchScore allProducts itemName :
  (forall p, (0 < calculateMatchScore p itemName)%Q) ->
  length (rank calculateMatchScore allProducts itemName) = Nat.min (length allProducts) 15.
Proof.
  intros Hpos. rewrite rank_unfold, length_take, (arraySort_length matchScoreOr0).
  assert (Hall : List.filter (fun p => Qlt_bool 0 (matchScoreOr0 p))
                   (scored calculateMatchScore allProducts itemName)
                 = scored calculateMatchScore allProducts itemName).
  { unfold scored. induction allProducts as [|p l IH]; [done|]. simpl.
    assert (Hp : Qlt_bool 0 (matchScoreOr0 (withMatchScore p (calculateMatchScore p itemName)))
                 = true) by (apply Qlt_bool_iff, Hpos).
    by rewrite Hp, IH. }
  rewrite Hall. unfold scored. rewrite length_map. lia.
Qed.

(** C10.  Under the looser policy, when the query has at least one token
    and every token is a stop word, the scorer returns for every product,
    the completeness gate passes, the score is at least 6000 - 3000 and so
    strictly positive; the query returns min(catalog size, 15)
    candidates. *)
Theorem stop_word_query_matches_every_product (U : Unicode) (query : jsstring) :
  Looser.queryTokensOf U query <> [] ->
  Forall (fun t => arrayIncludes Looser.STOP_WORDS t = true) (Looser.queryTokensOf U query) ->
  (forall product,
     every (Looser.importantTokenPresent (normalizeText U (title product)))
           (Looser.queryTokensOf U query) = Returns true
     /\ exists score,
          Looser.calculateMatchScore U product query = Returns score
          /\ (6000 - 3000 <= score)%Q
          /\ (0 < score)%Q)
  /\ (forall allProducts,
        exists ranked,
          rankOutcome (Looser.calculateMatchScore U) allProducts query = Returns ranked
          /\ length ranked = Nat.min (length allProducts) 15).
Proof.
  intros Hne Hstop.
  assert (Hord : Forall ordinary (Looser.queryTokensOf U query)).
  { eapply Forall_impl; [exact Hstop|]. intros t Ht. by apply stop_word_ordinary. }
  assert (Hscore : forall product,
    forallb (LooserValue.importantTokenPresent (normalizeText U (title product)))
            (Looser.queryTokensOf U query) = true
    /\ (6000 - 3000 <= LooserValue.calculateMatchScore U product query)%Q).
  { intros product.
    assert (Hgate : forallb (LooserValue.importantTokenPresent
                               (normalizeText U (title product)))
                            (Looser.queryTokensOf U query) = true).
    { apply forallb_forall. intros t Ht.
      rewrite List.Forall_forall in Hstop. unfold LooserValue.importantTokenPresent.
      by rewrite (Hstop t Ht). }
    split; [done|].
    rewrite (calculateMatchScore_accumulates U product query Hne).
    unfold sumOfSteps, accessoryPenaltyOf. cbv zeta. rewrite Hgate.
    pose proof (tokenSum_bounds (Looser.queryTokensOf U query)
                  (splitOn 32%N (normalizeText U (title product)))) as Hsum.
    pose proof (anchorBonus_bounds
                  (LooserValue.synonymsOf (hd [] (Looser.queryTokensOf U query)))
                  (splitOn 32%N (normalizeText U (title product)))) as Hanchor.
    destruct (Looser.queryTokensOf U query) as [|anchorToken rest]; [done|].
    pose proof (accessoryPenalty_bounds (LooserValue.synonymsOf anchorToken)
                  (splitOn 32%N (normalizeText U (title product)))) as Hpen.
    lra. }
  split.
  - intros product. destruct (Hscore product) as [Hgate Hbound]. split.
    + rewrite (every_returns _ (LooserValue.importantTokenPresent
                                  (normalizeText U (title product)))).
      * by rewrite Hgate.
      * intros t Ht. apply importantTokenPresent_returns.
        rewrite List.Forall_forall in Hord. by apply Hord.
    + exists (LooserValue.calculateMatchScore U product query).
      split; [by apply looser_returns|]. split; [done | lra].
  - intros allProducts.
    exists (rank (LooserValue.calculateMatchScore U) allProducts query). split.
    + apply rankOutcome_returns. intros p _. by apply looser_returns.
    + apply rank_all_positive. intros p. destruct (Hscore p) as [_ Hbound]. lra.
Qed.

Lemma stop_word_query_witness :
  (forall product,
     every (Looser.importantTokenPresent (normalizeText asciiRuntime (title product)))
           (Looser.queryTokensOf asciiRuntime (lit "de com")) = Returns true
     /\ exists score,
          Looser.calculateMatchScore asciiRuntime product (lit "de com") = Returns score
          /\ (6000 - 3000 <= score)%Q
          /\ (0 < score)%Q)
  /\ (forall allProducts,
        exists ranked,
          rankOutcome (Looser.calculateMatchScore asciiRuntime) allProducts (lit "de com")
          = Returns ranked
          /\ length ranked = Nat.min (length allProducts) 15).
Proof.
  apply (stop_word_query_matches_every_product asciiRuntime (lit "de com")).
  - vm_compute. discriminate.
  - vm_compute. repeat constructor.
Defined.

(** ** C1: a title equal to the query *)

Lemma insertSorted_In {A : Type} (compareFn : A -> A -> Q) x y l :
  In y (insertSorted compareFn x l) <-> y = x \/ In y l.
Proof.
  induction l as [|z r IH]; simpl; [intuition|].
  destruct (Qlt_bool _ _); simpl; [rewrite IH|]; intuition.
Qed.

Lemma arraySort_In {A : Type} (compareFn : A -> A -> Q) y l :
  In y (arraySort compareFn l) <-> In y l.
Proof.
  induction l as [|x l IH]; simpl; [done|].
  rewrite insertSorted_In, IH. intuition.
Qed.

(** No product scores above the completeness bonus, the full weight of
    every token and the larger anchor bonus. *)
Lemma calculateMatchScore_upper_bound U product query :
  (LooserValue.calculateMatchScore U product query
   <= 6000 + totalWeight (Looser.queryTokensOf U query) + 2000)%Q.
Proof.
  pose proof (tokenSum_bounds (Looser.queryTokensOf U query)
                (splitOn 32%N (normalizeText U (title product)))) as Hsum.
  destruct (Looser.queryTokensOf U query) as [|anchorToken rest] eqn:E.
  - unfold LooserValue.calculateMatchScore. cbv zeta. rewrite E. simpl. lra.
  - assert (Hne : Looser.queryTokensOf U query <> []) by (by rewrite E).
    rewrite (calculateMatchScore_accumulates U product query Hne).
    unfold sumOfSteps, accessoryPenaltyOf. cbv zeta. rewrite E.
    pose proof (anchorBonus_bounds (LooserValue.synonymsOf (hd [] (anchorToken :: rest)))
                  (splitOn 32%N (normalizeText U (title product)))) as Hanchor.
    pose proof (accessoryPenalty_bounds (LooserValue.synonymsOf anchorToken)
                  (splitOn 32%N (normalizeText U (title product)))) as Hpen.
    destruct (forallb _ _); lra.
Qed.

(** The product whose normalized title is the normalized query collects
    every bonus in full; only the accessory penalty can be taken off. *)
Lemma calculateMatchScore_exact_title U product query :
  Looser.queryTokensOf U query <> [] ->
  normalizeText U (title product) = normalizeText U query ->
  (LooserValue.calculateMatchScore U product query
   == 6000 + totalWeight (Looser.queryTokensOf U query) + 2000
      - accessoryPenaltyOf U product query)%Q.
Proof.
  intros Hne Htitle.
  rewrite (calculateMatchScore_accumulates U product query Hne).
  unfold sumOfSteps. cbv zeta. rewrite Htitle.
  set (n := normalizeText U query).
  assert (Htokens : Looser.queryTokensOf U query
                    = List.filter (fun t => (0 <? length t)%nat) (splitOn 32%N n)) by done.
  assert (Hpiece : forall t, In t (Looser.queryTokensOf U query) -> In t (splitOn 32%N n)).
  { intros t Ht. rewrite Htokens in Ht. by apply List.filter_In in Ht as [Ht _]. }
  assert (Hgate : forallb (LooserValue.importantTokenPresent n) (Looser.queryTokensOf U query) = true).
  { apply forallb_forall. intros t Ht. unfold LooserValue.importantTokenPresent.
    destruct (arrayIncludes Looser.STOP_WORDS t); [done|].
    destruct (_ && _); [done|].
    pose proof (synonymsOf_self t) as Hself.
    apply existsb_exists in Hself as (s & Hs & Heq). apply streq_eq in Heq as ->.
    apply existsb_exists. exists t. split; [done|].
    apply (piece_included 32%N). by apply Hpiece. }
  assert (Hbest : Forall (fun qToken => (LooserValue.bestTokenScore qToken (splitOn 32%N n) == 1)%Q)
                         (Looser.queryTokensOf U query)).
  { apply List.Forall_forall. intros t Ht.
    apply (bestTokenScore_exact t _ t); [by apply Hpiece | apply synonymsOf_self]. }
  assert (Hanchor : LooserValue.anchorBonus (LooserValue.synonymsOf (hd [] (Looser.queryTokensOf U query)))
                      (splitOn 32%N n) = 2000%Q).
  { destruct (normalizeText_normalForm U query) as (_ & _ & Hclean & _).
    rewrite Htokens in Hne |- *.
    destruct (first_token_is_first_piece n Hclean Hne) as (first & pieces & Hsplit & Hfilter).
    rewrite Hfilter, Hsplit. simpl hd. unfold LooserValue.anchorBonus. simpl findIndex.
    by rewrite arrayIncludes_synonymsOf_self. }
  rewrite Hgate, (tokenSum_exact _ _ Hbest), Hanchor.
  unfold accessoryPenaltyOf. rewrite Htitle. fold n. lra.
Qed.

(** The value of the score of a product whose normalized title is the
    normalized query, and its place in the ranking by values. *)
Lemma exact_title_value (U : Unicode) (allProducts : list MappedProduct)
    (query : jsstring) (item : MappedProduct) :
  Looser.queryTokensOf U query <> [] ->
  normalizeText U (title item) = normalizeText U query ->
  In item allProducts ->
  let score := fun p => LooserValue.calculateMatchScore U p query in
  (0 < score item)%Q /\
  ((accessoryPenaltyOf U item query == 0)%Q ->
   (forall p, (score p <= score item)%Q) /\
   exists top rest,
     rank (LooserValue.calculateMatchScore U) allProducts query = top :: rest /\
     (matchScoreOr0 top == score item)%Q /\
     (forall pre post,
        allProducts = pre ++ item :: post ->
        Forall (fun p => ~ (score p == score item)%Q) pre ->
        top = withMatchScore item (score item))).
Proof.
  intros Hne Htitle Hin score.
  pose proof (calculateMatchScore_exact_title U item query Hne Htitle) as Hexact.
  fold (score item) in Hexact.
  assert (Hweight : (0 <= totalWeight (Looser.queryTokensOf U query))%Q).
  { pose proof (tokenSum_bounds (Looser.queryTokensOf U query) []) as H. lra. }
  assert (Hpos : (0 < score item)%Q).
  { unfold accessoryPenaltyOf in Hexact.
    destruct (Looser.queryTokensOf U query) as [|anchorToken rest]; [done|].
    pose proof (accessoryPenalty_bounds (LooserValue.synonymsOf anchorToken)
                  (splitOn 32%N (normalizeText U (title item)))) as Hpen.
    lra. }
  split; [done|]. intros Hnopen.
  assert (Hmax : forall p, (score p <= score item)%Q).
  { intros p. pose proof (calculateMatchScore_upper_bound U p query) as Hp.
    unfold score at 1. lra. }
  split; [done|].
  set (compareFn := fun a b : MappedProduct => (matchScoreOr0 b - matchScoreOr0 a)%Q).
  set (candidates := List.filter (fun p => Qlt_bool 0 (matchScoreOr0 p))
                       (scored (LooserValue.calculateMatchScore U) allProducts query)).
  assert (Hcand : In (withMatchScore item (score item)) candidates).
  { apply List.filter_In. split.
    - unfold scored. apply in_map_iff. by exists item.
    - by apply Qlt_bool_iff. }
  assert (Hsorted : In (withMatchScore item (score item)) (arraySort compareFn candidates))
    by (by apply arraySort_In).
  pose proof (arraySort_descending matchScoreOr0 candidates) as Hdesc.
  fold compareFn in Hdesc.
  assert (Hbound : Forall (fun p => (matchScoreOr0 p <= score item)%Q)
                          (arraySort compareFn candidates)).
  { apply (arraySort_Forall matchScoreOr0). apply List.Forall_forall. intros p Hp.
    apply List.filter_In in Hp as [Hp _]. unfold scored in Hp.
    apply in_map_iff in Hp as (c & <- & _). apply Hmax. }
  rewrite rank_unfold. fold candidates compareFn.
  destruct (arraySort compareFn candidates) as [|top sorted] eqn:Esort; [done|].
  exists top, (take 14 sorted). split; [done|]. split.
  - apply Forall_inv in Hbound. destruct Hdesc as [Hrest _].
    destruct Hsorted as [-> | Hlater]; [done|].
    rewrite List.Forall_forall in Hrest. specialize (Hrest _ Hlater).
    rewrite matchScoreOr0_withMatchScore in Hrest. lra.
  - intros pre post -> Hpre.
    assert (Hsplit : candidates =
              List.filter (fun p => Qlt_bool 0 (matchScoreOr0 p))
                (scored (LooserValue.calculateMatchScore U) pre query)
              ++ withMatchScore item (score item)
                 :: List.filter (fun p => Qlt_bool 0 (matchScoreOr0 p))
                      (scored (LooserValue.calculateMatchScore U) post query)).
    { unfold candidates, scored. rewrite map_app, List.filter_app. simpl.
      assert (Hp : Qlt_bool 0 (matchScoreOr0 (withMatchScore item
                     (LooserValue.calculateMatchScore U item query))) = true)
        by (by apply Qlt_bool_iff).
      by rewrite Hp. }
    destruct (arraySort_head matchScoreOr0
                (List.filter (fun p => Qlt_bool 0 (matchScoreOr0 p))
                   (scored (LooserValue.calculateMatchScore U) pre query))
                (withMatchScore item (score item))
                (List.filter (fun p => Qlt_bool 0 (matchScoreOr0 p))
                   (scored (LooserValue.calculateMatchScore U) post query)))
      as [rest Hhead].
    + apply List.Forall_forall. intros p Hp.
      apply List.filter_In in Hp as [Hp _]. unfold scored in Hp.
      apply in_map_iff in Hp as (c & <- & Hc). simpl.
      rewrite List.Forall_forall in Hpre. specialize (Hpre c Hc).
      specialize (Hmax c). fold (score c).
      destruct (Qlt_le_dec (score c) (score item)) as [Hlt|Hge]; [done|].
      exfalso. apply Hpre. lra.
    + apply List.Forall_forall. intros p Hp.
      apply List.filter_In in Hp as [Hp _]. unfold scored in Hp.
      apply in_map_iff in Hp as (c & <- & Hc). simpl. apply Hmax.
    + rewrite <- Hsplit in Hhead. fold compareFn in Hhead.
      rewrite Hhead in Esort. by injection Esort as ->.
Qed.

(** C1, as the code has it.  When the query has at least one token, none
    of them the word constructor, the scorer returns a score for every
    product.  If the normalized title of a catalog item equals the
    normalized query, the item's score is strictly positive; and unless
    the accessory penalty applies to the item, no product scores higher,
    the ranking is not empty, its first candidate has the item's score,
    and it is the item itself when no earlier catalog entry has that same
    score. *)
Theorem exact_title_attains_top_score (U : Unicode) (allProducts : list MappedProduct)
    (query : jsstring) (item : MappedProduct) :
  Looser.queryTokensOf U query <> [] ->
  ~ In (lit "constructor") (Looser.queryTokensOf U query) ->
  normalizeText U (title item) = normalizeText U query ->
  In item allProducts ->
  exists score : MappedProduct -> Q,
    (forall p, Looser.calculateMatchScore U p query = Returns (score p)) /\
    (0 < score item)%Q /\
    ((accessoryPenaltyOf U item query == 0)%Q ->
     (forall p, (score p <= score item)%Q) /\
     exists top rest,
       rankOutcome (Looser.calculateMatchScore U) allProducts query = Returns (top :: rest) /\
       (matchScoreOr0 top == score item)%Q /\
       (forall pre post,
          allProducts = pre ++ item :: post ->
          Forall (fun p => ~ (score p == score item)%Q) pre ->
          top = withMatchScore item (score item))).
Proof.
  intros Hne Hnot Htitle Hin.
  pose proof (queryTokens_ordinary U query Hnot) as Hord.
  exists (fun p => LooserValue.calculateMatchScore U p query).
  destruct (exact_title_value U allProducts query item Hne Htitle Hin) as [Hpos Hrest].
  split; [intros p; by apply looser_returns|]. split; [exact Hpos|].
  intros Hnopen. destruct (Hrest Hnopen) as (Hmax & top & rest & Hrank & Htop & Hfirst).
  split; [exact Hmax|]. exists top, rest. split; [|done].
  rewrite <- Hrank. apply rankOutcome_returns. intros p _. by apply looser_returns.
Qed.

(** ** C3: the two scoring policies *)

Section StricterFacts.
Import Stricter.
Import StricterValue.
Local Open Scope Z_scope.

Lemma anchorUnmatched_starts anchorSynonyms productWords :
  anchorUnmatched anchorSynonyms productWords ->
  productStartsWithAnchor anchorSynonyms productWords = false.
Proof.
  intros [Heq Hpre]. unfold productStartsWithAnchor.
  destruct productWords as [|first rest]; [done|].
  apply not_true_is_false. intros H.
  apply existsb_exists in H as (syn & Hsyn & H).
  apply orb_true_iff in H as [H|H].
  - apply streq_eq in H. apply (Heq syn first); [done | by left | done].
  - by rewrite (Hpre syn first rest Hsyn eq_refl) in H.
Qed.

Lemma anchorUnmatched_contains anchorSynonyms productWords :
  anchorUnmatched anchorSynonyms productWords ->
  productContainsAnchor anchorSynonyms productWords = false.
Proof.
  intros [Heq _]. unfold productContainsAnchor, arrayIncludes.
  apply not_true_is_false. intros H.
  apply existsb_exists in H as (syn & Hsyn & H).
  apply existsb_exists in H as (word & Hword & H).
  apply streq_eq in H. by apply (Heq syn word).
Qed.

Lemma matchWord_divisible token best word :
  (200 | best) -> (200 | matchWord token best word).
Proof.
  intros Hb. unfold matchWord. cbv zeta.
  destruct (existsb _ _); [by exists 10|].
  destruct (_ <=? _)%nat; [|done].
  apply Z.max_case; [done|].
  exists (5 - Z.of_nat (levenshtein token word)). lia.
Qed.

Lemma bestMatch_divisible token productWords : (200 | bestMatch token productWords).
Proof.
  unfold bestMatch.
  assert (H : forall best, (200 | best) -> (200 | fold_left (matchWord token) productWords best)).
  { induction productWords as [|word ws IH]; intros best Hb; [done|].
    simpl. by apply IH, matchWord_divisible. }
  apply H. by exists 0.
Qed.

Lemma accumulate_divisible queryTokens anchorSynonyms productWords score :
  (200 | score) -> (200 | accumulate queryTokens anchorSynonyms productWords score).
Proof.
  intros Hs. unfold accumulate. cbv zeta.
  assert (H : forall s, (200 | s) ->
    (200 | fold_left (fun score token => score + bestMatch token productWords) queryTokens s)).
  { induction queryTokens as [|token ts IH]; intros s Hd; [done|].
    simpl. apply IH. apply Z.divide_add_r; [done | apply bestMatch_divisible]. }
  apply H. destruct (_ && _); [|done].
  apply Z.divide_sub_r; [done | by exists 20].
Qed.

Lemma stricterAccumulation_divisible U product query :
  (200 | stricterAccumulation U product query).
Proof.
  unfold stricterAccumulation. cbv zeta. apply accumulate_divisible.
  apply Z.divide_add_r.
  - destruct (forallb _ _); [by exists 25 | by exists 0].
  - destruct (productStartsWithAnchor _ _); [by exists 25|].
    destruct (productContainsAnchor _ _); [by exists 5 | by exists 0].
Qed.

(** Unless the rejection fires, the score is the accumulation. *)
Lemma calculateMatchScore_not_rejected U product query :
  queryTokensOf U query <> [] ->
  (productStartsWithAnchor (synonymsOf (hd [] (queryTokensOf U query)))
     (splitOn 32%N (normalizeText U (title product))) = true
   \/ productContainsAnchor (synonymsOf (hd [] (queryTokensOf U query)))
        (splitOn 32%N (normalizeText U (title product))) = true
   \/ length (queryTokensOf U query) = 1%nat) ->
  calculateMatchScore U product query = stricterAccumulation U product query.
Proof.
  intros Hne H. unfold calculateMatchScore, stricterAccumulation. cbv zeta.
  destruct (queryTokensOf U query) as [|anchorToken rest] eqn:E; [done|].
  simpl hd in *.
  destruct (productStartsWithAnchor _ _) eqn:Es.
  { f_equal; destruct (forallb _ _); lia. }
  destruct (productContainsAnchor _ _) eqn:Ec.
  { f_equal; destruct (forallb _ _); lia. }
  destruct H as [H | [H | H]]; [done | done |].
  assert (Hone : (1 <? length (anchorToken :: rest))%nat = false)
    by (apply Nat.ltb_ge; lia).
  rewrite Hone. f_equal; destruct (forallb _ _); lia.
Qed.

Lemma calculateMatchScore_rejected U product query :
  (1 < length (queryTokensOf U query))%nat ->
  anchorUnmatched (synonymsOf (hd [] (queryTokensOf U query)))
    (splitOn 32%N (normalizeText U (title product))) ->
  calculateMatchScore U product query = -1.
Proof.
  intros Hmulti Hun. unfold calculateMatchScore. cbv zeta.
  destruct (queryTokensOf U query) as [|anchorToken rest] eqn:E; [simpl in Hmulti; lia|].
  simpl hd in Hun.
  rewrite (anchorUnmatched_starts _ _ Hun), (anchorUnmatched_contains _ _ Hun).
  by rewrite (proj2 (Nat.ltb_lt _ _) Hmulti).
Qed.

(** The anchor test fails exactly when both of its tests answer false. *)
Lemma anchorUnmatched_from_tests anchorSynonyms productWords :
  productStartsWithAnchor anchorSynonyms productWords = false ->
  productContainsAnchor anchorSynonyms productWords = false ->
  anchorUnmatched anchorSynonyms productWords.
Proof.
  intros Hstart Hcontain. split.
  - intros syn word Hsyn Hword ->.
    assert (H : productContainsAnchor anchorSynonyms productWords = true);
      [|congruence].
    apply existsb_exists. exists word. split; [done|].
    apply existsb_exists. exists word. split; [done | apply streq_refl].
  - intros syn first rest Hsyn ->.
    apply not_true_is_false. intros H.
    assert (H' : productStartsWithAnchor anchorSynonyms (first :: rest) = true);
      [|congruence].
    apply existsb_exists. exists syn. split; [done|]. rewrite H. apply orb_true_r.
Qed.

Lemma stricter_synonyms_contract t :
  thesaurusSynonyms Stricter.medicalThesaurus t = synonymsOf t.
Proof.
  unfold thesaurusSynonyms, synonymsOf. by destruct (lookupKey Stricter.medicalThesaurus t).
Qed.
End StricterFacts.

(** C3, as the code has it.  For a query without the token constructor
    the two policies diverge as follows.  When the query has several
    tokens and its anchor fails the stricter anchor test (no synonym of the
    anchor equals a title token, and none begins the first title token),
    the stricter policy returns the negative value -1, while the looser
    policy rejects nothing: it returns the weighted accumulation of the
    specification, which is never below the accessory penalty.  When the
    anchor passes the test, or the query has one token only, the stricter
    policy does not reject: it returns a multiple of 200, never -1. *)
Theorem scoring_policies_diverge (U : Unicode) (product : MappedProduct) (query : jsstring) :
  let queryTokens := Stricter.queryTokensOf U query in
  let productWords := splitOn 32%N (normalizeText U (title product)) in
  let anchorSynonyms := thesaurusSynonyms Stricter.medicalThesaurus (hd [] queryTokens) in
  ~ In (lit "constructor") queryTokens ->
  ((1 < length queryTokens)%nat ->
   anchorUnmatched anchorSynonyms productWords ->
   Stricter.calculateMatchScore U product query = Returns (-1)%Z
   /\ exists score,
        Looser.calculateMatchScore U product query = Returns score
        /\ (score == weightedAccumulation U product query)%Q
        /\ (-3000 <= score)%Q)
  /\
  (length queryTokens = 1%nat \/
   (queryTokens <> [] /\ ~ anchorUnmatched anchorSynonyms productWords) ->
   exists score,
     Stricter.calculateMatchScore U product query = Returns score
     /\ score <> (-1)%Z
     /\ (200 | score)%Z).
Proof.
  intros queryTokens productWords anchorSynonyms Hnot.
  assert (Hord : Forall ordinary queryTokens) by (by apply queryTokens_ordinary).
  unfold anchorSynonyms. rewrite stricter_synonyms_contract. split.
  - intros Hmulti Hun.
    rewrite (stricter_returns U product query Hord).
    rewrite (calculateMatchScore_rejected U product query Hmulti Hun).
    split; [done|].
    assert (Hne : Looser.queryTokensOf U query <> []).
    { change (Looser.queryTokensOf U query) with queryTokens.
      destruct queryTokens; [simpl in Hmulti; lia | done]. }
    exists (LooserValue.calculateMatchScore U product query).
    split; [by apply looser_returns|].
    split; [by apply calculateMatchScore_weighted|].
    rewrite (calculateMatchScore_accumulates U product query Hne).
    unfold sumOfSteps, accessoryPenaltyOf. cbv zeta.
    pose proof (tokenSum_bounds (Looser.queryTokensOf U query)
                  (splitOn 32%N (normalizeText U (title product)))) as Hsum.
    pose proof (anchorBonus_bounds
                  (LooserValue.synonymsOf (hd [] (Looser.queryTokensOf U query)))
                  (splitOn 32%N (normalizeText U (title product)))) as Hanchor.
    destruct (Looser.queryTokensOf U query) as [|anchorToken rest]; [done|].
    pose proof (accessoryPenalty_bounds (LooserValue.synonymsOf anchorToken)
                  (splitOn 32%N (normalizeText U (title product)))) as Hpen.
    destruct (forallb _ _); lra.
  - intros Hcase.
    assert (Hne : Stricter.queryTokensOf U query <> []).
    { fold queryTokens. destruct Hcase as [Hone | [Hne _]]; [|done].
      by destruct queryTokens. }
    exists (StricterValue.calculateMatchScore U product query).
    split; [by apply stricter_returns|].
    assert (Hacc : StricterValue.calculateMatchScore U product query
                   = stricterAccumulation U product query).
    { apply calculateMatchScore_not_rejected; [done|].
      destruct Hcase as [Hone | [_ Hmatched]]; [by right; right|].
      fold queryTokens productWords.
      destruct (StricterValue.productStartsWithAnchor _ productWords) eqn:Es; [by left|].
      destruct (StricterValue.productContainsAnchor
                  (StricterValue.synonymsOf (hd [] queryTokens)) productWords) eqn:Ec;
        [by right; left|].
      exfalso. apply Hmatched. by apply anchorUnmatched_from_tests. }
    rewrite Hacc.
    destruct (stricterAccumulation_divisible U product query) as [k Hk].
    split; [lia | by exists k].
Qed.


(** ** The ids the catalog loader generates *)

Lemma lit_inj (a b : string) : lit a = lit b -> a = b.
Proof.
  revert b. induction a as [|c a IH]; intros [|d b]; simpl; try done.
  intros [= Hc Hr]. f_equal; [|by apply IH].
  by rewrite <- (ascii_N_embedding c), <- (ascii_N_embedding d), Hc.
Qed.

Lemma decimal_inj (m n : N) : decimal m = decimal n -> m = n.
Proof.
  unfold decimal. intros H. apply lit_inj in H.
  assert (Huint : N.to_uint m = N.to_uint n).
  { pose proof (NilEmpty.usu (N.to_uint m)) as Hm.
    pose proof (NilEmpty.usu (N.to_uint n)) as Hn.
    rewrite H in Hm. congruence. }
  by rewrite <- (DecimalN.Unsigned.of_to m), <- (DecimalN.Unsigned.of_to n), Huint.
Qed.

Lemma decimal_digits (n : N) : Forall (fun c => isDigit c = true) (decimal n).
Proof.
  unfold decimal. induction (N.to_uint n); simpl;
    [apply Forall_nil_2 | apply Forall_cons; split; [reflexivity|done] ..].
Qed.

Lemma isDigit_not_blank c : isDigit c = true -> isWhiteSpace c = false.
Proof.
  unfold isDigit, isWhiteSpace, inRange. intros H.
  apply andb_true_iff in H as [Hlo Hhi].
  apply N.leb_le in Hlo, Hhi.
  repeat (apply orb_false_iff; split);
    first [ apply N.eqb_neq; lia
          | apply andb_false_iff;
            first [ left; apply N.leb_gt; lia | right; apply N.leb_gt; lia ] ].
Qed.

Lemma digits_prefix_inj (a b x y : jsstring) :
  Forall (fun c => isDigit c = true) a -> Forall (fun c => isDigit c = true) b ->
  a ++ 45%N :: x = b ++ 45%N :: y -> a = b.
Proof.
  intros Ha. revert b. induction Ha as [|c a Hc _ IH]; intros b Hb Heq.
  - destruct Hb as [|d b Hd _]; [done|].
    simpl in Heq. injection Heq as <- _. done.
  - destruct Hb as [|d b Hd Hb].
    + simpl in Heq. injection Heq as -> _. done.
    + simpl in Heq. injection Heq as -> Heq. f_equal. by apply (IH b Hb).
Qed.

Section LoaderIds.
Context (U : Unicode) (parseFloat : jsstring -> option Q) (Date_now : nat -> N).

Local Abbreviation mapRowOf := (mapRow parseFloat Date_now).
Local Abbreviation parseProductsOf := (parseProducts U parseFloat Date_now).
Local Abbreviation loaded := (fetchAndParseProducts U parseFloat Date_now).

Lemma mapRow_id headers index line :
  id (mapRowOf headers index line)
  = lit "prod-" ++ decimal (N.of_nat index) ++ lit "-" ++ decimal (Date_now index).
Proof. done. Qed.

Lemma mapRow_id_inj headers i j line line' :
  id (mapRowOf headers i line) = id (mapRowOf headers j line') -> i = j.
Proof.
  rewrite !mapRow_id. intros H. apply app_inv_head in H.
  change (lit "-" ++ ?t) with (45%N :: t) in H.
  apply digits_prefix_inj in H; [|apply decimal_digits..].
  apply decimal_inj in H. lia.
Qed.

Lemma parseProducts_rows text p :
  In p (parseProductsOf text) ->
  exists headers index line, p = mapRowOf headers index line.
Proof.
  unfold parseProducts. destruct (_ <? 2)%nat; [done|].
  destruct (List.filter _ _) as [|headerLine dataLines]; [done|].
  intros Hp. apply list_elem_of_In, elem_of_lookup_imap_1 in Hp as (i & line & -> & _).
  eauto.
Qed.

Lemma loaded_rows response p :
  In p (loaded response) ->
  exists headers index line, p = mapRowOf headers index line.
Proof.
  unfold fetchAndParseProducts. destruct response as [|ok [body|]]; try done.
  - destruct ok; [|done]. simpl. destruct (startsWith _ _); [done|].
    apply parseProducts_rows.
  - by destruct ok.
Qed.

Lemma parseProducts_ids_NoDup text : NoDup (map id (parseProductsOf text)).
Proof.
  unfold parseProducts. destruct (_ <? 2)%nat; [apply NoDup_nil_2|].
  destruct (List.filter _ _) as [|headerLine dataLines]; [apply NoDup_nil_2|].
  apply NoDup_alt. intros i j x Hi Hj.
  rewrite list_lookup_fmap, list_lookup_imap in Hi, Hj.
  destruct (dataLines !! i) as [li|]; [|done].
  destruct (dataLines !! j) as [lj|]; [|done].
  simpl in Hi, Hj. injection Hi as Hi. injection Hj as Hj.
  rewrite <- Hj in Hi. by apply mapRow_id_inj in Hi.
Qed.

Lemma loaded_ids_NoDup response : NoDup (map id (loaded response)).
Proof.
  unfold fetchAndParseProducts.
  destruct response as [|ok [body|]]; try apply NoDup_nil_2.
  - destruct ok; [|apply NoDup_nil_2]. simpl.
    destruct (startsWith _ _); [apply NoDup_nil_2|]. apply parseProducts_ids_NoDup.
  - destruct ok; apply NoDup_nil_2.
Qed.

Lemma loaded_ids_nonempty response : Forall (fun p => id p <> []) (loaded response).
Proof.
  apply List.Forall_forall. intros p Hp.
  apply loaded_rows in Hp as (headers & index & line & ->).
  by rewrite mapRow_id.
Qed.
End LoaderIds.

(** ** Double-precision arithmetic *)

Section Doubles.
Local Open Scope Q_scope.

Lemma pow2_pos e : 0 < 2 ^ e.
Proof. apply Qpower_0_lt. lra. Qed.

Lemma pow2_add a b : 2 ^ (a + b) == 2 ^ a * 2 ^ b.
Proof. apply Qpower_plus. lra. Qed.

Lemma pow2_le a b : (a <= b)%Z -> 2 ^ a <= 2 ^ b.
Proof. intros H. apply Qpower_le_compat_l; [exact H | lra]. Qed.

Lemma pow2_lt a b : (a < b)%Z -> 2 ^ a < 2 ^ b.
Proof. intros H. apply Qpower_lt_compat_l; [exact H | lra]. Qed.

Lemma pow2_lt_inv a b : 2 ^ a < 2 ^ b -> (a < b)%Z.
Proof. intros H. apply (Qpower_lt_compat_l_inv 2); [exact H | lra]. Qed.

Lemma pow2_inject n : (0 <= n)%Z -> inject_Z (2 ^ n) == 2 ^ n.
Proof. intros H. rewrite (Zpower_Qpower 2 n H). reflexivity. Qed.

Lemma log2_bounds a : (0 < a)%Z ->
  2 ^ (Z.log2 a) <= inject_Z a /\ inject_Z a < 2 ^ (Z.log2 a + 1).
Proof.
  intros Ha. destruct (Z.log2_spec a Ha) as [Hlo Hhi].
  pose proof (Z.log2_nonneg a) as Hnn.
  rewrite <- (pow2_inject (Z.log2 a)) by lia.
  rewrite <- (pow2_inject (Z.log2 a + 1)) by lia.
  rewrite <- Zle_Qle, <- Zlt_Qlt. replace (Z.log2 a + 1)%Z with (Z.succ (Z.log2 a)) by lia.
  lia.
Qed.

Lemma Qabs_as_quotient x :
  Qabs x * inject_Z (Zpos (Qden x)) == inject_Z (Z.abs (Qnum x)).
Proof.
  destruct x as [n d]. unfold Qabs, Qeq, Qmult, inject_Z. simpl. lia.
Qed.

Lemma floorLog2_spec x :
  ~ x == 0 -> 2 ^ floorLog2 x <= Qabs x /\ Qabs x < 2 ^ (floorLog2 x + 1).
Proof.
  intros Hx.
  assert (Hn : (0 < Z.abs (Qnum x))%Z).
  { destruct x as [n d]. unfold Qeq in Hx. simpl in *. lia. }
  destruct (log2_bounds _ Hn) as [Hlo Hhi].
  destruct (log2_bounds (Zpos (Qden x)) ltac:(lia)) as [Dlo Dhi].
  pose proof (Qabs_as_quotient x) as Hq.
  set (A := inject_Z (Z.abs (Qnum x))) in *.
  set (D := inject_Z (Zpos (Qden x))) in *.
  set (la := Z.log2 (Z.abs (Qnum x))) in *.
  set (ld := Z.log2 (Zpos (Qden x))) in *.
  assert (HD : 0 < D) by (unfold D; rewrite <- (Zlt_Qlt 0); lia).
  assert (Hup : Qabs x < 2 ^ (la - ld + 1)).
  { assert (H1 : 2 ^ (la + 1) == 2 ^ (la - ld + 1) * 2 ^ ld).
    { rewrite <- pow2_add. replace (la - ld + 1 + ld)%Z with (la + 1)%Z by lia. reflexivity. }
    pose proof (pow2_pos (la - ld + 1)) as Hp.
    assert (H2 : Qabs x * D < 2 ^ (la - ld + 1) * D).
    { rewrite Hq. apply Qlt_le_trans with (2 ^ (la + 1)); [done|].
      rewrite H1. apply Qmult_le_l; [done | done]. }
    apply Qmult_lt_r in H2; done. }
  assert (Hdown : 2 ^ (la - ld - 1) < Qabs x).
  { assert (H1 : 2 ^ la == 2 ^ (la - ld - 1) * 2 ^ (ld + 1)).
    { rewrite <- pow2_add. replace (la - ld - 1 + (ld + 1))%Z with la by lia. reflexivity. }
    pose proof (pow2_pos (la - ld - 1)) as Hp.
    assert (H2 : 2 ^ (la - ld - 1) * D < Qabs x * D).
    { rewrite Hq. apply Qlt_le_trans with (2 ^ la); [|done].
      rewrite H1. apply Qmult_lt_l; [done | done]. }
    apply Qmult_lt_r in H2; done. }
  unfold floorLog2. fold la ld. cbv zeta.
  destruct (Qle_bool (2 ^ (la - ld)) (Qabs x)) eqn:E.
  - apply Qle_bool_iff in E. split; [done | done].
  - assert (Hlt : Qabs x < 2 ^ (la - ld)).
    { apply Qnot_le_lt. intros H. apply Qle_bool_iff in H. congruence. }
    split.
    + apply Qlt_le_weak. exact Hdown.
    + replace (la - ld - 1 + 1)%Z with (la - ld)%Z by lia. exact Hlt.
Qed.

Lemma roundHalfEven_proper x y : x == y -> roundHalfEven x = roundHalfEven y.
Proof.
  intros H. unfold roundHalfEven. cbv zeta.
  rewrite (Qfloor_comp x y H).
  assert (Hc : Qcompare (x - inject_Z (Qfloor y)) (1 # 2)
               = Qcompare (y - inject_Z (Qfloor y)) (1 # 2)).
  { apply Qcompare_comp; [by rewrite H | reflexivity]. }
  by rewrite Hc.
Qed.

Lemma roundHalfEven_integer z : roundHalfEven (inject_Z z) = z.
Proof.
  unfold roundHalfEven. cbv zeta. rewrite Qfloor_Z.
  assert (Hc : Qcompare (inject_Z z - inject_Z z) (1 # 2) = Lt).
  { apply Qlt_alt. unfold Qminus. rewrite Qplus_opp_r. reflexivity. }
  by rewrite Hc.
Qed.

Lemma roundHalfEven_bounds x (N : Z) :
  - inject_Z N <= x <= inject_Z N -> (- N <= roundHalfEven x <= N)%Z.
Proof.
  intros [Hlo Hhi].
  pose proof (Qfloor_le x) as Hfl. pose proof (Qlt_floor x) as Hlt.
  assert (Hf1 : (- N <= Qfloor x)%Z).
  { assert (H : inject_Z (- N) < inject_Z (Qfloor x + 1)).
    { rewrite inject_Z_opp. lra. }
    rewrite <- Zlt_Qlt in H. lia. }
  assert (Hf2 : (Qfloor x <= N)%Z).
  { rewrite Zle_Qle. lra. }
  unfold roundHalfEven. cbv zeta.
  assert (Hup : ~ x - inject_Z (Qfloor x) < 1 # 2 -> (Qfloor x + 1 <= N)%Z).
  { intros Hhalf.
    assert (H : inject_Z (Qfloor x) < inject_Z N) by lra.
    rewrite <- Zlt_Qlt in H. lia. }
  destruct (Qcompare (x - inject_Z (Qfloor x)) (1 # 2)) eqn:E.
  - apply Qeq_alt in E. destruct (Z.even (Qfloor x)); [lia|].
    assert (Qfloor x + 1 <= N)%Z by (apply Hup; lra). lia.
  - lia.
  - apply Qgt_alt in E. assert (Qfloor x + 1 <= N)%Z by (apply Hup; lra). lia.
Qed.

Lemma roundDouble_proper x y : x == y -> roundDouble x = roundDouble y.
Proof. intros H. unfold roundDouble. by rewrite (Qred_complete x y H). Qed.

Lemma roundDouble_zero x : x == 0 -> roundDouble x = 0.
Proof. intros H. by rewrite (roundDouble_proper x 0 H). Qed.

Lemma roundDouble_reduced x : Qred (roundDouble x) = roundDouble x.
Proof.
  unfold roundDouble. cbv zeta. destruct (Qeq_bool (Qred x) 0); [done|].
  apply Qred_complete, Qred_correct.
Qed.

Lemma Qabs_scaled (k j : Z) : Qabs (inject_Z k * 2 ^ j) == inject_Z (Z.abs k) * 2 ^ j.
Proof.
  rewrite Qabs_Qmult. rewrite (Qabs_pos (2 ^ j)) by (apply Qlt_le_weak, pow2_pos).
  assert (H : Qabs (inject_Z k) == inject_Z (Z.abs k)).
  { unfold Qabs, inject_Z. simpl. reflexivity. }
  by rewrite H.
Qed.

(** A representable value is left as it is. *)
Lemma roundDouble_fixes y : isDouble y -> roundDouble y = Qred y.
Proof.
  intros (k & j & Hk & Hj & Hy).
  destruct (Z.eq_dec k 0%Z) as [-> | Hk0].
  { assert (H0 : y == 0) by (rewrite Hy; change (inject_Z 0) with 0; lra).
    rewrite (roundDouble_zero y H0). by rewrite (Qred_complete y 0 H0). }
  pose proof (pow2_pos j) as Hpj.
  assert (Hred : Qred y == inject_Z k * 2 ^ j) by (by rewrite Qred_correct).
  assert (Hne : ~ Qred y == 0).
  { rewrite Hred. intros H. apply Qmult_integral in H as [H | H]; [|lra].
    apply Hk0. apply inject_Z_injective. exact H. }
  unfold roundDouble. cbv zeta.
  destruct (Qeq_bool (Qred y) 0) eqn:E; [by apply Qeq_bool_iff in E|]. clear E.
  destruct (floorLog2_spec (Qred y) Hne) as [Hlo _].
  set (fl := floorLog2 (Qred y)) in *.
  set (e := Z.max (fl - 52) (-1074)).
  assert (He : (e <= j)%Z).
  { assert (Hlt : 2 ^ fl < 2 ^ (53 + j)).
    { apply Qle_lt_trans with (Qabs (Qred y)); [done|].
      rewrite Hred, Qabs_scaled, pow2_add.
      apply Qmult_lt_r; [done|].
      rewrite <- (pow2_inject 53) by lia. rewrite <- Zlt_Qlt. done. }
    apply pow2_lt_inv in Hlt. unfold e. lia. }
  pose proof (pow2_pos e) as Hpe.
  assert (Hint : Qred y / 2 ^ e == inject_Z (k * 2 ^ (j - e))).
  { rewrite Hred, inject_Z_mult, (pow2_inject (j - e)) by lia.
    replace j with ((j - e) + e)%Z at 1 by lia. rewrite pow2_add.
    field. lra. }
  rewrite (roundHalfEven_proper _ _ Hint), roundHalfEven_integer.
  apply Qred_complete. rewrite Hy.
  rewrite inject_Z_mult, (pow2_inject (j - e)) by lia.
  replace j with ((j - e) + e)%Z at 2 by lia. rewrite pow2_add. ring.
Qed.

(** What [roundDouble] returns is representable. *)
Lemma roundDouble_isDouble x : isDouble (roundDouble x).
Proof.
  unfold roundDouble. cbv zeta.
  destruct (Qeq_bool (Qred x) 0) eqn:E.
  { exists 0%Z, 0%Z. split; [done|]. split; [lia|]. reflexivity. }
  assert (Hne : ~ Qred x == 0).
  { intros H. apply Qeq_bool_iff in H. congruence. }
  destruct (floorLog2_spec (Qred x) Hne) as [_ Hhi].
  set (fl := floorLog2 (Qred x)) in *.
  set (e := Z.max (fl - 52) (-1074)).
  pose proof (pow2_pos e) as Hpe.
  assert (Hs : Qabs (Qred x / 2 ^ e) < inject_Z (2 ^ 53)).
  { unfold Qdiv. rewrite Qabs_Qmult, (Qabs_pos (/ 2 ^ e)).
    2: { apply Qlt_le_weak, Qinv_lt_0_compat, Hpe. }
    apply Qlt_shift_div_r; [done|].
    apply Qlt_le_trans with (2 ^ (fl + 1)); [done|].
    rewrite (pow2_inject 53) by lia. rewrite <- pow2_add.
    apply pow2_le. unfold e. lia. }
  set (s := Qred x / 2 ^ e) in *.
  assert (Hm : (- 2 ^ 53 <= roundHalfEven s <= 2 ^ 53)%Z).
  { apply roundHalfEven_bounds. apply Qabs_Qlt_condition in Hs.
    destruct Hs as [Hs1 Hs2]. split; apply Qlt_le_weak; assumption. }
  set (m := roundHalfEven s) in *.
  destruct (Z.eq_dec (Z.abs m) (2 ^ 53)%Z) as [Hmax | Hless].
  - exists (m / 2)%Z, (e + 1)%Z.
    assert (Hm2 : m = (2 * (m / 2))%Z).
    { assert (Hcases : m = (2 ^ 53)%Z \/ m = (- 2 ^ 53)%Z) by lia.
      destruct Hcases as [-> | ->]; vm_compute; reflexivity. }
    split; [|split].
    + assert (Hcases : m = (2 ^ 53)%Z \/ m = (- 2 ^ 53)%Z) by lia.
      destruct Hcases as [-> | ->]; vm_compute; reflexivity.
    + unfold e. lia.
    + rewrite Qred_correct. rewrite Hm2 at 1. rewrite inject_Z_mult, pow2_add.
      change (inject_Z 2) with 2. change (2 ^ 1) with 2. ring.
  - exists m, e. split; [lia|]. split; [unfold e; lia|]. apply Qred_correct.
Qed.

Lemma roundDouble_idempotent x : roundDouble (roundDouble x) = roundDouble x.
Proof.
  rewrite (roundDouble_fixes _ (roundDouble_isDouble x)). apply roundDouble_reduced.
Qed.

Lemma times_zero_l y : times 0 y = 0.
Proof. apply roundDouble_zero. lra. Qed.

Lemma times_zero_r x : times x 0 = 0.
Proof. apply roundDouble_zero. lra. Qed.


Lemma plus_zero_r x : plus (roundDouble x) 0 = roundDouble x.
Proof.
  unfold plus. rewrite (roundDouble_proper (roundDouble x + 0) (roundDouble x)) by lra.
  apply roundDouble_idempotent.
Qed.

Lemma times_rounded x y : roundDouble (times x y) = times x y.
Proof. apply roundDouble_idempotent. Qed.

Lemma plus_rounded x y : roundDouble (plus x y) = plus x y.
Proof. apply roundDouble_idempotent. Qed.


Lemma plus_exact x y : isDouble (x + y) -> plus x y == x + y.
Proof.
  intros H. unfold plus. rewrite (roundDouble_fixes _ H). apply Qred_correct.
Qed.


(** The arithmetic of the scorers is exact.  The quality
    [1.0 - dist * 0.2] of a near miss at distance 0, 1 or 2 and the
    quality 0.9 of a prefix, times each weight they can meet, come out in
    double precision as the exact products, which are integers. *)
Lemma score_products_exact :
  Forall (fun dist =>
            Forall (fun weight =>
                      times (plus 1 (- times (numberOf dist) (roundDouble 0.2))) weight
                      == (1 - inject_Z dist * 0.2) * weight)
                   [500; 2500; 4500])
         [0; 1; 2]%Z
  /\ Forall (fun weight => times (roundDouble 0.9) weight == 0.9 * weight) [2500; 4500].
Proof.
  split; repeat first [apply Forall_nil_2 | apply Forall_cons; split];
    vm_compute; reflexivity.
Qed.

(** Money is not: three times one tenth is 0.30000000000000004. *)
Lemma three_tenths_inexact :
  times (roundDouble (1 # 10)) 3 = 1351079888211149 # 4503599627370496
  /\ ~ times (roundDouble (1 # 10)) 3 == 3 # 10.
Proof. split; [vm_compute; reflexivity | vm_compute; discriminate]. Qed.
End Doubles.

(** ** Quotation state *)

Lemma truthy_nonempty (s : jsstring) : s <> [] -> truthy s = true.
Proof. by destruct s. Qed.

Lemma lookupKey_singleton {V : Type} (k : jsstring) (v : V) : lookupKey [(k, v)] k = Some v.
Proof. unfold lookupKey. simpl. by rewrite streq_refl. Qed.

(** What a line reads back once its record holds the one entry
    [(productId, qty)] with a non-empty id. *)
Lemma selection_of_single_entry (quotationState : QuotationMap) result idx productId qty :
  quotationState !! idx = Some [(productId, qty)] ->
  productId <> [] ->
  activeIdOf quotationState result idx = Some productId
  /\ activeProduct quotationState result idx
     = List.find (fun prod => streq (id prod) productId) (products result)
  /\ activeQuantity quotationState result idx
     = (if (qty =? 0)%Z then detectedQuantity result else qty).
Proof.
  intros Hrec Hid.
  assert (Hactive : activeIdOf quotationState result idx = Some productId).
  { unfold activeIdOf. rewrite Hrec. simpl. by rewrite (truthy_nonempty _ Hid). }
  unfold activeProduct, activeQuantity, selectedQuantity.
  rewrite Hactive, (truthy_nonempty _ Hid), Hrec, lookupKey_singleton. done.
Qed.

(** A line without a record and without candidates has nothing selected. *)
Lemma selection_of_empty_line (quotationState : QuotationMap) result idx :
  quotationState !! idx = None ->
  products result = [] ->
  activeIdOf quotationState result idx = None
  /\ activeProduct quotationState result idx = None
  /\ activeQuantity quotationState result idx = detectedQuantity result.
Proof.
  intros Hrec Hnone.
  assert (Hactive : activeIdOf quotationState result idx = None).
  { unfold activeIdOf. by rewrite Hrec, Hnone. }
  unfold activeProduct, activeQuantity. by rewrite Hactive.
Qed.

(** An override to a non-empty id is the selection in force. *)
Lemma override_selects (prev : QuotationMap) (result : BulkSearchResult)
    (termIndex : nat) (productId : jsstring) (newQty : Z) :
  productId <> [] ->
  let quotationState := handleQuantityChange termIndex productId newQty prev in
  activeIdOf quotationState result termIndex = Some productId
  /\ activeQuantity quotationState result termIndex = Z.max 1 newQty
  /\ activeProduct quotationState result termIndex
     = List.find (fun prod => streq (id prod) productId) (products result).
Proof.
  intros Hid quotationState.
  destruct (selection_of_single_entry quotationState result termIndex productId
              (Z.max 1 newQty)) as (Hactive & Hproduct & Hqty); [|done|].
  { unfold quotationState, handleQuantityChange. apply lookup_insert_eq. }
  repeat split; [done | | done].
  rewrite Hqty. destruct (Z.max 1 newQty =? 0)%Z eqn:E; [|done].
  apply Z.eqb_eq in E. lia.
Qed.

(** C5.  The products of the application are those of the loaded catalog,
    and an override names one of them by its id.  For every line, every
    product [p] of the catalog and every integer quantity [q], zero and
    negative included, after the override of the line to [p] with [q] the
    selection in force on the line is [p] with quantity max(1, q),
    whatever the default top candidate is; the product shown is the first
    candidate of the line that carries the id of [p], and there is one
    whenever [p] is among the candidates.  The override is a total
    function: it is never rejected. *)
Theorem override_is_selection_in_force (U : Unicode) (parseFloat : jsstring -> option Q)
    (Date_now : nat -> N) (response : FetchResult)
    (prev : QuotationMap) (result : BulkSearchResult)
    (termIndex : nat) (product : MappedProduct) (newQty : Z) :
  In product (fetchAndParseProducts U parseFloat Date_now response) ->
  let quotationState := handleQuantityChange termIndex (id product) newQty prev in
  activeIdOf quotationState result termIndex = Some (id product)
  /\ activeQuantity quotationState result termIndex = Z.max 1 newQty
  /\ activeProduct quotationState result termIndex
     = List.find (fun prod => streq (id prod) (id product)) (products result)
  /\ (forall candidate,
        In candidate (products result) -> id candidate = id product ->
        exists shown,
          activeProduct quotationState result termIndex = Some shown
          /\ In shown (products result)
          /\ id shown = id product).
Proof.
  intros Hloaded quotationState.
  assert (Hid : id product <> []).
  { pose proof (loaded_ids_nonempty U parseFloat Date_now response) as Hids.
    rewrite List.Forall_forall in Hids. by apply Hids. }
  destruct (override_selects prev result termIndex (id product) newQty Hid)
    as (Hactive & Hqty & Hshown).
  fold quotationState in Hactive, Hqty, Hshown.
  split; [exact Hactive|]. split; [exact Hqty|]. split; [exact Hshown|].
  intros candidate Hcandidate Hsame. rewrite Hshown.
  destruct (List.find _ (products result)) as [shown|] eqn:Efind.
  - apply List.find_some in Efind as [Hin Heq]. apply streq_eq in Heq.
    by exists shown.
  - pose proof (List.find_none _ _ Efind candidate Hcandidate) as Hnone.
    simpl in Hnone. by rewrite Hsame, streq_refl in Hnone.
Qed.

(** ** C4: a quotation over two terms *)

Section QuotationFacts.
Context (calculateMatchScore : MappedProduct -> jsstring -> Q).

(** The state [handleSearch] leaves: line [i] holds the top candidate of
    its term with the requested quantity, and nothing when the term has no
    candidate. *)
Lemma searchLines_cons allProducts item rest index (prev : QuotationMap) :
  searchLines calculateMatchScore allProducts (item :: rest) index prev =
  (fst (searchLine calculateMatchScore allProducts item index prev)
   :: fst (searchLines calculateMatchScore allProducts rest (S index)
             (snd (searchLine calculateMatchScore allProducts item index prev))),
   snd (searchLines calculateMatchScore allProducts rest (S index)
          (snd (searchLine calculateMatchScore allProducts item index prev)))).
Proof.
  change (searchLines calculateMatchScore allProducts (item :: rest) index prev)
    with (let '(line, state) := searchLine calculateMatchScore allProducts item index prev in
          let '(lines, state) :=
            searchLines calculateMatchScore allProducts rest (S index) state in
          (line :: lines, state)).
  destruct (searchLine calculateMatchScore allProducts item index prev) as [line state].
  cbn [fst snd].
  by destruct (searchLines calculateMatchScore allProducts rest (S index) state).
Qed.

Lemma searchLine_state allProducts item index (prev : QuotationMap) i :
  snd (searchLine calculateMatchScore allProducts item index prev) !! i =
  match rank calculateMatchScore allProducts (name item) with
  | top :: _ => if decide (index = i) then Some [(id top, quantity item)] else prev !! i
  | [] => prev !! i
  end.
Proof.
  unfold searchLine. simpl. destruct (rank _ _ _); [done|].
  by rewrite lookup_insert.
Qed.

Lemma searchLines_state allProducts items index (prev : QuotationMap) i :
  snd (searchLines calculateMatchScore allProducts items index prev) !! i =
  match (if (index <=? i)%nat then items !! (i - index)%nat else None) with
  | Some item =>
      match rank calculateMatchScore allProducts (name item) with
      | top :: _ => Some [(id top, quantity item)]
      | [] => prev !! i
      end
  | None => prev !! i
  end.
Proof.
  revert index prev. induction items as [|item rest IH]; intros index prev.
  - simpl. destruct (index <=? i)%nat; by rewrite ?lookup_nil.
  - rewrite searchLines_cons. cbn [snd]. rewrite IH, searchLine_state.
    destruct (Nat.leb_spec index i) as [Hle|Hgt].
    + destruct (decide (index = i)) as [->|Hne].
      * rewrite Nat.sub_diag.
        destruct (Nat.leb_spec (S i) i) as [Hle'|_]; [lia|].
        cbn. by destruct (rank _ _ (name item)).
      * destruct (Nat.leb_spec (S index) i) as [_|Hgt]; [|lia].
        replace (i - index)%nat with (S (i - S index)) by lia. cbn.
        destruct (rest !! (i - S index)%nat) as [item'|].
        -- destruct (rank _ _ (name item')); [|done]. by destruct (rank _ _ (name item)).
        -- by destruct (rank _ _ (name item)).
    + destruct (Nat.leb_spec (S index) i) as [Hle'|_]; [lia|].
      destruct (decide (index = i)) as [->|Hne]; [lia|].
      by destruct (rank _ _ (name item)).
Qed.

Lemma handleSearch_state allProducts extractedItems i :
  snd (handleSearch calculateMatchScore allProducts extractedItems) !! i =
  match extractedItems !! i with
  | Some item =>
      match rank calculateMatchScore allProducts (name item) with
      | top :: _ => Some [(id top, quantity item)]
      | [] => None
      end
  | None => None
  end.
Proof.
  unfold handleSearch. rewrite searchLines_state. simpl.
  rewrite Nat.sub_0_r, lookup_empty. done.
Qed.

Lemma searchLines_lines allProducts items index (prev : QuotationMap) :
  fst (searchLines calculateMatchScore allProducts items index prev) =
  map (fun item => {| term := name item; originalTerm := name item;
                      products := rank calculateMatchScore allProducts (name item);
                      detectedQuantity := quantity item |}) items.
Proof.
  revert index prev. induction items as [|item rest IH]; intros index prev; [done|].
  rewrite searchLines_cons. cbn [fst]. by rewrite IH.
Qed.
End QuotationFacts.

Lemma filteredResults_all bulkResults : filteredResults allSuppliers bulkResults = bulkResults.
Proof. unfold filteredResults. by rewrite streq_refl. Qed.



(** ** C6: one selection per line *)

Lemma singleSelect_insert (prev : QuotationMap) idx productId qty :
  singleSelect prev -> singleSelect (<[idx := [(productId, qty)]]> prev).
Proof.
  intros Hprev i record. destruct (decide (idx = i)) as [->|Hne].
  - rewrite lookup_insert_eq. intros [= <-]. eauto.
  - rewrite lookup_insert_ne by done. apply Hprev.
Qed.

(** C6.  In every state of the quotation map the application can reach,
    each line index has at most one (product id, quantity) entry: a new
    search starts from the empty map and records, for each line with at
    least one candidate, the single top candidate with the requested
    quantity; an override, a quantity change or a toggle replaces the
    record of its line by a record of one key. *)
Theorem reachable_state_is_single_select
    (calculateMatchScore : MappedProduct -> jsstring -> Q) (quotationState : QuotationMap) :
  reachable calculateMatchScore quotationState ->
  (forall idx record, quotationState !! idx = Some record ->
     exists productId qty, record = [(productId, qty)])
  /\ (forall allProducts extractedItems idx,
        snd (handleSearch calculateMatchScore allProducts extractedItems) !! idx =
        match extractedItems !! idx with
        | Some item =>
            match rank calculateMatchScore allProducts (name item) with
            | top :: _ => Some [(id top, quantity item)]
            | [] => None
            end
        | None => None
        end)
  /\ (forall termIndex productId newQty,
        handleQuantityChange termIndex productId newQty quotationState !! termIndex
        = Some [(productId, Z.max 1 newQty)])
  /\ (forall result tIdx pId,
        exists qty, onToggleSelect result tIdx pId quotationState !! tIdx = Some [(pId, qty)]).
Proof.
  intros Hreach. split; [|split; [|split]].
  - change (singleSelect quotationState).
    induction Hreach as [| allProducts extractedItems prev _ _
                         | termIndex productId newQty prev _ IH
                         | result tIdx pId prev _ IH].
    + intros idx record. by rewrite lookup_empty.
    + intros idx record. rewrite handleSearch_state.
      destruct (extractedItems !! idx) as [item|]; [|done].
      destruct (rank _ _ _) as [|top rest]; [done|]. intros [= <-]. eauto.
    + by apply singleSelect_insert.
    + by apply singleSelect_insert.
  - intros allProducts extractedItems idx. apply handleSearch_state.
  - intros termIndex productId newQty. apply lookup_insert_eq.
  - intros result tIdx pId. eexists. apply lookup_insert_eq.
Qed.

(** ** Searches with a scoring function that may throw *)

Lemma mapOrThrow_all_return {A B : Type} (f : A -> Outcome B) (l : list A) (ys : list B) :
  mapOrThrow f l = Returns ys -> forall x, In x l -> exists y, f x = Returns y.
Proof.
  revert ys. induction l as [|x l IH]; intros ys Hmap y Hy; [done|].
  simpl in Hmap. destruct (f x) as [v|] eqn:Ex; [|done]. simpl in Hmap.
  destruct (mapOrThrow f l) as [vs|] eqn:El; [|done].
  destruct Hy as [<-|Hy]; [by exists v | by apply (IH vs)].
Qed.

(** Whatever the scoring function, a ranking that is returned is the
    ranking by the numbers returned. *)
Lemma rankOutcome_is_rank (score : MappedProduct -> jsstring -> Outcome Q)
    (allProducts : list MappedProduct) (itemName : jsstring) (ranked : list MappedProduct) :
  rankOutcome score allProducts itemName = Returns ranked ->
  ranked = rank (returned score) allProducts itemName.
Proof.
  intros Hrank.
  assert (Hall : forall p, In p allProducts ->
            score p itemName = Returns (returned score p itemName)).
  { unfold rankOutcome in Hrank.
    destruct (mapOrThrow _ allProducts) as [scored|] eqn:Emap; [|done].
    intros p Hp. destruct (mapOrThrow_all_return _ _ _ Emap p Hp) as [y Hy].
    unfold returned. by destruct (score p itemName). }
  rewrite (rankOutcome_returns score (returned score) allProducts itemName Hall) in Hrank.
  by injection Hrank.
Qed.

(** A loop over the lines either runs to its end, and is the loop by the
    numbers returned, or is abandoned at some line [k]: the state then
    holds what the lines before [k] recorded. *)
Lemma searchLinesOutcome_cases (score : MappedProduct -> jsstring -> Outcome Q)
    (allProducts : list MappedProduct) (items : list ExtractedItem)
    (index : nat) (prev : QuotationMap) :
  searchLinesOutcome score allProducts items index prev
  = (Returns (fst (searchLines (returned score) allProducts items index prev)),
     snd (searchLines (returned score) allProducts items index prev))
  \/ exists k, k < length items
       /\ searchLinesOutcome score allProducts items index prev
          = (TypeError,
             snd (searchLines (returned score) allProducts (take k items) index prev)).
Proof.
  revert index prev. induction items as [|item rest IH]; intros index prev; [by left|].
  simpl searchLinesOutcome.
  destruct (rankOutcome score allProducts (name item)) as [matches|] eqn:Erank.
  - apply rankOutcome_is_rank in Erank. subst matches.
    set (state := match rank (returned score) allProducts (name item) with
                  | top :: _ => <[index := [(id top, quantity item)]]> prev
                  | [] => prev
                  end).
    assert (Hstate : snd (searchLine (returned score) allProducts item index prev) = state)
      by done.
    destruct (IH (S index) state) as [Hall | (k & Hk & Hthrow)].
    + left. rewrite Hall, searchLines_cons, Hstate. done.
    + right. exists (S k). split; [simpl; lia|].
      rewrite Hthrow. simpl take. by rewrite searchLines_cons, Hstate.
  - right. exists 0. split; [simpl; lia | done].
Qed.

Lemma handleSearchOutcome_cases (score : MappedProduct -> jsstring -> Outcome Q)
    (allProducts : list MappedProduct) (extractedItems : list ExtractedItem)
    (bulkResults : list BulkSearchResult) :
  handleSearchOutcome score allProducts extractedItems bulkResults
  = handleSearch (returned score) allProducts extractedItems
  \/ exists k, k < length extractedItems
       /\ handleSearchOutcome score allProducts extractedItems bulkResults
          = (bulkResults,
             snd (handleSearch (returned score) allProducts (take k extractedItems))).
Proof.
  unfold handleSearchOutcome, handleSearch.
  destruct (searchLinesOutcome_cases score allProducts extractedItems 0 ∅)
    as [Hall | (k & Hk & Hthrow)].
  - left. rewrite Hall.
    by destruct (searchLines (returned score) allProducts extractedItems 0 ∅).
  - right. exists k. split; [done|]. by rewrite Hthrow.
Qed.

(** The state a search leaves, abandoned or not, is a state the
    application reaches by a search that returns. *)
Lemma search_outcome_reachable (score : MappedProduct -> jsstring -> Outcome Q)
    (allProducts : list MappedProduct) (extractedItems : list ExtractedItem)
    (bulkResults : list BulkSearchResult) (prev : QuotationMap) :
  reachable (returned score) prev ->
  reachable (returned score)
    (snd (handleSearchOutcome score allProducts extractedItems bulkResults)).
Proof.
  intros Hprev.
  destruct (handleSearchOutcome_cases score allProducts extractedItems bulkResults)
    as [-> | (k & _ & ->)]; by apply (reach_search _ _ _ prev).
Qed.

(** ** C7: the fallback of the item extractor *)

Lemma splitRuns_after_separator isSep c r :
  isSep c = true -> exists pieces, splitRuns isSep (c :: r) = [] :: pieces.
Proof.
  revert c. induction r as [|c' r IH]; intros c Hc.
  - simpl. rewrite Hc. by eexists.
  - change (splitRuns isSep (c :: c' :: r))
      with (if isSep c
            then (if isSep c' then splitRuns isSep (c' :: r)
                  else [] :: splitRuns isSep (c' :: r))
            else match splitRuns isSep (c' :: r) with
                 | w :: ws => (c :: w) :: ws
                 | [] => [[c]]
                 end).
    rewrite Hc. destruct (isSep c') eqn:Ec'; [by apply IH | by eexists].
Qed.

(** Cutting at runs of separators or at each separator gives the same
    first piece, and the same further pieces once the empty ones are
    dropped. *)
Lemma splitRuns_splitAtEach isSep (keep : jsstring -> bool) s :
  keep [] = false ->
  exists first runs each,
    splitRuns isSep s = first :: runs /\
    splitAtEach isSep s = first :: each /\
    List.filter keep runs = List.filter keep each.
Proof.
  intros Hempty. induction s as [|c r IH].
  - by exists [], [], [].
  - destruct IH as (first & runs & each & Hruns & Heach & Hsame).
    destruct (isSep c) eqn:Ec.
    + destruct r as [|c' r'].
      * exists [], [[]], [[]]. simpl. by rewrite Ec.
      * change (splitRuns isSep (c :: c' :: r'))
          with (if isSep c
                then (if isSep c' then splitRuns isSep (c' :: r')
                      else [] :: splitRuns isSep (c' :: r'))
                else match splitRuns isSep (c' :: r') with
                     | w :: ws => (c :: w) :: ws
                     | [] => [[c]]
                     end).
        change (splitAtEach isSep (c :: c' :: r'))
          with (if isSep c then [] :: splitAtEach isSep (c' :: r')
                else match splitAtEach isSep (c' :: r') with
                     | w :: ws => (c :: w) :: ws
                     | [] => [[c]]
                     end).
        rewrite Ec, Heach. destruct (isSep c') eqn:Ec'.
        -- destruct (splitRuns_after_separator isSep c' r' Ec') as [pieces Hp].
           rewrite Hp in Hruns. injection Hruns as <- <-.
           exists [], pieces, ([] :: each). rewrite Hp. repeat split.
           simpl. by rewrite Hempty.
        -- rewrite Hruns. exists [], (first :: runs), (first :: each).
           repeat split. simpl. by rewrite Hsame.
    + exists (c :: first), runs, each. simpl. by rewrite Ec, Hruns, Heach.
Qed.

Lemma trim_nil : trim [] = [].
Proof. done. Qed.

(** The code's split on runs, trimmed and filtered, is the list of the
    non-empty trimmed pieces. *)
Lemma localSplit_fallbackTerms text : localSplit text = fallbackTerms text.
Proof.
  unfold localSplit, fallbackTerms.
  destruct (splitRuns_splitAtEach isLineBreakOrComma
              (fun piece => (0 <? length (trim piece))%nat) text eq_refl)
    as (first & runs & each & -> & -> & Hsame).
  assert (Hcommute : forall pieces,
    List.filter (fun s => (0 <? length (name s))%nat)
      (map (fun s => {| name := trim s; quantity := 1 |}) pieces)
    = map (fun piece => {| name := piece; quantity := 1 |})
        (List.filter (fun piece => (0 <? length piece)%nat) (map trim pieces))).
  { induction pieces as [|p ps IH]; [done|]. simpl.
    destruct (0 <? length (trim p))%nat; simpl; by rewrite IH. }
  assert (Hfilter : forall pieces,
    List.filter (fun piece => (0 <? length piece)%nat) (map trim pieces)
    = map trim (List.filter (fun piece => (0 <? length (trim piece))%nat) pieces)).
  { induction pieces as [|p ps IH]; [done|]. simpl.
    destruct (0 <? length (trim p))%nat; simpl; by rewrite IH. }
  rewrite Hcommute, !Hfilter. simpl.
  destruct (0 <? length (trim first))%nat; by rewrite Hsame.
Qed.

Lemma trim_idempotent s : trim (trim s) = trim s.
Proof.
  unfold trim.
  rewrite (startsClean_fixed (trimEnd (trimStart s))).
  - apply trimEnd_idempotent.
  - apply trimEnd_clean, trimStart_clean.
Qed.

(** C7.  For every raw text, when the call to the language model fails
    (it throws, or it answers without text) the extractor returns the
    fallback list: the text split on line breaks and commas, each
    non-empty trimmed piece as a term of quantity 1.  The extractor is a
    total function: the failure does not reach the caller.  An answer
    that cannot be parsed falls back in the same way. *)
Theorem extractor_falls_back (JSON_parse : jsstring -> option (list ExtractedItem))
    (call : GenerateContent) (text : jsstring) :
  call = Throws \/ call = Responds None \/ call = Responds (Some [])
  \/ (exists responseText, call = Responds (Some responseText)
                           /\ JSON_parse responseText = None) ->
  extractShoppingItems JSON_parse call text = fallbackTerms text
  /\ Forall (fun item => quantity item = 1%Z /\ name item <> []
                         /\ trim (name item) = name item)
            (extractShoppingItems JSON_parse call text).
Proof.
  intros Hfail.
  assert (Hfallback : extractShoppingItems JSON_parse call text = fallbackTerms text).
  { rewrite <- localSplit_fallbackTerms.
    destruct Hfail as [-> | [-> | [-> | (responseText & -> & Hparse)]]]; try done.
    simpl. rewrite Hparse. by destruct (truthy responseText). }
  split; [done|]. rewrite Hfallback. unfold fallbackTerms.
  apply List.Forall_forall. intros item Hitem.
  apply in_map_iff in Hitem as (piece & <- & Hpiece).
  apply List.filter_In in Hpiece as [Hpiece Hlen].
  apply in_map_iff in Hpiece as (raw & <- & _). simpl.
  repeat split.
  - intros Hnil. by rewrite Hnil in Hlen.
  - apply trim_idempotent.
Qed.
(** ** The claims on concrete inputs *)

(** The claim C1 as the specification words it fails: for the query
    "Bisturi com cabo" the product titled "Bisturi com Cabo" has the
    normalized title of the query, yet it pays the accessory penalty
    (score 10050) and the product "Bisturi com Cabos" (score 12800) is
    ranked first. *)
Lemma exact_title_outranked :
  let exact := sampleProduct "prod-0-1" "Bisturi com Cabo" 10 in
  let other := sampleProduct "prod-1-1" "Bisturi com Cabos" 10 in
  let allProducts := [exact; other] in
  let query := lit "Bisturi com cabo" in
  allProducts <> []
  /\ In exact allProducts
  /\ normalizeText asciiRuntime (title exact) = normalizeText asciiRuntime query
  /\ (exists ranked,
        rankOutcome (Looser.calculateMatchScore asciiRuntime) allProducts query
        = Returns ranked
        /\ map id ranked = [lit "prod-1-1"; lit "prod-0-1"]
        /\ map title ranked = [lit "Bisturi com Cabos"; lit "Bisturi com Cabo"])
  /\ (exists score, Looser.calculateMatchScore asciiRuntime exact query = Returns score
                    /\ (score == 10050)%Q)
  /\ (exists score, Looser.calculateMatchScore asciiRuntime other query = Returns score
                    /\ (score == 12800)%Q).
Proof.
  cbv zeta. split; [discriminate|]. split; [by left|]. split; [vm_compute; reflexivity|].
  split; [|split]; eexists; (split; [vm_compute; reflexivity|]);
    try split; vm_compute; reflexivity.
Qed.

(** A tie is enough: an earlier catalog entry with the same score stays
    ahead of the product whose title equals the query. *)
Lemma exact_title_tied :
  let longer := sampleProduct "prod-0-1" "Tesoura Mayo 15cm" 10 in
  let exact := sampleProduct "prod-1-1" "Tesoura Mayo" 10 in
  let query := lit "Tesoura Mayo" in
  normalizeText asciiRuntime (title exact) = normalizeText asciiRuntime query
  /\ (exists ranked,
        rankOutcome (Looser.calculateMatchScore asciiRuntime) [longer; exact] query
        = Returns ranked
        /\ map id ranked = [lit "prod-0-1"; lit "prod-1-1"])
  /\ (exists score, Looser.calculateMatchScore asciiRuntime longer query = Returns score
                    /\ (score == 15000)%Q)
  /\ (exists score, Looser.calculateMatchScore asciiRuntime exact query = Returns score
                    /\ (score == 15000)%Q).
Proof.
  cbv zeta. split; [vm_compute; reflexivity|].
  split; [|split]; eexists; (split; [vm_compute; reflexivity|]); vm_compute; reflexivity.
Qed.

(** A query with the token constructor has no ranking at all: the scorer
    throws on the first product. *)
Lemma constructor_query_throws :
  let exact := sampleProduct "prod-0-1" "Constructor" 10 in
  let query := lit "Constructor" in
  normalizeText asciiRuntime (title exact) = normalizeText asciiRuntime query
  /\ Looser.calculateMatchScore asciiRuntime exact query = TypeError
  /\ rankOutcome (Looser.calculateMatchScore asciiRuntime) [exact] query = TypeError.
Proof. cbv zeta. repeat split; vm_compute; reflexivity. Qed.

(** A request whose second name has the token constructor: the search is
    abandoned at that line, the table keeps the lines it showed before,
    and only the selection of the first line is recorded. *)
Lemma search_abandoned_on_constructor :
  let items := [ {| name := lit "tesoura mayo"; quantity := 2 |};
                 {| name := lit "Constructor"; quantity := 1 |};
                 {| name := lit "pinca kelly"; quantity := 1 |} ] in
  let search := handleSearchOutcome (Looser.calculateMatchScore asciiRuntime)
                  sampleCatalog items [] in
  fst search = []
  /\ snd search !! 0%nat = Some [(lit "prod-0-17", 2%Z)]
  /\ snd search !! 1%nat = None
  /\ snd search !! 2%nat = None.
Proof. cbv zeta. repeat split; vm_compute; reflexivity. Qed.

Lemma exact_title_witness :
  let other := sampleProduct "prod-0-1" "Tesoura Metzenbaum" 10 in
  let exact := sampleProduct "prod-1-1" "Tesoura Mayo" 10 in
  let query := lit "Tesoura Mayo" in
  exists score rest,
    Looser.calculateMatchScore asciiRuntime exact query = Returns score
    /\ (0 < score)%Q
    /\ rankOutcome (Looser.calculateMatchScore asciiRuntime) [other; exact] query
       = Returns (withMatchScore exact score :: rest).
Proof.
  cbv zeta.
  assert (H1 : Looser.queryTokensOf asciiRuntime (lit "Tesoura Mayo") <> [])
    by (vm_compute; discriminate).
  assert (H2 : ~ In (lit "constructor") (Looser.queryTokensOf asciiRuntime (lit "Tesoura Mayo"))).
  { vm_compute. intros [H|[H|H]]; [discriminate H | discriminate H | exact H]. }
  assert (H3 : normalizeText asciiRuntime (title (sampleProduct "prod-1-1" "Tesoura Mayo" 10))
               = normalizeText asciiRuntime (lit "Tesoura Mayo"))
    by (vm_compute; reflexivity).
  assert (H4 : In (sampleProduct "prod-1-1" "Tesoura Mayo" 10)
                 [sampleProduct "prod-0-1" "Tesoura Metzenbaum" 10;
                  sampleProduct "prod-1-1" "Tesoura Mayo" 10])
    by (right; left; reflexivity).
  destruct (exact_title_attains_top_score asciiRuntime _ _ _ H1 H2 H3 H4)
    as (score & Hscore & Hpos & Hrest).
  assert (Hpen : (accessoryPenaltyOf asciiRuntime
                    (sampleProduct "prod-1-1" "Tesoura Mayo" 10) (lit "Tesoura Mayo") == 0)%Q)
    by (vm_compute; reflexivity).
  destruct (Hrest Hpen) as (_ & top & rest & Hrank & _ & Hfirst).
  exists (score (sampleProduct "prod-1-1" "Tesoura Mayo" 10)), rest.
  split; [apply Hscore|]. split; [exact Hpos|].
  rewrite Hrank. f_equal. f_equal.
  apply (Hfirst [sampleProduct "prod-0-1" "Tesoura Metzenbaum" 10] []); [reflexivity|].
  apply Forall_cons. split; [|apply Forall_nil_2].
  assert (Hother : Looser.calculateMatchScore asciiRuntime
                      (sampleProduct "prod-0-1" "Tesoura Metzenbaum" 10) (lit "Tesoura Mayo")
                    = Returns 4500%Q) by (vm_compute; reflexivity).
  assert (Hexact : Looser.calculateMatchScore asciiRuntime
                      (sampleProduct "prod-1-1" "Tesoura Mayo" 10) (lit "Tesoura Mayo")
                    = Returns 15000%Q) by (vm_compute; reflexivity).
  rewrite Hscore in Hother. rewrite Hscore in Hexact.
  injection Hother as Hother. injection Hexact as Hexact.
  rewrite Hother, Hexact. vm_compute. discriminate.
Defined.

(** The claim C3 as the specification words it fails.  For the query
    "tes mayo" no synonym of the anchor equals a token of the title
    "Tesoura Mayo", yet the stricter policy does not reject: the anchor
    begins the first title token, and the score is 12000.  And for a query
    with the token constructor neither policy returns a number. *)
Lemma anchor_prefix_not_rejected :
  let product := sampleProduct "prod-0-1" "Tesoura Mayo" 10 in
  let queryTokens := Stricter.queryTokensOf asciiRuntime (lit "tes mayo") in
  let productWords := splitOn 32%N (normalizeText asciiRuntime (title product)) in
  (1 < length queryTokens)%nat
  /\ anchorMatchesNoTitleToken
       (thesaurusSynonyms Stricter.medicalThesaurus (hd [] queryTokens)) productWords
  /\ Stricter.calculateMatchScore asciiRuntime product (lit "tes mayo") = Returns 12000%Z
  /\ (1 < length (Stricter.queryTokensOf asciiRuntime (lit "constructor mayo")))%nat
  /\ Stricter.calculateMatchScore asciiRuntime product (lit "constructor mayo") = TypeError
  /\ Looser.calculateMatchScore asciiRuntime product (lit "constructor mayo") = TypeError.
Proof.
  cbv zeta. split; [vm_compute; lia|]. split.
  - intros syn word Hsyn Hword.
    vm_compute in Hsyn. vm_compute in Hword.
    destruct Hsyn as [<-|[]]. destruct Hword as [<-|[<-|[]]]; discriminate.
  - split; [vm_compute; reflexivity|]. split; [vm_compute; lia|].
    split; vm_compute; reflexivity.
Qed.

Lemma scoring_policies_diverge_witness :
  let product := sampleProduct "prod-0-1" "Pinca Kelly" 10 in
  (Stricter.calculateMatchScore asciiRuntime product (lit "tesoura kelly") = Returns (-1)%Z
   /\ exists score,
        Looser.calculateMatchScore asciiRuntime product (lit "tesoura kelly") = Returns score
        /\ (score == weightedAccumulation asciiRuntime product (lit "tesoura kelly"))%Q
        /\ (-3000 <= score)%Q)
  /\ (exists score,
        Stricter.calculateMatchScore asciiRuntime product (lit "kelly") = Returns score
        /\ score <> (-1)%Z /\ (200 | score)%Z)
  /\ (exists score,
        Stricter.calculateMatchScore asciiRuntime product (lit "pinca mayo") = Returns score
        /\ score <> (-1)%Z /\ (200 | score)%Z).
Proof.
  cbv zeta. split; [|split].
  - assert (Hnot : ~ In (lit "constructor")
                     (Stricter.queryTokensOf asciiRuntime (lit "tesoura kelly"))).
    { vm_compute. intros [H|[H|H]]; [discriminate H | discriminate H | exact H]. }
    assert (Hmulti : (1 < length (Stricter.queryTokensOf asciiRuntime (lit "tesoura kelly")))%nat)
      by (vm_compute; lia).
    assert (Hun : anchorUnmatched
                    (thesaurusSynonyms Stricter.medicalThesaurus
                       (hd [] (Stricter.queryTokensOf asciiRuntime (lit "tesoura kelly"))))
                    (splitOn 32%N (normalizeText asciiRuntime
                                     (title (sampleProduct "prod-0-1" "Pinca Kelly" 10))))).
    { rewrite stricter_synonyms_contract.
      apply anchorUnmatched_from_tests; vm_compute; reflexivity. }
    exact (proj1 (scoring_policies_diverge asciiRuntime
                    (sampleProduct "prod-0-1" "Pinca Kelly" 10) (lit "tesoura kelly") Hnot)
                 Hmulti Hun).
  - assert (Hnot : ~ In (lit "constructor")
                     (Stricter.queryTokensOf asciiRuntime (lit "kelly"))).
    { vm_compute. intros [H|H]; [discriminate H | exact H]. }
    assert (Hone : length (Stricter.queryTokensOf asciiRuntime (lit "kelly")) = 1%nat)
      by (vm_compute; reflexivity).
    exact (proj2 (scoring_policies_diverge asciiRuntime
                    (sampleProduct "prod-0-1" "Pinca Kelly" 10) (lit "kelly") Hnot)
                 (or_introl Hone)).
  - assert (Hnot : ~ In (lit "constructor")
                     (Stricter.queryTokensOf asciiRuntime (lit "pinca mayo"))).
    { vm_compute. intros [H|[H|H]]; [discriminate H | discriminate H | exact H]. }
    assert (Hne : Stricter.queryTokensOf asciiRuntime (lit "pinca mayo") <> [])
      by (vm_compute; discriminate).
    assert (Hmatched : ~ anchorUnmatched
                    (thesaurusSynonyms Stricter.medicalThesaurus
                       (hd [] (Stricter.queryTokensOf asciiRuntime (lit "pinca mayo"))))
                    (splitOn 32%N (normalizeText asciiRuntime
                                     (title (sampleProduct "prod-0-1" "Pinca Kelly" 10))))).
    { intros [Hno _]. apply (Hno (lit "pinca") (lit "pinca")); [|by left|done].
      vm_compute. tauto. }
    exact (proj2 (scoring_policies_diverge asciiRuntime
                    (sampleProduct "prod-0-1" "Pinca Kelly" 10) (lit "pinca mayo") Hnot)
                 (or_intror (conj Hne Hmatched))).
Defined.

(** The two policies on "tesoura kelly" against "Pinca Kelly": rejected by
    the stricter one, a candidate with score 4500 for the looser one. *)
Lemma scoring_policies_diverge_example :
  let product := sampleProduct "prod-0-1" "Pinca Kelly" 10 in
  Stricter.calculateMatchScore asciiRuntime product (lit "tesoura kelly") = Returns (-1)%Z
  /\ exists score,
       Looser.calculateMatchScore asciiRuntime product (lit "tesoura kelly") = Returns score
       /\ (score == 4500)%Q.
Proof.
  cbv zeta. split; [vm_compute; reflexivity|].
  eexists. split; vm_compute; reflexivity.
Qed.

Lemma override_is_selection_in_force_witness :
  let result := {| term := lit "Tesoura Mayo"; originalTerm := lit "Tesoura Mayo";
                   products := rank (LooserValue.calculateMatchScore asciiRuntime)
                                 sampleCatalog (lit "mayo kelly");
                   detectedQuantity := 3 |} in
  let quotationState := handleQuantityChange 0 (lit "prod-1-17") (-2) ∅ in
  activeIdOf quotationState result 0 = Some (lit "prod-1-17")
  /\ activeQuantity quotationState result 0 = 1%Z
  /\ option_map title (activeProduct quotationState result 0) = Some (lit "Pinca Kelly")
  /\ option_map title (hd_error (products result)) = Some (lit "Tesoura Mayo").
Proof.
  cbv zeta.
  assert (Hloaded : exists product,
            In product (fetchAndParseProducts asciiRuntime sampleParseFloat sampleClock
                          sampleSheet)
            /\ id product = lit "prod-1-17").
  { eexists. split; [right; left; reflexivity | vm_compute; reflexivity]. }
  destruct Hloaded as (product & Hin & Hid).
  destruct (override_is_selection_in_force asciiRuntime sampleParseFloat sampleClock
              sampleSheet ∅
              {| term := lit "Tesoura Mayo"; originalTerm := lit "Tesoura Mayo";
                 products := rank (LooserValue.calculateMatchScore asciiRuntime)
                               sampleCatalog (lit "mayo kelly");
                 detectedQuantity := 3 |}
              0 product (-2) Hin) as (Hactive & Hqty & Hproduct & _).
  rewrite Hid in Hactive, Hqty, Hproduct.
  split; [exact Hactive|]. split; [exact Hqty|]. split.
  - rewrite Hproduct. vm_compute. reflexivity.
  - vm_compute. reflexivity.
Defined.


Lemma reachable_state_witness :
  let quotationState := handleQuantityChange 0 (lit "prod-0-1") 0 ∅ in
  reachable (LooserValue.calculateMatchScore asciiRuntime) quotationState
  /\ forall idx record, quotationState !! idx = Some record ->
       exists productId qty, record = [(productId, qty)].
Proof.
  cbv zeta.
  assert (Hreach : reachable (LooserValue.calculateMatchScore asciiRuntime)
                     (handleQuantityChange 0 (lit "prod-0-1") 0 ∅))
    by (apply reach_quantity, reach_initial).
  split; [exact Hreach|].
  exact (proj1 (reachable_state_is_single_select _ _ Hreach)).
Defined.

Lemma extractor_falls_back_witness :
  let text := lit "Pinca Kelly 2, Tesoura Mayo" in
  extractShoppingItems (fun _ => None) Throws text
  = [ {| name := lit "Pinca Kelly 2"; quantity := 1 |};
      {| name := lit "Tesoura Mayo"; quantity := 1 |} ].
Proof.
  cbv zeta.
  rewrite (proj1 (extractor_falls_back (fun _ => None) Throws
                    (lit "Pinca Kelly 2, Tesoura Mayo") (or_introl eq_refl))).
  vm_compute. reflexivity.
Defined.

(** * Further properties of the code *)

(** ** The shape of normalized text *)

(** X1.  Whatever the input and whatever the runtime's case and
    decomposition tables, a normalized text holds only the characters
    a-z, 0-9 and the space, neither begins nor ends with a space and has no
    two spaces in a row. *)
Theorem normalizeText_shape (U : Unicode) (text : jsstring) :
  let n := normalizeText U text in
  forallb (fun c => isLowerLetter c || isDigit c || (c =? 32)%N) n = true
  /\ startsWith n [32%N] = false
  /\ List.last n 0%N <> 32%N
  /\ includes n [32%N; 32%N] = false.
Proof.
  intros n. destruct (normalizeText_normalForm U text) as (Hplain & Hspaced & Hclean & Hend).
  fold n in Hplain, Hspaced, Hclean, Hend.
  split; [exact Hplain|]. split; [|split].
  - destruct n as [|c r]; [done|]. rewrite startsWith_cons.
    destruct (N.eqb_spec 32 c) as [<-|Hne]; [done | done].
  - destruct n as [|c r] eqn:En; [done|].
    pose proof (trimEnd_fixed_last _ Hend ltac:(done)) as Hlast.
    intros H32. by rewrite H32 in Hlast.
  - by apply includes_two_spaces.
Qed.

(** X2.  The tokens of a query are exactly the words of its normalized
    text: none is empty, each holds only a-z and 0-9, and joined by single
    spaces they give the normalized text back.  The same holds for the
    tokens of a product title whenever the normalized title is not
    empty. *)
Theorem queryTokens_are_the_words (U : Unicode) (query : jsstring) :
  let tokens := Looser.queryTokensOf U query in
  Forall (fun t => t <> [] /\ forallb isAlnum t = true) tokens
  /\ joinWith [32%N] tokens = normalizeText U query
  /\ (normalizeText U query <> [] -> splitOn 32%N (normalizeText U query) = tokens)
  /\ Stricter.queryTokensOf U query = tokens.
Proof.
  intros tokens. unfold tokens, Looser.queryTokensOf, Stricter.queryTokensOf.
  destruct (normalizeText_normalForm U query) as (Hplain & Hspaced & Hclean & Hend).
  set (n := normalizeText U query) in *.
  pose proof (spaced_wellSeparated n Hspaced Hend) as Hsep.
  destruct (splitOn_wellSeparated 32%N n Hsep) as (first & pieces & Hsplit & Hall & Hfirst).
  assert (Hkeep : List.filter (fun t => (0 <? length t)%nat) pieces = pieces).
  { clear -Hall. induction Hall as [|t ts Ht _ IH]; [done|]. simpl.
    destruct t; [done|]. simpl. by rewrite IH. }
  assert (Halnum : Forall (fun t => forallb isAlnum t = true) (splitOn 32%N n)).
  { eapply Forall_impl; [apply (splitOn_units 32%N n)|]. simpl. intros t Ht.
    apply forallb_forall. intros c Hc. rewrite List.Forall_forall in Ht.
    destruct (Ht c Hc) as [Hin Hne].
    rewrite forallb_forall in Hplain. specialize (Hplain c Hin).
    destruct (plainChar_cases c Hplain); [done | contradiction]. }
  destruct n as [|c r] eqn:En.
  - simpl. split; [constructor|]. split; [done|]. split; [done | done].
  - assert (Hnonempty : first <> []).
    { intros Hnil. apply Hfirst in Hnil as [Hnil | [r' Hr']]; [done|].
      injection Hr' as -> _. simpl in Hclean. done. }
    pose proof (joinWith_splitOn 32%N (c :: r)) as Hjoin.
    rewrite Hsplit in Hjoin, Halnum |- *.
    destruct first as [|f fs]; [done|].
    assert (Hf : List.filter (fun t => (0 <? length t)%nat) ((f :: fs) :: pieces)
                 = (f :: fs) :: pieces) by (simpl; by rewrite Hkeep).
    rewrite Hf.
    split; [|split; [|split]]; [ | done | done | done].
    apply Forall_cons in Halnum as [Hf' Hps]. constructor; [done|].
    rewrite List.Forall_forall in *. intros t Ht. split; [by apply Hall | by apply Hps].
Qed.

Lemma queryTokens_witness :
  splitOn 32%N (normalizeText asciiRuntime (lit " Pinca  KELLY, 14cm "))
  = [lit "pinca"; lit "kelly"; lit "14cm"].
Proof.
  rewrite (proj1 (proj2 (proj2 (queryTokens_are_the_words asciiRuntime
                                  (lit " Pinca  KELLY, 14cm "))))).
  - reflexivity.
  - discriminate.
Defined.

(** ** The edit distance as a metric *)

Lemma editDistance_upper a b : editDistance a b <= Nat.max (length a) (length b).
Proof.
  revert b. induction a as [|x a IH]; intros b; [simpl; lia|].
  destruct b as [|y b]; [simpl; lia|].
  rewrite editDistance_cons. specialize (IH b). unfold min3. simpl length.
  destruct (x =? y)%N; lia.
Qed.

Lemma editDistance_lower a b :
  length a - length b <= editDistance a b /\ length b - length a <= editDistance a b.
Proof.
  revert b. induction a as [|x a IHa]; intros b; [simpl; lia|].
  induction b as [|y b IHb]; [simpl; lia|].
  rewrite editDistance_cons.
  pose proof (IHa (y :: b)). pose proof (IHa b). unfold min3. simpl length in *.
  destruct (x =? y)%N; lia.
Qed.

Lemma editDistance_triangle_bounded n :
  forall a b c, length a + length b + length c <= n ->
    editDistance a c <= editDistance a b + editDistance b c.
Proof.
  induction n as [|n IH]; intros a b c Hn.
  - destruct a, b, c; simpl in Hn; simpl; lia.
  - destruct a as [|x a].
    { pose proof (editDistance_lower b c). simpl. lia. }
    destruct c as [|z c].
    { rewrite !editDistance_nil_r. pose proof (editDistance_lower (x :: a) b). lia. }
    destruct b as [|y b].
    { rewrite editDistance_nil_r. pose proof (editDistance_upper (x :: a) (z :: c)).
      simpl in *. lia. }
    simpl length in Hn.
    pose proof (IH a (y :: b) (z :: c) ltac:(simpl; lia)) as H1.
    pose proof (IH (x :: a) b (z :: c) ltac:(simpl; lia)) as H2.
    pose proof (IH (x :: a) (y :: b) c ltac:(simpl; lia)) as H3.
    pose proof (IH (x :: a) b c ltac:(simpl; lia)) as H4.
    pose proof (IH a b (z :: c) ltac:(simpl; lia)) as H5.
    pose proof (IH a b c ltac:(simpl; lia)) as H6.
    rewrite (editDistance_cons x a y b), (editDistance_cons y b z c),
      (editDistance_cons x a z c) in *.
    assert (Hcost : (if (x =? z)%N then 0 else 1)
                    <= (if (x =? y)%N then 0 else 1) + (if (y =? z)%N then 0 else 1)).
    { destruct (N.eqb_spec x y) as [->|], (N.eqb_spec y z) as [->|]; simpl;
        try rewrite N.eqb_refl; try lia; destruct (_ =? _)%N; lia. }
    set (cxy := if (x =? y)%N then 0 else 1) in *.
    set (cyz := if (y =? z)%N then 0 else 1) in *.
    set (cxz := if (x =? z)%N then 0 else 1) in *.
    clearbody cxy cyz cxz. clear IH Hn.
    generalize dependent (editDistance a (y :: b)). generalize dependent (editDistance (x :: a) b).
    generalize dependent (editDistance a b). generalize dependent (editDistance b (z :: c)).
    generalize dependent (editDistance (y :: b) c). generalize dependent (editDistance b c).
    generalize dependent (editDistance a (z :: c)). generalize dependent (editDistance (x :: a) c).
    generalize dependent (editDistance a c).
    intros. unfold min3 in *. lia.
Qed.

Lemma editDistance_triangle a b c :
  editDistance a c <= editDistance a b + editDistance b c.
Proof. by apply (editDistance_triangle_bounded (length a + length b + length c)). Qed.

(** X3.  The two revisions compute the same edit distance: on every pair
    of strings the table of [src/App.tsx] (diagonal copied on equal
    characters, early exits on empty strings) and the table of the earlier
    revision (minimum of three neighbours everywhere) return the same
    number, which lies between the difference and the maximum of the two
    lengths; in particular the distance to the empty string is the
    length. *)
Theorem levenshtein_revisions_agree (a b : jsstring) :
  Looser.levenshtein a b = Stricter.levenshtein a b
  /\ length a - length b <= Looser.levenshtein a b
  /\ length b - length a <= Looser.levenshtein a b
  /\ Looser.levenshtein a b <= Nat.max (length a) (length b)
  /\ Looser.levenshtein a [] = length a
  /\ Stricter.levenshtein a [] = length a.
Proof.
  rewrite !looser_levenshtein_spec, !stricter_levenshtein_spec.
  rewrite (editDistance_sym (rev b) (rev a)).
  pose proof (editDistance_lower (rev a) (rev b)) as Hlow.
  pose proof (editDistance_upper (rev a) (rev b)) as Hup.
  rewrite !length_rev in *. simpl rev.
  rewrite editDistance_nil_r, length_rev. simpl. rewrite length_rev. lia.
Qed.

(** X4.  The edit distance of either revision is 0 only between equal
    strings: two different tokens are never at distance 0. *)
Theorem levenshtein_zero_only_when_equal (a b : jsstring) :
  (Looser.levenshtein a b = 0 <-> a = b)
  /\ (Stricter.levenshtein a b = 0 <-> a = b).
Proof.
  rewrite looser_levenshtein_spec, stricter_levenshtein_spec.
  split; split.
  - intros H. apply editDistance_zero in H.
    apply (f_equal (@rev N)) in H. by rewrite !rev_involutive in H.
  - intros ->. apply editDistance_refl.
  - intros H. apply editDistance_zero in H.
    apply (f_equal (@rev N)) in H. by rewrite !rev_involutive in H.
  - intros ->. apply editDistance_refl.
Qed.

(** X5.  The edit distance of either revision satisfies the triangle
    inequality: going through a third string never shortens the way. *)
Theorem levenshtein_triangle (a b c : jsstring) :
  Looser.levenshtein a c <= Looser.levenshtein a b + Looser.levenshtein b c
  /\ Stricter.levenshtein a c <= Stricter.levenshtein a b + Stricter.levenshtein b c.
Proof.
  rewrite !looser_levenshtein_spec, !stricter_levenshtein_spec.
  split.
  - rewrite (editDistance_sym (rev c) (rev a)), (editDistance_sym (rev b) (rev a)),
      (editDistance_sym (rev c) (rev b)).
    apply editDistance_triangle.
  - apply editDistance_triangle.
Qed.

(** ** The range of the scores *)

Section LooserRange.
Import Looser.
Import LooserValue.
Local Open Scope Q_scope.

Lemma Qmax_isQuality x y : isQuality x -> isQuality y -> isQuality (Qmax x y).
Proof.
  intros Hx Hy. unfold isQuality.
  destruct (Q.max_spec x y) as [[_ ->]|[_ ->]]; assumption.
Qed.

Lemma matchToken_isQuality qToken best pToken :
  isQuality best -> isQuality (matchToken qToken best pToken).
Proof.
  intros Hb. unfold matchToken. cbv zeta.
  destruct (existsb _ _); [apply Qmax_isQuality; [done | unfold isQuality; lra]|].
  destruct (_ && startsWith _ _); [apply Qmax_isQuality; [done | unfold isQuality; lra]|].
  destruct (_ && _); [|done].
  destruct (_ <=? _)%nat eqn:E; [|done]. apply Nat.leb_le in E.
  apply Qmax_isQuality; [done|]. unfold isQuality.
  assert (Hd : (levenshtein qToken pToken <= 2)%nat)
    by (destruct (6 <? length qToken)%nat; lia).
  destruct (levenshtein qToken pToken) as [|[|[|d]]]; [| | |lia].
  - do 4 right. vm_compute. reflexivity.
  - do 2 right. left. vm_compute. reflexivity.
  - right. left. vm_compute. reflexivity.
Qed.

Lemma bestTokenScore_isQuality qToken productTokens :
  isQuality (bestTokenScore qToken productTokens).
Proof.
  unfold bestTokenScore.
  assert (H : forall best, isQuality best ->
            isQuality (fold_left (matchToken qToken) productTokens best)).
  { induction productTokens as [|p ps IH]; intros best Hb; [done|].
    simpl. by apply IH, matchToken_isQuality. }
  apply H. unfold isQuality. lra.
Qed.

(** Without a prefix or fuzzy match, a token either meets one of its
    synonyms or scores nothing. *)
Lemma bestTokenScore_exact_only qToken productTokens :
  (forall best pToken,
     matchToken qToken best pToken =
     if existsb (fun s => streq s pToken) (synonymsOf qToken) then Qmax best 1 else best) ->
  bestTokenScore qToken productTokens ==
  if existsb (fun p => existsb (fun s => streq s p) (synonymsOf qToken)) productTokens
  then 1 else 0.
Proof.
  intros Hstep. unfold bestTokenScore.
  assert (H : forall best, 0 <= best <= 1 ->
    fold_left (matchToken qToken) productTokens best ==
    if existsb (fun p => existsb (fun s => streq s p) (synonymsOf qToken)) productTokens
    then 1 else best).
  { induction productTokens as [|p ps IH]; intros best Hb; [simpl; lra|].
    simpl. rewrite Hstep.
    destruct (existsb (fun s => streq s p) (synonymsOf qToken)); simpl.
    - pose proof (Qmax_unit_interval best 1 Hb ltac:(lra)) as Hmax.
      pose proof (Q.le_max_r best 1) as Hone.
      rewrite (IH (Qmax best 1) ltac:(lra)).
      destruct (existsb _ ps); lra.
    - by apply IH. }
  apply H. lra.
Qed.

Lemma matchToken_short_or_stop qToken best pToken :
  arrayIncludes STOP_WORDS qToken = true \/ (length qToken <= 3)%nat ->
  matchToken qToken best pToken =
  if existsb (fun s => streq s pToken) (synonymsOf qToken) then Qmax best 1 else best.
Proof.
  intros H. unfold matchToken. cbv zeta.
  destruct (existsb _ _); [done|].
  destruct H as [Hstop | Hshort].
  - unfold tokenWeight. rewrite Hstop. done.
  - assert (E : (3 <? length qToken)%nat = false) by (apply Nat.ltb_ge; lia).
    rewrite E, !andb_false_r. done.
Qed.

Lemma tokenScore_multiple_of_50 qToken productTokens :
  exists k : Z, bestTokenScore qToken productTokens * tokenWeight qToken == inject_Z (50 * k).
Proof.
  destruct (arrayIncludes STOP_WORDS qToken) eqn:Estop.
  - pose proof (bestTokenScore_exact_only qToken productTokens
                  (fun best p => matchToken_short_or_stop qToken best p (or_introl Estop)))
      as Hbest.
    assert (Hw : tokenWeight qToken = 50) by (unfold tokenWeight; by rewrite Estop).
    destruct (existsb _ productTokens); [exists 1%Z | exists 0%Z];
      rewrite Hbest, Hw; vm_compute; reflexivity.
  - assert (Hw : tokenWeight qToken = 2500 \/ tokenWeight qToken = 500
                 \/ tokenWeight qToken = 4500).
    { unfold tokenWeight. rewrite Estop.
      destruct (arrayIncludes CATEGORY_TERMS qToken); [tauto|].
      destruct (isNumeric qToken); tauto. }
    destruct (bestTokenScore_isQuality qToken productTokens) as [H|[H|[H|[H|H]]]];
      destruct Hw as [Hw | [Hw | Hw]].
    all: first [ exists 0%Z; rewrite H, Hw; vm_compute; reflexivity
               | exists 30%Z; rewrite H, Hw; vm_compute; reflexivity
               | exists 6%Z; rewrite H, Hw; vm_compute; reflexivity
               | exists 54%Z; rewrite H, Hw; vm_compute; reflexivity
               | exists 40%Z; rewrite H, Hw; vm_compute; reflexivity
               | exists 8%Z; rewrite H, Hw; vm_compute; reflexivity
               | exists 72%Z; rewrite H, Hw; vm_compute; reflexivity
               | exists 45%Z; rewrite H, Hw; vm_compute; reflexivity
               | exists 9%Z; rewrite H, Hw; vm_compute; reflexivity
               | exists 81%Z; rewrite H, Hw; vm_compute; reflexivity
               | exists 50%Z; rewrite H, Hw; vm_compute; reflexivity
               | exists 10%Z; rewrite H, Hw; vm_compute; reflexivity
               | exists 90%Z; rewrite H, Hw; vm_compute; reflexivity ].
Qed.

Lemma inject_Z_50 j k x y :
  x == inject_Z (50 * j) -> y == inject_Z (50 * k) -> x + y == inject_Z (50 * (j + k)).
Proof.
  intros -> ->. rewrite !inject_Z_mult, inject_Z_plus. change (inject_Z 50) with 50%Q. lra.
Qed.

Lemma tokenSum_multiple_of_50 queryTokens productTokens :
  exists k : Z,
    fold_right (fun qToken acc =>
                  bestTokenScore qToken productTokens * tokenWeight qToken + acc)
               0 queryTokens == inject_Z (50 * k).
Proof.
  induction queryTokens as [|t ts [k IH]]; [by exists 0%Z|].
  destruct (tokenScore_multiple_of_50 t productTokens) as [j Hj].
  exists (j + k)%Z. simpl. by apply inject_Z_50.
Qed.
End LooserRange.

(** The range of the value the looser scorer returns for a query with a
    token. *)
Lemma looser_value_range (U : Unicode) (product : MappedProduct) (query : jsstring) :
  let score := LooserValue.calculateMatchScore U product query in
  let tokens := Looser.queryTokensOf U query in
  let penalty := accessoryPenaltyOf U product query in
  tokens <> [] ->
  (penalty == 0 \/ penalty == 3000)%Q
  /\ (- penalty <= score)%Q
  /\ (score <= 8000 + 4500 * inject_Z (Z.of_nat (length tokens)) - penalty)%Q
  /\ exists k : Z, (score == inject_Z (50 * k))%Q.
Proof.
  intros score tokens penalty Hne.
  destruct tokens as [|anchorToken rest] eqn:E; [done|]. clear Hne.
  assert (Hne : Looser.queryTokensOf U query <> []) by (fold tokens; by rewrite E).
  pose proof (calculateMatchScore_accumulates U product query Hne) as Hacc.
  fold score in Hacc. unfold sumOfSteps in Hacc. cbv zeta in Hacc.
  fold tokens penalty in Hacc. rewrite E in Hacc.
  set (words := splitOn 32%N (normalizeText U (title product))) in *.
  pose proof (tokenSum_bounds (anchorToken :: rest) words) as Hsum.
  pose proof (anchorBonus_bounds (LooserValue.synonymsOf (hd [] (anchorToken :: rest))) words)
    as Hanchor.
  assert (Hpen : (penalty == 0 \/ penalty == 3000)%Q).
  { unfold penalty, accessoryPenaltyOf. fold tokens. rewrite E.
    unfold LooserValue.accessoryPenalty. cbv zeta. destruct (_ && _); [right | left]; done. }
  assert (Hweight : (totalWeight (anchorToken :: rest)
                     <= 4500 * inject_Z (Z.of_nat (length (anchorToken :: rest))))%Q).
  { clear. induction (anchorToken :: rest) as [|t ts IH]; [vm_compute; discriminate|].
    change (totalWeight (t :: ts)) with (Looser.tokenWeight t + totalWeight ts)%Q.
    replace (Z.of_nat (length (t :: ts))) with (1 + Z.of_nat (length ts))%Z
      by (simpl length; lia).
    rewrite inject_Z_plus. change (inject_Z 1) with 1%Q.
    destruct (tokenWeight_cases t) as [-> | [-> | [-> | ->]]]; lra. }
  split; [done|]. split; [|split].
  - rewrite Hacc. destruct (forallb _ _); lra.
  - rewrite Hacc. destruct (forallb _ _); lra.
  - destruct (tokenSum_multiple_of_50 (anchorToken :: rest) words) as [k Hk].
    assert (Hgate : exists g : Z,
      ((if forallb (LooserValue.importantTokenPresent (normalizeText U (title product)))
                   (anchorToken :: rest) then 6000 else 0) == inject_Z (50 * g))%Q).
    { destruct (forallb _ _); [exists 120%Z | exists 0%Z]; vm_compute; reflexivity. }
    assert (Hbonus : exists b : Z,
      (LooserValue.anchorBonus (LooserValue.synonymsOf (hd [] (anchorToken :: rest))) words
       == inject_Z (50 * b))%Q).
    { unfold LooserValue.anchorBonus.
      destruct (findIndex _ _) as [[|n]|]; [exists 40%Z | exists 20%Z | exists 0%Z];
        vm_compute; reflexivity. }
    assert (Hp : exists p : Z, (penalty == inject_Z (50 * p))%Q).
    { destruct Hpen as [H | H]; [exists 0%Z | exists 60%Z]; rewrite H; vm_compute; reflexivity. }
    destruct Hgate as [g Hg], Hbonus as [b Hb], Hp as [p Hp].
    exists (g + k + b - p)%Z. rewrite Hacc, Hg, Hk, Hb, Hp.
    rewrite !inject_Z_mult. unfold Z.sub. rewrite !inject_Z_plus, inject_Z_opp.
    change (inject_Z 50) with 50%Q. lra.
Qed.

(** X6.  The looser scorer returns 0 when the query has no token and
    throws a TypeError when one of the tokens is the word constructor;
    otherwise it returns a whole multiple of 50 that lies between minus
    the accessory penalty and 8000 plus 4500 per token, negative only when
    the accessory penalty applies. *)
Theorem looser_score_range (U : Unicode) (product : MappedProduct) (query : jsstring) :
  let outcome := Looser.calculateMatchScore U product query in
  let tokens := Looser.queryTokensOf U query in
  let penalty := accessoryPenaltyOf U product query in
  match tokens with
  | [] => outcome = Returns 0%Q
  | _ :: _ =>
      if arrayIncludes tokens (lit "constructor") then outcome = TypeError
      else
        exists score,
          outcome = Returns score
          /\ (penalty == 0 \/ penalty == 3000)%Q
          /\ (- penalty <= score)%Q
          /\ (score <= 8000 + 4500 * inject_Z (Z.of_nat (length tokens)) - penalty)%Q
          /\ exists k : Z, (score == inject_Z (50 * k))%Q
  end.
Proof.
  intros outcome tokens penalty.
  destruct tokens as [|anchorToken rest] eqn:E.
  { unfold outcome, Looser.calculateMatchScore. cbv zeta. fold tokens. by rewrite E. }
  destruct (arrayIncludes (anchorToken :: rest) (lit "constructor")) eqn:Ec.
  - apply looser_throws. fold tokens. rewrite E. by apply arrayIncludes_In.
  - exists (LooserValue.calculateMatchScore U product query). split.
    + apply looser_returns, queryTokens_ordinary. fold tokens. rewrite E.
      intros Hin. apply arrayIncludes_In in Hin. congruence.
    + pose proof (looser_value_range U product query) as Hrange. cbv zeta in Hrange.
      fold tokens penalty in Hrange. rewrite E in Hrange. by apply Hrange.
Qed.

(** X7.  Under the looser policy a stop word, and any token of at most
    three characters, reads an array of synonyms from the thesaurus and is
    matched exactly or not at all: its match quality is 1 when a title
    token equals one of its synonyms and 0 otherwise; neither a prefix nor
    a near miss counts. *)
Theorem short_token_matches_exactly_or_not (qToken : jsstring) (productTokens : list jsstring) :
  arrayIncludes Looser.STOP_WORDS qToken = true \/ length qToken <= 3 ->
  exists synonyms best,
    Looser.synonymsOf qToken = ArrayOf synonyms
    /\ Looser.bestTokenScore qToken productTokens = Returns best
    /\ (best ==
        if existsb (fun p => existsb (fun s => streq s p) synonyms) productTokens
        then 1 else 0)%Q.
Proof.
  intros H.
  assert (Hord : ordinary qToken).
  { destruct H as [H|H]; [by apply stop_word_ordinary | apply short_ordinary; lia]. }
  exists (LooserValue.synonymsOf qToken), (LooserValue.bestTokenScore qToken productTokens).
  split; [by apply looser_synonymsOf|]. split; [by apply bestTokenScore_returns|].
  apply bestTokenScore_exact_only.
  intros best p. by apply matchToken_short_or_stop.
Qed.

Lemma short_token_witness :
  length (lit "kit") <= 3
  /\ (exists best, Looser.bestTokenScore (lit "kit") [lit "kits"; lit "kyt"] = Returns best
                   /\ (best == 0)%Q)
  /\ (exists best, Looser.bestTokenScore (lit "kit") [lit "cirurgico"; lit "kit"] = Returns best
                   /\ (best == 1)%Q).
Proof.
  assert (Hshort : arrayIncludes Looser.STOP_WORDS (lit "kit") = true \/ length (lit "kit") <= 3)
    by (right; simpl; lia).
  split; [simpl; lia|]. split.
  - destruct (short_token_matches_exactly_or_not (lit "kit") [lit "kits"; lit "kyt"] Hshort)
      as (synonyms & best & Hsyn & Hbest & Hquality).
    vm_compute in Hsyn. injection Hsyn as <-.
    exists best. split; [exact Hbest | exact Hquality].
  - destruct (short_token_matches_exactly_or_not (lit "kit") [lit "cirurgico"; lit "kit"]
                Hshort) as (synonyms & best & Hsyn & Hbest & Hquality).
    vm_compute in Hsyn. injection Hsyn as <-.
    exists best. split; [exact Hbest | exact Hquality].
Defined.

Section StricterRange.
Import Stricter.
Import StricterValue.
Local Open Scope Z_scope.

Lemma matchWord_bounds token best word :
  0 <= best <= 2000 -> 0 <= matchWord token best word <= 2000.
Proof.
  intros Hb. unfold matchWord. cbv zeta.
  destruct (existsb _ _); [lia|]. destruct (_ <=? _)%nat; lia.
Qed.

Lemma bestMatch_bounds token productWords : 0 <= bestMatch token productWords <= 2000.
Proof.
  unfold bestMatch.
  assert (H : forall best, 0 <= best <= 2000 ->
            0 <= fold_left (matchWord token) productWords best <= 2000).
  { induction productWords as [|w ws IH]; intros best Hb; [done|].
    simpl. by apply IH, matchWord_bounds. }
  apply H. lia.
Qed.

Lemma accumulate_bounds queryTokens anchorSynonyms productWords score :
  score - 4000 <= accumulate queryTokens anchorSynonyms productWords score
  <= score + 2000 * Z.of_nat (length queryTokens).
Proof.
  unfold accumulate. cbv zeta.
  assert (H : forall s,
    s <= fold_left (fun score token => score + bestMatch token productWords) queryTokens s
    <= s + 2000 * Z.of_nat (length queryTokens)).
  { induction queryTokens as [|t ts IH]; intros s; [simpl; lia|].
    simpl fold_left. pose proof (bestMatch_bounds t productWords).
    specialize (IH (s + bestMatch t productWords)). simpl length. lia. }
  destruct (_ && _).
  - specialize (H (score - 4000)). lia.
  - specialize (H score). lia.
Qed.
End StricterRange.

(** The range of the value the stricter scorer returns for a query with
    a token. *)
Lemma stricter_value_range (U : Unicode) (product : MappedProduct) (query : jsstring) :
  let score := StricterValue.calculateMatchScore U product query in
  let tokens := Stricter.queryTokensOf U query in
  tokens <> [] ->
  (score = (-1)%Z /\ 1 < length tokens)
  \/ ((-4000 <= score <= 10000 + 2000 * Z.of_nat (length tokens))%Z
      /\ (200 | score)%Z).
Proof.
  intros score tokens Hne.
  unfold score, StricterValue.calculateMatchScore. cbv zeta. fold tokens.
  destruct tokens as [|anchorToken rest] eqn:E; [done|].
  set (words := splitOn 32%N (normalizeText U (title product))).
  set (syns := StricterValue.synonymsOf anchorToken).
  set (base := if forallb _ (anchorToken :: rest) then (0 + 5000)%Z else 0%Z).
  assert (Hbase : (0 <= base <= 5000)%Z /\ (200 | base)%Z).
  { unfold base. destruct (forallb _ _); split; try lia; [by exists 25%Z | by exists 0%Z]. }
  destruct Hbase as [Hrange Hdiv].
  assert (Hok : forall bonus, (0 <= bonus <= 5000)%Z -> (200 | bonus)%Z ->
    (-4000 <= StricterValue.accumulate (anchorToken :: rest) syns words (base + bonus)
     <= 10000 + 2000 * Z.of_nat (length (anchorToken :: rest)))%Z
    /\ (200 | StricterValue.accumulate (anchorToken :: rest) syns words (base + bonus))%Z).
  { intros bonus Hb Hd. split.
    - pose proof (accumulate_bounds (anchorToken :: rest) syns words (base + bonus)). lia.
    - apply accumulate_divisible. by apply Z.divide_add_r. }
  destruct (StricterValue.productStartsWithAnchor syns words).
  { right. apply (Hok 5000%Z); [lia | by exists 25%Z]. }
  destruct (StricterValue.productContainsAnchor syns words).
  { right. apply (Hok 1000%Z); [lia | by exists 5%Z]. }
  destruct (1 <? length (anchorToken :: rest)) eqn:Hlen.
  { left. split; [done|]. by apply Nat.ltb_lt. }
  right. replace base with (base + 0)%Z by lia. apply (Hok 0%Z); [lia | by exists 0%Z].
Qed.

(** X8.  The stricter scorer returns 0 when the query has no token.
    Otherwise it returns or throws: it throws a TypeError only when one of
    the tokens is the word constructor, and without that token it always
    returns; what it returns is either the rejection value -1, given only
    to queries of several tokens, or a whole multiple of 200 between -4000
    and 10000 plus 2000 per token. *)
Theorem stricter_score_range (U : Unicode) (product : MappedProduct) (query : jsstring) :
  let outcome := Stricter.calculateMatchScore U product query in
  let tokens := Stricter.queryTokensOf U query in
  match tokens with
  | [] => outcome = Returns 0%Z
  | _ :: _ =>
      match outcome with
      | Returns score =>
          (score = (-1)%Z /\ 1 < length tokens)
          \/ ((-4000 <= score <= 10000 + 2000 * Z.of_nat (length tokens))%Z
              /\ (200 | score)%Z)
      | TypeError => In (lit "constructor") tokens
      end
      /\ (arrayIncludes tokens (lit "constructor") = false ->
          exists score, outcome = Returns score)
  end.
Proof.
  intros outcome tokens.
  destruct tokens as [|anchorToken rest] eqn:E.
  { unfold outcome, Stricter.calculateMatchScore. cbv zeta. fold tokens. by rewrite E. }
  assert (Hreturns : arrayIncludes (anchorToken :: rest) (lit "constructor") = false ->
            outcome = Returns (StricterValue.calculateMatchScore U product query)).
  { intros Hc. apply stricter_returns, queryTokens_ordinary.
    change (Looser.queryTokensOf U query) with tokens. rewrite E.
    intros Hin. apply arrayIncludes_In in Hin. congruence. }
  split; [|intros Hc; eexists; by apply Hreturns].
  destruct (arrayIncludes (anchorToken :: rest) (lit "constructor")) eqn:Ec.
  - apply arrayIncludes_In in Ec.
    destruct (stricter_with_constructor U product query) as [Hthrow | [Hminus Hmulti]].
    + fold tokens. by rewrite E.
    + fold outcome in Hthrow. by rewrite Hthrow.
    + fold outcome in Hminus. fold tokens in Hmulti. rewrite E in Hmulti.
      rewrite Hminus. by left.
  - rewrite (Hreturns eq_refl).
    pose proof (stricter_value_range U product query) as Hrange. cbv zeta in Hrange.
    fold tokens in Hrange. rewrite E in Hrange. by apply Hrange.
Qed.

(** X9.  A query and its normalized text are scored and ranked alike by
    both policies, in what they return and in whether they throw: upper
    case, accents and punctuation in the request change nothing, provided
    the runtime leaves text over a-z, 0-9 and the space unchanged. *)
Theorem scoring_ignores_query_spelling (U : Unicode) (product : MappedProduct)
    (allProducts : list MappedProduct) (query : jsstring) :
  fixesPlain U ->
  Looser.calculateMatchScore U product (normalizeText U query)
  = Looser.calculateMatchScore U product query
  /\ Stricter.calculateMatchScore U product (normalizeText U query)
     = Stricter.calculateMatchScore U product query
  /\ rankOutcome (Looser.calculateMatchScore U) allProducts (normalizeText U query)
     = rankOutcome (Looser.calculateMatchScore U) allProducts query
  /\ rankOutcome (stricterScore U) allProducts (normalizeText U query)
     = rankOutcome (stricterScore U) allProducts query.
Proof.
  intros HU.
  assert (Hl : forall p, Looser.calculateMatchScore U p (normalizeText U query)
                         = Looser.calculateMatchScore U p query).
  { intros p. unfold Looser.calculateMatchScore, Looser.queryTokensOf.
    by rewrite (normalForm_fixed U _ HU (normalizeText_normalForm U query)). }
  assert (Hs : forall p, Stricter.calculateMatchScore U p (normalizeText U query)
                         = Stricter.calculateMatchScore U p query).
  { intros p. unfold Stricter.calculateMatchScore, Stricter.queryTokensOf.
    by rewrite (normalForm_fixed U _ HU (normalizeText_normalForm U query)). }
  split; [apply Hl|]. split; [apply Hs|]. split.
  - unfold rankOutcome. f_equal. apply mapOrThrow_ext. intros p. by rewrite Hl.
  - unfold rankOutcome, stricterScore. f_equal. apply mapOrThrow_ext. intros p.
    by rewrite Hs.
Qed.

Lemma scoring_ignores_query_spelling_witness :
  fixesPlain asciiRuntime
  /\ Looser.calculateMatchScore asciiRuntime (sampleProduct "prod-0-1" "Pinca Kelly 16cm" 10)
       (normalizeText asciiRuntime (lit "PINCA, Kelly!"))
     = Looser.calculateMatchScore asciiRuntime (sampleProduct "prod-0-1" "Pinca Kelly 16cm" 10)
         (lit "PINCA, Kelly!").
Proof.
  split; [apply asciiRuntime_fixesPlain|].
  exact (proj1 (scoring_ignores_query_spelling asciiRuntime
                  (sampleProduct "prod-0-1" "Pinca Kelly 16cm" 10) []
                  (lit "PINCA, Kelly!") asciiRuntime_fixesPlain)).
Defined.

(** ** What the ranker keeps *)

Lemma descending_app {A : Type} (key : A -> Q) (l1 l2 : list A) x y :
  descending key (l1 ++ l2) -> In x l1 -> In y l2 -> (key y <= key x)%Q.
Proof.
  induction l1 as [|z l1 IH]; [done|]. intros [Hz Hrest] [-> | Hx] Hy.
  - rewrite List.Forall_forall in Hz. apply Hz. apply in_or_app. by right.
  - by apply IH.
Qed.

Lemma filter_length_all {A : Type} (f : A -> bool) (l : list A) :
  length (List.filter f l) <= length l.
Proof. induction l as [|x l IH]; [done|]. simpl. destruct (f x); simpl; lia. Qed.

(** X10.  The ranker keeps the best: it returns min(15, number of
    products with a positive score) entries, and a product with a
    positive score that is left out scores no more than any entry that was
    kept.  With an empty catalog, or when no product scores above 0, it
    returns nothing. *)
Theorem rank_keeps_the_best (calculateMatchScore : MappedProduct -> jsstring -> Q)
    (allProducts : list MappedProduct) (query : jsstring) :
  let ranked := rank calculateMatchScore allProducts query in
  let candidates :=
    List.filter (fun p => Qlt_bool 0 (matchScoreOr0 p))
      (scored calculateMatchScore allProducts query) in
  length ranked = Nat.min 15 (length candidates)
  /\ (forall p, In p candidates ->
        In p ranked \/ Forall (fun kept => (matchScoreOr0 p <= matchScoreOr0 kept)%Q) ranked)
  /\ (forall p, In p ranked -> In p candidates)
  /\ rank calculateMatchScore [] query = [].
Proof.
  intros ranked candidates. unfold ranked. rewrite rank_unfold. fold candidates.
  set (sorted := arraySort (fun a b => (matchScoreOr0 b - matchScoreOr0 a)%Q) candidates).
  split; [|split; [|split]].
  - rewrite length_take. unfold sorted. rewrite (arraySort_length matchScoreOr0). lia.
  - intros p Hp.
    assert (Hin : In p sorted) by (by apply arraySort_In).
    rewrite <- (take_drop 15 sorted) in Hin. apply in_app_or in Hin as [Hin | Hin].
    + by left.
    + right. apply List.Forall_forall. intros kept Hkept.
      pose proof (arraySort_descending matchScoreOr0 candidates) as Hdesc.
      fold sorted in Hdesc. rewrite <- (take_drop 15 sorted) in Hdesc.
      by apply (descending_app matchScoreOr0 _ _ kept p Hdesc).
  - intros p Hp. apply (arraySort_In (fun a b => (matchScoreOr0 b - matchScoreOr0 a)%Q)).
    fold sorted. rewrite <- (take_drop 15 sorted). apply in_or_app. by left.
  - done.
Qed.

Lemma rank_keeps_the_best_witness :
  let allProducts := [sampleProduct "prod-0-1" "Cabo de bisturi" 10;
                      sampleProduct "prod-1-1" "Tesoura Mayo" 7] in
  let kept := withMatchScore (sampleProduct "prod-1-1" "Tesoura Mayo" 7)
                (LooserValue.calculateMatchScore asciiRuntime
                   (sampleProduct "prod-1-1" "Tesoura Mayo" 7) (lit "tesoura")) in
  In kept (rank (LooserValue.calculateMatchScore asciiRuntime) allProducts (lit "tesoura")).
Proof.
  cbv zeta.
  destruct (proj1 (proj2 (rank_keeps_the_best (LooserValue.calculateMatchScore asciiRuntime)
                            [sampleProduct "prod-0-1" "Cabo de bisturi" 10;
                             sampleProduct "prod-1-1" "Tesoura Mayo" 7] (lit "tesoura")))
              (withMatchScore (sampleProduct "prod-1-1" "Tesoura Mayo" 7)
                 (LooserValue.calculateMatchScore asciiRuntime
                    (sampleProduct "prod-1-1" "Tesoura Mayo" 7) (lit "tesoura"))))
    as [Hkept|Hout].
  - vm_compute. left. reflexivity.
  - exact Hkept.
  - vm_compute. left. reflexivity.
Defined.

(** ** The quotation after a search *)

Lemma sumLines_no_products (quotationState : QuotationMap) lines idx total :
  Forall (fun line => products line = []) lines ->
  roundDouble total = total ->
  sumLines quotationState lines idx total = total.
Proof.
  intros Hall. revert idx total.
  induction Hall as [|line lines Hline _ IH]; intros idx total Htotal; [done|].
  simpl.
  assert (Hnone : activeProduct quotationState line idx = None).
  { unfold activeProduct. destruct (activeIdOf quotationState line idx); [|done].
    rewrite Hline. by destruct (truthy _). }
  rewrite Hnone. simpl priceOr0. rewrite times_zero_l, <- Htotal, plus_zero_r, Htotal.
  by apply IH.
Qed.

Section SearchTotals.
Context (calculateMatchScore : MappedProduct -> jsstring -> Q).
Context (allProducts : list MappedProduct) (extractedItems : list ExtractedItem).

Local Abbreviation lineOf :=
  (fun item => {| term := name item; originalTerm := name item;
                  products := rank calculateMatchScore allProducts (name item);
                  detectedQuantity := quantity item |}).

Lemma handleSearch_lines :
  fst (handleSearch calculateMatchScore allProducts extractedItems) = map lineOf extractedItems.
Proof. unfold handleSearch. apply searchLines_lines. Qed.

Lemma sumLines_after_search before after total :
  extractedItems = before ++ after ->
  Forall (fun item => match rank calculateMatchScore allProducts (name item) with
                      | top :: _ => id top <> []
                      | [] => True
                      end) after ->
  sumLines (snd (handleSearch calculateMatchScore allProducts extractedItems))
    (map lineOf after) (length before) total
  = fold_left plus (map (lineDefaultTotal calculateMatchScore allProducts) after) total.
Proof.
  revert before total. induction after as [|item after IH]; intros before total Hitems Hids.
  - done.
  - apply Forall_cons in Hids as [Hid Hids].
    simpl map. simpl sumLines. simpl fold_left.
    assert (Hnext : length (before ++ [item]) = S (length before))
      by (rewrite length_app; simpl; lia).
    assert (Hstate : snd (handleSearch calculateMatchScore allProducts extractedItems)
                       !! length before
                     = match rank calculateMatchScore allProducts (name item) with
                       | top :: _ => Some [(id top, quantity item)]
                       | [] => None
                       end).
    { rewrite handleSearch_state, Hitems, list_lookup_middle; done. }
    assert (Hline : times (priceOr0 (activeProduct
                       (snd (handleSearch calculateMatchScore allProducts extractedItems))
                       (lineOf item) (length before)))
                      (numberOf (activeQuantity
                       (snd (handleSearch calculateMatchScore allProducts extractedItems))
                       (lineOf item) (length before)))
                    = lineDefaultTotal calculateMatchScore allProducts item).
    { remember (lineOf item) as line eqn:Eline.
      assert (Hprods : products line = rank calculateMatchScore allProducts (name item))
        by (by subst line).
      assert (Hqty : detectedQuantity line = quantity item) by (by subst line).
      clear Eline. unfold lineDefaultTotal.
      destruct (rank calculateMatchScore allProducts (name item)) as [|top rest].
      - destruct (selection_of_empty_line _ line (length before) Hstate Hprods)
          as (_ & Hp & _).
        rewrite Hp. simpl priceOr0. apply times_zero_l.
      - destruct (selection_of_single_entry _ line (length before) _ _ Hstate Hid)
          as (_ & Hp & Hq).
        rewrite Hp, Hq, Hprods, Hqty. simpl List.find.
        rewrite streq_refl. simpl priceOr0.
        by destruct (quantity item =? 0)%Z. }
    rewrite Hline.
    pose proof (IH (before ++ [item])
                  (plus total (lineDefaultTotal calculateMatchScore allProducts item)))
      as IHnext.
    rewrite Hnext in IHnext.
    apply IHnext; [by rewrite Hitems, <- app_assoc | done].
Qed.
End SearchTotals.

(** X11.  Right after a search, with no supplier filter, the grand total
    is the sum over the lines, added in double precision in the order of
    the lines, of the price of the line's top candidate times the quantity
    requested for it, each product rounded to a double; a line without
    candidate, and a candidate without price, add 0.  The top candidates
    are required to have non-empty ids.  There is one line per requested
    item, in the order of the request. *)
Theorem grand_total_after_search (calculateMatchScore : MappedProduct -> jsstring -> Q)
    (allProducts : list MappedProduct) (extractedItems : list ExtractedItem) :
  Forall (fun item => match rank calculateMatchScore allProducts (name item) with
                      | top :: _ => id top <> []
                      | [] => True
                      end) extractedItems ->
  let search := handleSearch calculateMatchScore allProducts extractedItems in
  grandTotal allSuppliers (fst search) (snd search)
  = sumNumbers (map (lineDefaultTotal calculateMatchScore allProducts) extractedItems)
  /\ map term (fst search) = map name extractedItems
  /\ map detectedQuantity (fst search) = map quantity extractedItems.
Proof.
  intros Hids search. unfold search, grandTotal.
  rewrite filteredResults_all, handleSearch_lines.
  split; [|split].
  - exact (sumLines_after_search calculateMatchScore allProducts extractedItems
             [] extractedItems 0%Q eq_refl Hids).
  - rewrite map_map. done.
  - rewrite map_map. done.
Qed.

(** Three lines of one tenth each: the total is the double
    0.30000000000000004, not three tenths. *)
Lemma grand_total_after_search_witness :
  let tenth := roundDouble (1 # 10) in
  let allProducts := [sampleProduct "prod-0-1" "Tesoura Mayo" tenth;
                      sampleProduct "prod-1-1" "Pinca Kelly" 7] in
  let items := [ {| name := lit "tesoura mayo"; quantity := 1 |};
                 {| name := lit "zzz"; quantity := 5 |};
                 {| name := lit "tesoura mayo"; quantity := 2 |} ] in
  let search := handleSearch (LooserValue.calculateMatchScore asciiRuntime) allProducts items in
  grandTotal allSuppliers (fst search) (snd search) = (1351079888211149 # 4503599627370496)%Q
  /\ ~ (grandTotal allSuppliers (fst search) (snd search) == 3 # 10)%Q.
Proof.
  cbv zeta.
  assert (Hids : Forall (fun item =>
            match rank (LooserValue.calculateMatchScore asciiRuntime)
                    [sampleProduct "prod-0-1" "Tesoura Mayo" (roundDouble (1 # 10));
                     sampleProduct "prod-1-1" "Pinca Kelly" 7] (name item) with
            | top :: _ => id top <> []
            | [] => True
            end)
          [ {| name := lit "tesoura mayo"; quantity := 1 |};
            {| name := lit "zzz"; quantity := 5 |};
            {| name := lit "tesoura mayo"; quantity := 2 |} ]).
  { repeat (apply Forall_cons; split; [vm_compute; first [exact I | discriminate]|]).
    apply Forall_nil_2. }
  rewrite (proj1 (grand_total_after_search _ _ _ Hids)).
  split; [vm_compute; reflexivity|]. vm_compute. discriminate.
Defined.

(** X12.  With an empty catalog every term comes back without candidate:
    each line is classified NotFound, nothing is selected, and the total is
    0 under every supplier filter. *)
Theorem empty_catalog_finds_nothing (U : Unicode)
    (calculateMatchScore : MappedProduct -> jsstring -> Q)
    (extractedItems : list ExtractedItem) (selectedSupplierFilter : jsstring) :
  let search := handleSearch calculateMatchScore [] extractedItems in
  snd search = ∅
  /\ length (fst search) = length extractedItems
  /\ Forall (fun line => products line = [] /\ classify U line = NotFound) (fst search)
  /\ (grandTotal selectedSupplierFilter (fst search) (snd search) == 0)%Q
  /\ toastStats U (fst search)
     = {| exact := 0; similar := 0; notFound := length extractedItems |}.
Proof.
  intros search. unfold search.
  assert (Hlines : fst (handleSearch calculateMatchScore [] extractedItems)
                   = map (fun item => {| term := name item; originalTerm := name item;
                                         products := []; detectedQuantity := quantity item |})
                         extractedItems).
  { rewrite handleSearch_lines. done. }
  assert (Hnone : Forall (fun line => products line = [])
                         (fst (handleSearch calculateMatchScore [] extractedItems))).
  { rewrite Hlines. apply List.Forall_forall. intros line Hline.
    apply in_map_iff in Hline as (item & <- & _). done. }
  split; [|split; [|split; [|split]]].
  - apply map_eq. intros i. rewrite handleSearch_state, lookup_empty.
    by destruct (extractedItems !! i).
  - by rewrite Hlines, length_map.
  - eapply Forall_impl; [apply Hnone|]. simpl. intros line Hline.
    split; [done|]. unfold classify. by rewrite Hline.
  - unfold grandTotal. rewrite sumLines_no_products; [reflexivity| |by apply roundDouble_zero].
    unfold filteredResults. destruct (streq _ _); [done|].
    apply List.Forall_forall. intros line Hline.
    apply in_map_iff in Hline as (orig & <- & Horig). simpl.
    rewrite List.Forall_forall in Hnone. by rewrite (Hnone orig Horig).
  - rewrite Hlines. unfold toastStats.
    assert (H : forall stats,
      fold_left (countLine U)
        (map (fun item => {| term := name item; originalTerm := name item;
                             products := []; detectedQuantity := quantity item |})
             extractedItems) stats
      = {| exact := exact stats; similar := similar stats;
           notFound := notFound stats + length extractedItems |}).
    { clear Hlines Hnone.
      induction extractedItems as [|item items IH]; intros stats.
      - destruct stats. simpl. f_equal. lia.
      - simpl fold_left. rewrite IH. unfold countLine. simpl. f_equal. lia. }
    rewrite H. done.
Qed.

(** X13.  The toast counters partition the lines: exact, similar and not
    found add up to the number of lines, and the lines counted as not found
    are those without candidate. *)
Theorem toast_counts_every_line (U : Unicode) (results : list BulkSearchResult) :
  let stats := toastStats U results in
  exact stats + similar stats + notFound stats = length results
  /\ notFound stats
     = length (List.filter (fun res => Nat.eqb (length (products res)) 0) results)
  /\ exact stats
     = length (List.filter (fun res => match classify U res with
                                       | Exact => true
                                       | _ => false
                                       end) results).
Proof.
  intros stats. unfold stats, toastStats.
  assert (H : forall stats0,
    let final := fold_left (countLine U) results stats0 in
    exact final + similar final + notFound final
    = exact stats0 + similar stats0 + notFound stats0 + length results
    /\ notFound final
       = notFound stats0
         + length (List.filter (fun res => Nat.eqb (length (products res)) 0) results)
    /\ exact final
       = exact stats0
         + length (List.filter (fun res => match classify U res with
                                           | Exact => true
                                           | _ => false
                                           end) results)).
  { induction results as [|res rest IH]; intros stats0; [simpl; lia|].
    simpl fold_left. specialize (IH (countLine U stats0 res)). cbv zeta in IH.
    destruct IH as (IH1 & IH2 & IH3). cbv zeta. rewrite IH1, IH2, IH3.
    unfold countLine, classify. simpl List.filter.
    destruct (products res) as [|p ps]; simpl; [lia|].
    destruct (streq _ _); simpl; lia. }
  specialize (H {| exact := 0; similar := 0; notFound := 0 |}). simpl in H. lia.
Qed.

(** ** The supplier filter *)

Lemma find_filter {A : Type} (f g : A -> bool) (l : list A) :
  List.find f (List.filter g l) = List.find (fun x => g x && f x) l.
Proof.
  induction l as [|x l IH]; [done|]. simpl.
  destruct (g x); simpl; [|done]. by destruct (f x).
Qed.

Lemma streq_true (a b : jsstring) : streq a b = true <-> a = b.
Proof.
  split; [apply streq_eq|]. intros ->. apply streq_refl.
Qed.

Lemma find_unique_id (productId : jsstring) (g : MappedProduct -> bool)
    (l : list MappedProduct) :
  NoDup (map id l) ->
  List.find (fun prod => g prod && streq (id prod) productId) l
  = match List.find (fun prod => streq (id prod) productId) l with
    | Some prod => if g prod then Some prod else None
    | None => None
    end.
Proof.
  induction l as [|x l IH]; [done|]. intros Hnodup.
  apply NoDup_cons in Hnodup as [Hx Hnodup]. simpl.
  destruct (streq (id x) productId) eqn:Eid.
  - destruct (g x); simpl; [done|].
    apply streq_true in Eid. subst productId.
    clear IH. induction l as [|y l IHl]; [done|]. simpl.
    apply not_elem_of_cons in Hx as [Hxy Hx].
    apply NoDup_cons in Hnodup as [_ Hnodup].
    destruct (streq (id y) (id x)) eqn:Eyx.
    + apply streq_true in Eyx. congruence.
    + rewrite andb_false_r. by apply IHl.
  - rewrite andb_false_r. by apply IH.
Qed.

Lemma filteredResults_lookup selectedSupplierFilter bulkResults idx line :
  streq selectedSupplierFilter allSuppliers = false ->
  bulkResults !! idx = Some line ->
  filteredResults selectedSupplierFilter bulkResults !! idx
  = Some {| term := term line; originalTerm := originalTerm line;
            products := List.filter (fun p => streq (supplier p) selectedSupplierFilter)
                                    (products line);
            detectedQuantity := detectedQuantity line |}.
Proof.
  intros Hfilter Hline. unfold filteredResults. rewrite Hfilter.
  by rewrite list_lookup_fmap, Hline.
Qed.

(** X14.  With a supplier chosen in the filter, the table keeps every
    line, in place, with its term and quantity, and lists on each line the
    candidates of that supplier only.  A line whose record selects a product
    (non-empty id, ids of the candidates pairwise different) then shows
    that product when it is from the chosen supplier and shows no product
    otherwise, even when the line has other candidates from that
    supplier. *)
Theorem supplier_filter_hides_foreign_selection (quotationState : QuotationMap)
    (bulkResults : list BulkSearchResult) (selectedSupplierFilter : jsstring)
    (idx : nat) (line : BulkSearchResult) (productId : jsstring) (qty : Z) :
  streq selectedSupplierFilter allSuppliers = false ->
  bulkResults !! idx = Some line ->
  quotationState !! idx = Some [(productId, qty)] ->
  productId <> [] ->
  NoDup (map id (products line)) ->
  length (filteredResults selectedSupplierFilter bulkResults) = length bulkResults
  /\ exists shown,
       filteredResults selectedSupplierFilter bulkResults !! idx = Some shown
       /\ term shown = term line
       /\ detectedQuantity shown = detectedQuantity line
       /\ products shown
          = List.filter (fun p => streq (supplier p) selectedSupplierFilter) (products line)
       /\ activeProduct quotationState shown idx
          = match activeProduct quotationState line idx with
            | Some prod =>
                if streq (supplier prod) selectedSupplierFilter then Some prod else None
            | None => None
            end.
Proof.
  intros Hfilter Hline Hstate Hid Hnodup. split.
  { unfold filteredResults. rewrite Hfilter. by rewrite length_map. }
  eexists. split; [by apply filteredResults_lookup|].
  repeat split.
  destruct (selection_of_single_entry quotationState line idx _ _ Hstate Hid)
    as (_ & -> & _).
  match goal with
  | |- activeProduct _ ?shown _ = _ =>
      destruct (selection_of_single_entry quotationState shown idx _ _ Hstate Hid)
        as (_ & -> & _)
  end.
  cbn [products]. rewrite find_filter. by apply find_unique_id.
Qed.

Lemma supplier_filter_witness :
  let top := sampleProduct "prod-0-1" "Tesoura Mayo" 10 in
  let other := fromSupplier "S2" (sampleProduct "prod-1-1" "Tesoura Iris" 7) in
  let line := {| term := lit "tesoura"; originalTerm := lit "tesoura";
                 products := [top; other]; detectedQuantity := 2 |} in
  let quotationState : QuotationMap := {[ 0%nat := [(lit "prod-0-1", 2%Z)] ]} in
  exists shown,
    filteredResults (lit "S2") [line] !! 0%nat = Some shown
    /\ products shown = [other]
    /\ activeProduct quotationState line 0 = Some top
    /\ activeProduct quotationState shown 0 = None.
Proof.
  intros top other line quotationState.
  assert (Hnodup : NoDup (map id (products line))).
  { apply NoDup_cons. split; [|apply NoDup_singleton].
    intros Hin. apply list_elem_of_singleton in Hin. discriminate. }
  destruct (supplier_filter_hides_foreign_selection quotationState [line] (lit "S2")
              0%nat line (lit "prod-0-1") 2%Z eq_refl eq_refl eq_refl
              ltac:(discriminate) Hnodup)
    as (_ & shown & Hshown & _ & _ & Hproducts & Hactive).
  exists shown. split; [exact Hshown|]. split; [exact Hproducts|].
  split; [reflexivity|]. rewrite Hactive. reflexivity.
Defined.

Lemma insertSorted_Permutation {A : Type} (compareFn : A -> A -> Q) x l :
  insertSorted compareFn x l ≡ₚ x :: l.
Proof.
  induction l as [|y l IH]; [done|]. simpl.
  destruct (Qlt_bool _ _); [|done].
  rewrite IH. apply Permutation_swap.
Qed.

Lemma arraySort_Permutation {A : Type} (compareFn : A -> A -> Q) l :
  arraySort compareFn l ≡ₚ l.
Proof.
  induction l as [|x l IH]; [done|]. simpl.
  by rewrite insertSorted_Permutation, IH.
Qed.

Lemma NoDup_map_filter {A B : Type} (f : A -> B) (g : A -> bool) (l : list A) :
  NoDup (map f l) -> NoDup (map f (List.filter g l)).
Proof.
  induction l as [|x l IH]; [done|]. simpl. intros Hnodup.
  apply NoDup_cons in Hnodup as [Hx Hnodup].
  destruct (g x); [|by apply IH]. simpl. apply NoDup_cons. split; [|by apply IH].
  intros Hin. apply Hx.
  apply list_elem_of_In in Hin. apply in_map_iff in Hin as (y & Hy & Hin).
  apply List.filter_In in Hin as [Hin _].
  apply list_elem_of_In. apply in_map_iff. eauto.
Qed.

Lemma rank_ids_NoDup (calculateMatchScore : MappedProduct -> jsstring -> Q)
    (allProducts : list MappedProduct) (itemName : jsstring) :
  NoDup (map id allProducts) ->
  NoDup (map id (rank calculateMatchScore allProducts itemName)).
Proof.
  intros Hnodup. unfold rank.
  rewrite <- (take_drop 15 (arraySort _ _)) in *.
  match goal with
  | |- NoDup (map id (take 15 (take 15 ?l ++ drop 15 ?l))) =>
      assert (Hsorted : NoDup (map id l))
  end.
  { rewrite arraySort_Permutation. apply NoDup_map_filter.
    rewrite map_map. simpl. done. }
  rewrite take_drop. rewrite <- (take_drop 15 (arraySort _ _)) in Hsorted.
  rewrite map_app in Hsorted. by apply NoDup_app in Hsorted as (? & _).
Qed.

Section FilteredTotals.
Context (calculateMatchScore : MappedProduct -> jsstring -> Q).
Context (allProducts : list MappedProduct) (extractedItems : list ExtractedItem).
Context (selectedSupplierFilter : jsstring).

Local Abbreviation shownLineOf :=
  (fun item => {| term := name item; originalTerm := name item;
                  products := List.filter
                                (fun p => streq (supplier p) selectedSupplierFilter)
                                (rank calculateMatchScore allProducts (name item));
                  detectedQuantity := quantity item |}).

Lemma sumLines_after_filtered_search before after total :
  extractedItems = before ++ after ->
  NoDup (map id allProducts) ->
  Forall (fun p => id p <> []) allProducts ->
  sumLines (snd (handleSearch calculateMatchScore allProducts extractedItems))
    (map shownLineOf after) (length before) total
  = fold_left plus (map (lineSupplierTotal calculateMatchScore allProducts
                           selectedSupplierFilter) after) total.
Proof.
  intros Hitems Hnodup Hids. revert before total Hitems.
  induction after as [|item after IH]; intros before total Hitems.
  - done.
  - simpl map. simpl sumLines. simpl fold_left.
    assert (Hnext : length (before ++ [item]) = S (length before))
      by (rewrite length_app; simpl; lia).
    assert (Hstate : snd (handleSearch calculateMatchScore allProducts extractedItems)
                       !! length before
                     = match rank calculateMatchScore allProducts (name item) with
                       | top :: _ => Some [(id top, quantity item)]
                       | [] => None
                       end).
    { rewrite handleSearch_state, Hitems, list_lookup_middle; done. }
    assert (Hline : times (priceOr0 (activeProduct
                       (snd (handleSearch calculateMatchScore allProducts extractedItems))
                       (shownLineOf item) (length before)))
                      (numberOf (activeQuantity
                       (snd (handleSearch calculateMatchScore allProducts extractedItems))
                       (shownLineOf item) (length before)))
                    = lineSupplierTotal calculateMatchScore allProducts
                        selectedSupplierFilter item).
    { pose proof (rank_ids_NoDup calculateMatchScore allProducts (name item) Hnodup)
        as Hrank.
      pose proof (rank_from_catalog calculateMatchScore allProducts (name item)) as Hfrom.
      remember (shownLineOf item) as line eqn:Eline.
      assert (Hprods : products line
                       = List.filter (fun p => streq (supplier p) selectedSupplierFilter)
                           (rank calculateMatchScore allProducts (name item)))
        by (by subst line).
      assert (Hqty : detectedQuantity line = quantity item) by (by subst line).
      clear Eline. unfold lineSupplierTotal.
      destruct (rank calculateMatchScore allProducts (name item)) as [|top rest].
      - destruct (selection_of_empty_line _ line (length before) Hstate Hprods)
          as (_ & Hp & _).
        rewrite Hp. simpl priceOr0. apply times_zero_l.
      - assert (Hid : id top <> []).
        { apply Forall_cons in Hfrom as [(c & Hc & ->) _].
          rewrite List.Forall_forall in Hids. exact (Hids c Hc). }
        destruct (selection_of_single_entry _ line (length before) _ _ Hstate Hid)
          as (_ & Hp & Hq).
        rewrite Hp, Hq, Hprods, Hqty, find_filter, (find_unique_id _ _ _ Hrank).
        simpl List.find. rewrite streq_refl.
        destruct (streq (supplier top) selectedSupplierFilter); simpl priceOr0;
          [by destruct (quantity item =? 0)%Z | apply times_zero_l]. }
    rewrite Hline.
    pose proof (IH (before ++ [item])
                  (plus total (lineSupplierTotal calculateMatchScore allProducts
                                 selectedSupplierFilter item))) as IHnext.
    rewrite Hnext in IHnext.
    apply IHnext. by rewrite Hitems, <- app_assoc.
Qed.
End FilteredTotals.

(** X15.  Right after a search over a catalog whose ids are non-empty and
    pairwise different, the grand total under a supplier filter counts a
    line exactly when the line's top candidate is from the chosen
    supplier: price of the top candidate times the requested quantity,
    rounded to a double, the lines being added in double precision in
    their order.  A line whose top candidate is from another supplier adds
    0, whatever its other candidates are. *)
Theorem filtered_total_counts_top_of_supplier
    (calculateMatchScore : MappedProduct -> jsstring -> Q)
    (allProducts : list MappedProduct) (extractedItems : list ExtractedItem)
    (selectedSupplierFilter : jsstring) :
  streq selectedSupplierFilter allSuppliers = false ->
  NoDup (map id allProducts) ->
  Forall (fun p => id p <> []) allProducts ->
  let search := handleSearch calculateMatchScore allProducts extractedItems in
  grandTotal selectedSupplierFilter (fst search) (snd search)
  = sumNumbers (map (lineSupplierTotal calculateMatchScore allProducts selectedSupplierFilter)
                    extractedItems).
Proof.
  intros Hfilter Hnodup Hids search. unfold search, grandTotal, filteredResults.
  rewrite Hfilter, handleSearch_lines, map_map. cbn [term originalTerm products detectedQuantity].
  exact (sumLines_after_filtered_search calculateMatchScore allProducts extractedItems
           selectedSupplierFilter [] extractedItems 0%Q eq_refl Hnodup Hids).
Qed.

Lemma filtered_total_witness :
  let allProducts := [sampleProduct "prod-0-1" "Tesoura Mayo" 10;
                      fromSupplier "S2" (sampleProduct "prod-1-1" "Tesoura Mayo Reta" 7);
                      fromSupplier "S2" (sampleProduct "prod-2-1" "Pinca Kelly" 4)] in
  let items := [ {| name := lit "tesoura mayo"; quantity := 3 |};
                 {| name := lit "pinca kelly"; quantity := 5 |} ] in
  let search := handleSearch (LooserValue.calculateMatchScore asciiRuntime) allProducts items in
  (grandTotal (lit "S2") (fst search) (snd search) == 0 + 4 * 5)%Q
  /\ (grandTotal allSuppliers (fst search) (snd search) == 10 * 3 + 4 * 5)%Q.
Proof.
  cbv zeta. split; [|vm_compute; reflexivity].
  rewrite (filtered_total_counts_top_of_supplier
             (LooserValue.calculateMatchScore asciiRuntime)
             [sampleProduct "prod-0-1" "Tesoura Mayo" 10;
              fromSupplier "S2" (sampleProduct "prod-1-1" "Tesoura Mayo Reta" 7);
              fromSupplier "S2" (sampleProduct "prod-2-1" "Pinca Kelly" 4)]
             [ {| name := lit "tesoura mayo"; quantity := 3 |};
               {| name := lit "pinca kelly"; quantity := 5 |} ]
             (lit "S2")).
  - vm_compute. reflexivity.
  - reflexivity.
  - repeat (apply NoDup_cons; split;
            [intros Hin; repeat (apply elem_of_cons in Hin as [Hin|Hin]; [discriminate|]);
             by apply elem_of_nil in Hin|]).
    apply NoDup_nil_2.
  - repeat (apply Forall_cons; split; [discriminate|]). apply Forall_nil_2.
Defined.

(** ** The handlers of the quotation table *)

Lemma selection_frame (quotationState updated : QuotationMap) result idx :
  updated !! idx = quotationState !! idx ->
  activeIdOf updated result idx = activeIdOf quotationState result idx
  /\ activeProduct updated result idx = activeProduct quotationState result idx
  /\ activeQuantity updated result idx = activeQuantity quotationState result idx.
Proof.
  intros Hsame.
  assert (Hid : activeIdOf updated result idx = activeIdOf quotationState result idx)
    by (unfold activeIdOf; by rewrite Hsame).
  unfold activeProduct, activeQuantity, selectedQuantity. by rewrite Hid, Hsame.
Qed.

Lemma isSelected_single (quotationState : QuotationMap) idx productId qty product :
  quotationState !! idx = Some [(productId, qty)] ->
  isSelected quotationState idx product
  = streq productId (id product) || arrayIncludes objectPrototypeKeys (id product).
Proof.
  intros Hstate. unfold isSelected, lookupKey. rewrite Hstate. simpl.
  by destruct (streq productId (id product)).
Qed.

(** No id the loader generates names a member of [Object.prototype]. *)
Lemma loaded_ids_not_inherited (U : Unicode) (parseFloat : jsstring -> option Q)
    (Date_now : nat -> N) (response : FetchResult) (product : MappedProduct) :
  In product (fetchAndParseProducts U parseFloat Date_now response) ->
  arrayIncludes objectPrototypeKeys (id product) = false.
Proof.
  intros Hin. apply loaded_rows in Hin as (headers & index & line & ->).
  rewrite mapRow_id. apply not_true_is_false. intros H.
  apply arrayIncludes_In in H.
  assert (Hall : forallb (fun key => negb (startsWith key (lit "prod-")))
                   objectPrototypeKeys = true) by (vm_compute; reflexivity).
  rewrite forallb_forall in Hall. specialize (Hall _ H).
  assert (Hstarts : forall rest, startsWith (lit "prod-" ++ rest) (lit "prod-") = true).
  { intros rest. destruct rest; reflexivity. }
  by rewrite Hstarts in Hall.
Qed.

(** X16.  A quantity change is local to its line and the last one wins:
    on every other line the selected product, its quantity and the marks
    of the alternatives are what they were; two changes on different lines
    can be applied in either order; a second change on the same line
    erases the first. *)
Theorem quantity_change_is_local (termIndex other : nat) (productId : jsstring) (newQty : Z)
    (prev : QuotationMap) (result : BulkSearchResult) :
  termIndex <> other ->
  let next := handleQuantityChange termIndex productId newQty prev in
  activeProduct next result other = activeProduct prev result other
  /\ activeQuantity next result other = activeQuantity prev result other
  /\ (forall product, isSelected next other product = isSelected prev other product)
  /\ (forall otherId otherQty,
        handleQuantityChange other otherId otherQty next
        = handleQuantityChange termIndex productId newQty
            (handleQuantityChange other otherId otherQty prev))
  /\ (forall laterId laterQty,
        handleQuantityChange termIndex laterId laterQty next
        = handleQuantityChange termIndex laterId laterQty prev).
Proof.
  intros Hother next.
  assert (Hsame : next !! other = prev !! other).
  { unfold next, handleQuantityChange. by apply lookup_insert_ne. }
  destruct (selection_frame prev next result other Hsame) as (_ & Hp & Hq).
  split; [exact Hp|]. split; [exact Hq|]. split; [|split].
  - intros product. unfold isSelected. by rewrite Hsame.
  - intros otherId otherQty. unfold next, handleQuantityChange.
    by apply insert_insert_ne.
  - intros laterId laterQty. unfold next, handleQuantityChange.
    apply insert_insert_eq.
Qed.

Lemma quantity_change_is_local_witness :
  let line := {| term := lit "pinca"; originalTerm := lit "pinca";
                 products := [sampleProduct "prod-1-1" "Pinca Kelly" 7];
                 detectedQuantity := 2 |} in
  let prev : QuotationMap := {[ 1%nat := [(lit "prod-1-1", 2%Z)] ]} in
  activeQuantity (handleQuantityChange 0 (lit "prod-0-1") 9 prev) line 1 = 2%Z.
Proof.
  cbv zeta.
  rewrite (proj1 (proj2 (quantity_change_is_local 0 1 (lit "prod-0-1") 9
                           {[ 1%nat := [(lit "prod-1-1", 2%Z)] ]}
                           {| term := lit "pinca"; originalTerm := lit "pinca";
                              products := [sampleProduct "prod-1-1" "Pinca Kelly" 7];
                              detectedQuantity := 2 |}
                           ltac:(discriminate)))).
  reflexivity.
Defined.

(** X17.  Clicking an alternative in an expanded row makes it the
    selection of the line: among the products of the loaded catalog it is
    the only marked alternative, the line shows the first candidate
    bearing that id, and the quantity goes back to the detected quantity
    of the line (1 when that is 0), whatever the line held before; in
    particular clicking the marked alternative does not unmark it.  Other
    lines are left as they were.  In general an alternative is marked
    when its id is the clicked one or names a member of Object.prototype,
    which no id of the loader does. *)
Theorem toggle_selects_and_resets_quantity (U : Unicode) (parseFloat : jsstring -> option Q)
    (Date_now : nat -> N) (response : FetchResult)
    (result : BulkSearchResult) (tIdx : nat) (pId : jsstring) (prev : QuotationMap) :
  pId <> [] ->
  let next := onToggleSelect result tIdx pId prev in
  (forall product,
     isSelected next tIdx product
     = streq pId (id product) || arrayIncludes objectPrototypeKeys (id product))
  /\ (forall product,
        In product (fetchAndParseProducts U parseFloat Date_now response) ->
        isSelected next tIdx product = streq pId (id product))
  /\ activeProduct next result tIdx
     = List.find (fun prod => streq (id prod) pId) (products result)
  /\ activeQuantity next result tIdx
     = (if (detectedQuantity result =? 0)%Z then 1%Z else detectedQuantity result)
  /\ (forall other line, other <> tIdx ->
        activeProduct next line other = activeProduct prev line other
        /\ activeQuantity next line other = activeQuantity prev line other).
Proof.
  intros Hid next.
  assert (Hstate : next !! tIdx
                   = Some [(pId, if (detectedQuantity result =? 0)%Z then 1%Z
                                 else detectedQuantity result)]).
  { unfold next, onToggleSelect. apply lookup_insert_eq. }
  destruct (selection_of_single_entry next result tIdx _ _ Hstate Hid) as (_ & Hp & Hq).
  split; [|split; [|split; [exact Hp|split]]].
  - intros product. exact (isSelected_single next tIdx pId _ product Hstate).
  - intros product Hloaded. rewrite (isSelected_single next tIdx pId _ product Hstate).
    rewrite (loaded_ids_not_inherited U parseFloat Date_now response product Hloaded).
    apply orb_false_r.
  - rewrite Hq. destruct (detectedQuantity result =? 0)%Z eqn:E; [done|]. by rewrite E.
  - intros other line Hother.
    assert (Hsame : next !! other = prev !! other).
    { unfold next, onToggleSelect. by apply lookup_insert_ne. }
    destruct (selection_frame prev next line other Hsame) as (_ & Hp' & Hq'). done.
Qed.

Lemma toggle_witness :
  let line := {| term := lit "tesoura"; originalTerm := lit "tesoura";
                 products := [sampleProduct "prod-0-1" "Tesoura Mayo" 10;
                              sampleProduct "prod-1-1" "Tesoura Iris" 7];
                 detectedQuantity := 3 |} in
  let prev := handleQuantityChange 0 (lit "prod-0-1") 8 ∅ in
  let next := onToggleSelect line 0 (lit "prod-1-1") prev in
  activeQuantity prev line 0 = 8%Z
  /\ activeQuantity next line 0 = 3%Z
  /\ isSelected next 0 (sampleProduct "prod-0-1" "Tesoura Mayo" 10) = false
  /\ isSelected next 0 (sampleProduct "prod-1-1" "Tesoura Iris" 7) = true
  /\ isSelected next 0 (sampleProduct "toString" "Tesoura Iris" 7) = true.
Proof.
  cbv zeta. split; [reflexivity|].
  destruct (toggle_selects_and_resets_quantity
              asciiRuntime sampleParseFloat sampleClock sampleSheet
              {| term := lit "tesoura"; originalTerm := lit "tesoura";
                 products := [sampleProduct "prod-0-1" "Tesoura Mayo" 10;
                              sampleProduct "prod-1-1" "Tesoura Iris" 7];
                 detectedQuantity := 3 |} 0 (lit "prod-1-1")
              (handleQuantityChange 0 (lit "prod-0-1") 8 ∅) ltac:(discriminate))
    as (Hmarked & _ & _ & Hqty & _).
  split; [rewrite Hqty; reflexivity|].
  split; [|split]; rewrite Hmarked; reflexivity.
Defined.

(** X18.  A click on a table row flips the expansion of that row and of
    no other: the row is expanded afterwards exactly when it was not
    before, every other row keeps its state, a list without repetition
    stays so, and a row without candidates never expands. *)
Theorem row_click_flips_only_that_row (hasMatches : bool) (idx : nat) (prev : list nat) :
  (forall other, other <> idx ->
     (In other (onRowClick hasMatches idx prev) <-> In other prev))
  /\ (In idx (onRowClick true idx prev) <-> ~ In idx prev)
  /\ onRowClick false idx prev = prev
  /\ (NoDup prev -> NoDup (onRowClick hasMatches idx prev)).
Proof.
  assert (Hmem : existsb (Nat.eqb idx) prev = true <-> In idx prev).
  { rewrite existsb_exists. split.
    - intros (x & Hx & E). apply Nat.eqb_eq in E. by subst.
    - intros Hin. exists idx. split; [done|apply Nat.eqb_refl]. }
  assert (Hfilter : forall other,
            In other (List.filter (fun i => negb (Nat.eqb i idx)) prev)
            <-> In other prev /\ other <> idx).
  { intros other. rewrite List.filter_In, negb_true_iff, Nat.eqb_neq. done. }
  split; [|split; [|split]].
  - intros other Hother. unfold onRowClick. destruct hasMatches; [|done].
    destruct (existsb _ _).
    + rewrite Hfilter. tauto.
    + rewrite in_app_iff. simpl. intuition congruence.
  - unfold onRowClick. destruct (existsb (Nat.eqb idx) prev) eqn:E.
    + rewrite Hfilter. pose proof (proj1 Hmem eq_refl). tauto.
    + rewrite in_app_iff. simpl. split; [|tauto].
      intros _ Hin. apply Hmem in Hin. discriminate.
  - done.
  - intros Hnodup. unfold onRowClick. destruct hasMatches; [|done].
    destruct (existsb (Nat.eqb idx) prev) eqn:E.
    + clear E Hmem Hfilter. induction Hnodup as [|x l Hx _ IH]; [constructor|].
      simpl. destruct (negb (x =? idx)); [|done].
      apply NoDup_cons. split; [|done].
      intros Hin. apply Hx. apply list_elem_of_In in Hin.
      apply List.filter_In in Hin as [Hin _]. by apply list_elem_of_In.
    + apply NoDup_app. split; [done|]. split; [|apply NoDup_singleton].
      intros x Hx Hx'. apply list_elem_of_singleton in Hx'. subst x.
      apply list_elem_of_In, Hmem in Hx. discriminate.
Qed.

Lemma row_click_witness :
  NoDup (onRowClick true 2 (onRowClick true 0 (onRowClick true 2 []))).
Proof.
  apply (proj2 (proj2 (proj2 (row_click_flips_only_that_row true 2
                                (onRowClick true 0 (onRowClick true 2 [])))))).
  apply (proj2 (proj2 (proj2 (row_click_flips_only_that_row true 0
                                (onRowClick true 2 []))))).
  apply (proj2 (proj2 (proj2 (row_click_flips_only_that_row true 2 [])))).
  apply NoDup_nil_2.
Defined.

(** ** The local fallbacks of the language-model calls *)

Lemma trimStart_In c s : In c (trimStart s) -> In c s.
Proof.
  induction s as [|d s IH]; [done|]. simpl.
  destruct (isWhiteSpace d); [|done]. intros H. right. by apply IH.
Qed.

Lemma trimEnd_In c s : In c (trimEnd s) -> In c s.
Proof.
  induction s as [|d s IH]; [done|]. simpl.
  destruct (trimEnd s) as [|e r].
  - destruct (isWhiteSpace d); [done|]. simpl. tauto.
  - intros [H|H]; [by left|]. right. by apply IH.
Qed.

Lemma trim_In c s : In c (trim s) -> In c s.
Proof. intros H. by apply trimStart_In, trimEnd_In. Qed.

Lemma trimEnd_blank s : Forall (fun c => isWhiteSpace c = true) s -> trimEnd s = [].
Proof.
  induction 1 as [|c s Hc _ IH]; [done|]. simpl. by rewrite IH, Hc.
Qed.

Lemma trim_blank s : Forall (fun c => isWhiteSpace c = true) s -> trim s = [].
Proof.
  intros H. unfold trim. apply trimEnd_blank.
  apply List.Forall_forall. intros c Hc. apply trimStart_In in Hc.
  rewrite List.Forall_forall in H. by apply H.
Qed.

Lemma trimEnd_no_blank s : Forall (fun c => isWhiteSpace c = false) s -> trimEnd s = s.
Proof.
  induction 1 as [|c s Hc _ IH]; [done|]. simpl. rewrite IH, Hc. by destruct s.
Qed.

Lemma trim_no_blank s : Forall (fun c => isWhiteSpace c = false) s -> trim s = s.
Proof.
  intros H. unfold trim. rewrite (startsClean_fixed s).
  - by apply trimEnd_no_blank.
  - destruct H; [done|]. done.
Qed.

Lemma splitAtEach_units isSep s :
  Forall (fun piece => Forall (fun c => In c s /\ isSep c = false) piece)
         (splitAtEach isSep s).
Proof.
  induction s as [|c r IH]; [by repeat constructor|]. simpl.
  assert (Hlift : Forall (fun piece => Forall (fun d => In d (c :: r) /\ isSep d = false) piece)
                         (splitAtEach isSep r)).
  { eapply Forall_impl; [exact IH|]. simpl. intros piece Hpiece.
    eapply Forall_impl; [exact Hpiece|]. simpl. tauto. }
  destruct (isSep c) eqn:Ec.
  - constructor; [constructor|done].
  - destruct (splitAtEach isSep r) as [|w ws]; [repeat constructor; tauto|].
    apply Forall_cons in Hlift as [Hw Hws].
    constructor; [|done]. constructor; [tauto|done].
Qed.

Lemma splitAtEach_nonempty isSep s : splitAtEach isSep s <> [].
Proof.
  destruct s as [|c r]; [done|]. simpl.
  destruct (isSep c); [done|]. by destruct (splitAtEach isSep r).
Qed.

Lemma splitAtEach_clean isSep s :
  Forall (fun c => isSep c = false) s -> splitAtEach isSep s = [s].
Proof.
  induction 1 as [|c s Hc _ IH]; [done|]. simpl. by rewrite Hc, IH.
Qed.

Lemma splitAtEach_app isSep x sep rest :
  Forall (fun c => isSep c = false) x -> isSep sep = true ->
  splitAtEach isSep (x ++ sep :: rest) = x :: splitAtEach isSep rest.
Proof.
  intros Hx Hsep. induction Hx as [|c x Hc _ IH]; simpl.
  - by rewrite Hsep.
  - by rewrite Hc, IH.
Qed.

Lemma splitAtEach_joinWith isSep sep names :
  isSep sep = true -> names <> [] ->
  Forall (fun piece => Forall (fun c => isSep c = false) piece) names ->
  splitAtEach isSep (joinWith [sep] names) = names.
Proof.
  intros Hsep. induction names as [|x names IH]; [done|]. intros _ Hclean.
  apply Forall_cons in Hclean as [Hx Hnames].
  destruct names as [|y r].
  - simpl. by apply splitAtEach_clean.
  - rewrite joinWith_cons. simpl app.
    rewrite (splitAtEach_app isSep x sep _ Hx Hsep). f_equal. by apply IH.
Qed.

(** X19.  The names the local fallback of the extractor returns are cut
    out of the text and hold no line break and no comma; a text made of
    white space, line breaks and commas only gives no item at all. *)
Theorem fallback_names_are_clean (JSON_parse : jsstring -> option (list ExtractedItem))
    (text : jsstring) :
  let items := extractShoppingItems JSON_parse Throws text in
  Forall (fun item => Forall (fun c => In c text /\ c <> 10%N /\ c <> 44%N) (name item))
         items
  /\ (Forall (fun c => isWhiteSpace c || isLineBreakOrComma c = true) text -> items = []).
Proof.
  intros items. unfold items. simpl extractShoppingItems.
  rewrite localSplit_fallbackTerms. unfold fallbackTerms.
  pose proof (splitAtEach_units isLineBreakOrComma text) as Hunits.
  rewrite List.Forall_forall in Hunits.
  split.
  - apply List.Forall_forall. intros item Hitem.
    apply in_map_iff in Hitem as (piece & <- & Hpiece).
    apply List.filter_In in Hpiece as [Hpiece _].
    apply in_map_iff in Hpiece as (raw & <- & Hraw). simpl.
    apply List.Forall_forall. intros c Hc. apply trim_In in Hc.
    specialize (Hunits raw Hraw). rewrite List.Forall_forall in Hunits.
    destruct (Hunits c Hc) as [Hin Hsep]. split; [done|].
    unfold isLineBreakOrComma in Hsep. apply orb_false_iff in Hsep as [H10 H44].
    apply N.eqb_neq in H10, H44. done.
  - intros Hblank. rewrite List.Forall_forall in Hblank.
    assert (Hnone : List.filter (fun piece => (0 <? length piece)%nat)
                      (map trim (splitAtEach isLineBreakOrComma text)) = []).
    { induction (splitAtEach isLineBreakOrComma text) as [|raw raws IH]; [done|].
      simpl. rewrite (trim_blank raw).
      - simpl. apply IH. intros x Hx. apply Hunits. by right.
      - apply List.Forall_forall. intros c Hc.
        specialize (Hunits raw (or_introl eq_refl)).
        rewrite List.Forall_forall in Hunits. destruct (Hunits c Hc) as [Hin Hsep].
        specialize (Hblank c Hin). rewrite Hsep, orb_false_r in Hblank. done. }
    by rewrite Hnone.
Qed.

Lemma fallback_names_witness :
  extractShoppingItems (fun _ => None) Throws (lit " , ,, ") = [].
Proof.
  apply (proj2 (fallback_names_are_clean (fun _ => None) (lit " , ,, "))).
  repeat (apply Forall_cons; split; [reflexivity|]). apply Forall_nil_2.
Defined.

(** X20.  A list written one item per line, or separated by commas, is
    read back by the local fallback of the extractor item for item, each
    with quantity 1: the items are any non-empty trimmed names without
    line break and comma. *)
Theorem fallback_reads_back_a_list (JSON_parse : jsstring -> option (list ExtractedItem))
    (sep : jschar) (names : list jsstring) :
  isLineBreakOrComma sep = true ->
  Forall (fun n => n <> [] /\ trim n = n
                   /\ Forall (fun c => isLineBreakOrComma c = false) n) names ->
  extractShoppingItems JSON_parse Throws (joinWith [sep] names)
  = map (fun n => {| name := n; quantity := 1 |}) names.
Proof.
  intros Hsep Hnames. simpl extractShoppingItems.
  rewrite localSplit_fallbackTerms. unfold fallbackTerms.
  destruct names as [|x names]; [done|].
  rewrite (splitAtEach_joinWith isLineBreakOrComma sep (x :: names) Hsep).
  - f_equal. induction Hnames as [|n ns (Hne & Htrim & _) _ IH]; [done|].
    simpl. rewrite Htrim. destruct n; [done|]. simpl. by rewrite IH.
  - done.
  - eapply Forall_impl; [exact Hnames|]. simpl. tauto.
Qed.

Lemma fallback_reads_back_witness :
  extractShoppingItems (fun _ => None) Throws
    (joinWith [10%N] [lit "Pinca Kelly 2"; lit "Tesoura Mayo"])
  = [ {| name := lit "Pinca Kelly 2"; quantity := 1 |};
      {| name := lit "Tesoura Mayo"; quantity := 1 |} ].
Proof.
  apply (fallback_reads_back_a_list (fun _ => None) 10%N
           [lit "Pinca Kelly 2"; lit "Tesoura Mayo"]).
  - reflexivity.
  - repeat (apply Forall_cons; split;
            [split; [discriminate|split; [reflexivity|]];
             repeat (apply Forall_cons; split; [reflexivity|]); apply Forall_nil_2|]).
    apply Forall_nil_2.
Defined.

(** X21.  When the call to the language model fails, or answers without
    text or with text that cannot be parsed, the search intent holds the
    words of the query and nothing else: the query cut at every space.
    There is at least one keyword, no keyword holds a space, and the
    keywords joined by single spaces give the query back. *)
Theorem intent_falls_back_to_the_words (JSON_parse : jsstring -> option Intent.SearchIntent)
    (call : GenerateContent) (query : jsstring) :
  call = Throws \/ call = Responds None \/ call = Responds (Some [])
  \/ (exists responseText, call = Responds (Some responseText)
                           /\ JSON_parse responseText = None) ->
  let intent := Intent.analyzeSearchIntent JSON_parse call query in
  Intent.keywords intent = splitOn 32 query
  /\ Intent.keywords intent <> []
  /\ joinWith [32%N] (Intent.keywords intent) = query
  /\ Forall (fun k => ~ In 32%N k) (Intent.keywords intent)
  /\ Intent.minPrice intent = None /\ Intent.maxPrice intent = None
  /\ Intent.category intent = None /\ Intent.sentiment intent = None.
Proof.
  intros Hfail intent.
  assert (Hintent : intent = Intent.keywordsOnly query).
  { unfold intent.
    destruct Hfail as [-> | [-> | [-> | (responseText & -> & Hparse)]]]; try done.
    simpl. rewrite Hparse. by destruct (truthy responseText). }
  rewrite Hintent. simpl.
  split; [done|]. split; [apply splitOn_nonempty|]. split; [apply joinWith_splitOn|].
  split; [|done].
  eapply Forall_impl; [apply (splitOn_units 32%N query)|]. simpl.
  intros k Hk Hin. rewrite List.Forall_forall in Hk. by destruct (Hk _ Hin).
Qed.

Lemma intent_fallback_witness :
  Intent.keywords (Intent.analyzeSearchIntent (fun _ => None) Throws (lit "pinca  kelly"))
  = [lit "pinca"; []; lit "kelly"].
Proof.
  rewrite (proj1 (intent_falls_back_to_the_words (fun _ => None) Throws
                    (lit "pinca  kelly") (or_introl eq_refl))).
  reflexivity.
Defined.

(** ** Lines of the catalog sheet *)

Lemma parseCSVLoop_shape (n : nat) :
  forall line current inQuotes result, length line <= n ->
  exists fields,
    parseCSVLoop line current inQuotes result = result ++ fields
    /\ fields <> []
    /\ Forall (fun f => trim f = f) fields
    /\ length fields <= S (length (List.filter (fun c => (c =? 44)%N) line)).
Proof.
  induction n as [|n IH]; intros line current inQuotes result Hlen.
  - destruct line; [|simpl in Hlen; lia].
    exists [trim current]. simpl. repeat split; [done| |lia].
    apply Forall_cons. split; [apply trim_idempotent|apply Forall_nil_2].
  - destruct line as [|char rest].
    { exists [trim current]. simpl. repeat split; [done| |lia].
      apply Forall_cons. split; [apply trim_idempotent|apply Forall_nil_2]. }
    simpl in Hlen. simpl parseCSVLoop.
    destruct (char =? 34)%N eqn:Equote.
    + assert (Hcount : List.filter (fun c => (c =? 44)%N) (char :: rest)
                       = List.filter (fun c => (c =? 44)%N) rest).
      { simpl. apply N.eqb_eq in Equote. by subst char. }
      rewrite Hcount.
      destruct rest as [|next rest'].
      * apply IH. simpl. lia.
      * destruct (inQuotes && (next =? 34)%N) eqn:Eskip.
        -- apply andb_true_iff in Eskip as [_ Enext]. apply N.eqb_eq in Enext. subst next.
           simpl List.filter.
           apply IH. simpl in Hlen. lia.
        -- apply IH. simpl in *. lia.
    + destruct ((char =? 44)%N && negb inQuotes) eqn:Ecomma.
      * apply andb_true_iff in Ecomma as [Ecomma _].
        destruct (IH rest [] inQuotes (result ++ [trim current]) ltac:(lia))
          as (fields & Hfields & Hne & Htrim & Hcount).
        exists (trim current :: fields). rewrite Hfields, <- app_assoc.
        repeat split; [done| |].
        -- apply Forall_cons. split; [apply trim_idempotent|done].
        -- simpl. rewrite Ecomma. simpl. lia.
      * destruct (IH rest (current ++ [char]) inQuotes result ltac:(lia))
          as (fields & Hfields & Hne & Htrim & Hcount).
        exists fields. repeat split; [done|done|done|].
        simpl. destruct (char =? 44)%N; simpl; lia.
Qed.

Lemma parseCSVLoop_unquoted line current result :
  Forall (fun c => c <> 34%N) line ->
  parseCSVLoop line current false result
  = result ++ match splitOn 44 line with
              | w :: ws => trim (current ++ w) :: map trim ws
              | [] => []
              end.
Proof.
  intros Hline. revert current result.
  induction Hline as [|char rest Hchar _ IH]; intros current result.
  - simpl. by rewrite app_nil_r.
  - apply N.eqb_neq in Hchar. simpl. rewrite Hchar.
    destruct (char =? 44)%N eqn:Ecomma; simpl.
    + rewrite IH, <- app_assoc, app_nil_r. simpl.
      pose proof (splitOn_nonempty 44%N rest). by destruct (splitOn 44 rest).
    + rewrite IH. pose proof (splitOn_nonempty 44%N rest).
      destruct (splitOn 44 rest); [done|]. by rewrite <- app_assoc.
Qed.

Lemma parseCSVLoop_inside_quotes cell tail current result :
  match tail with
  | next :: _ => next <> 34%N
  | [] => True
  end ->
  parseCSVLoop (doubleQuotes cell ++ 34%N :: tail) current true result
  = parseCSVLoop tail (current ++ cell) false result.
Proof.
  intros Htail. revert current.
  induction cell as [|c cell IH]; intros current.
  - rewrite app_nil_r. simpl doubleQuotes. simpl app.
    destruct tail as [|next rest']; [done|].
    apply N.eqb_neq in Htail. simpl. by rewrite Htail.
  - unfold doubleQuotes. simpl flat_map. fold (doubleQuotes cell).
    destruct (c =? 34)%N eqn:Ec.
    + apply N.eqb_eq in Ec. subst c. simpl.
      rewrite IH. by rewrite <- app_assoc.
    + simpl. rewrite Ec. simpl. rewrite andb_false_r, IH. by rewrite <- app_assoc.
Qed.

Lemma parseCSVLoop_quoted_cell cell tail result :
  match tail with
  | next :: _ => next <> 34%N
  | [] => True
  end ->
  parseCSVLoop (csvQuote cell ++ tail) [] false result
  = parseCSVLoop tail cell false result.
Proof.
  intros Htail. unfold csvQuote. rewrite <- !app_assoc. simpl app.
  change (parseCSVLoop (34%N :: doubleQuotes cell ++ 34%N :: tail) [] false result)
    with (match doubleQuotes cell ++ 34%N :: tail with
          | next :: rest' =>
              if false && (next =? 34)%N
              then parseCSVLoop rest' ([] ++ [34%N]) false result
              else parseCSVLoop (doubleQuotes cell ++ 34%N :: tail) [] (negb false) result
          | [] => parseCSVLoop (doubleQuotes cell ++ 34%N :: tail) [] (negb false) result
          end).
  destruct (doubleQuotes cell ++ 34%N :: tail) eqn:E.
  - by destruct (doubleQuotes cell).
  - rewrite <- E. simpl andb. cbv iota. simpl negb.
    by rewrite (parseCSVLoop_inside_quotes cell tail [] result Htail).
Qed.

(** X22.  A line of the sheet always yields at least one cell, at most
    one more than it has commas, and every cell comes out trimmed. *)
Theorem parseCSVLine_cells (line : jsstring) :
  parseCSVLine line <> []
  /\ length (parseCSVLine line) <= S (length (List.filter (fun c => (c =? 44)%N) line))
  /\ Forall (fun cell => trim cell = cell) (parseCSVLine line).
Proof.
  destruct (parseCSVLoop_shape (length line) line [] false [] (le_n _))
    as (fields & Hfields & Hne & Htrim & Hcount).
  unfold parseCSVLine. rewrite Hfields. simpl. done.
Qed.

(** X23.  On a line without quote character the cells are the pieces
    between the commas, each trimmed. *)
Theorem parseCSVLine_without_quotes (line : jsstring) :
  Forall (fun c => c <> 34%N) line ->
  parseCSVLine line = map trim (splitOn 44 line).
Proof.
  intros Hline. unfold parseCSVLine.
  rewrite (parseCSVLoop_unquoted line [] [] Hline). simpl.
  pose proof (splitOn_nonempty 44%N line). by destruct (splitOn 44 line).
Qed.

Lemma parseCSVLine_without_quotes_witness :
  parseCSVLine (lit "Tesoura Mayo , 10.5,,ACME")
  = [lit "Tesoura Mayo"; lit "10.5"; []; lit "ACME"].
Proof.
  rewrite (parseCSVLine_without_quotes (lit "Tesoura Mayo , 10.5,,ACME")).
  - reflexivity.
  - repeat (apply Forall_cons; split; [discriminate|]). apply Forall_nil_2.
Defined.

(** X24.  Cells written between quotes, with every quote character of
    a cell doubled (the way the export writes the requested term), and
    joined by commas are read back cell for cell, commas and quote
    characters included, up to the trimming of each cell. *)
Theorem parseCSVLine_reads_quoted_cells (cells : list jsstring) :
  cells <> [] ->
  parseCSVLine (joinWith [44%N] (map csvQuote cells)) = map trim cells.
Proof.
  intros Hne. unfold parseCSVLine.
  assert (H : forall result,
    parseCSVLoop (joinWith [44%N] (map csvQuote cells)) [] false result
    = result ++ map trim cells).
  { induction cells as [|cell cells IH]; [done|]. intros result.
    destruct cells as [|cell' cells].
    - simpl map. simpl joinWith.
      rewrite <- (app_nil_r (csvQuote cell)).
      by rewrite (parseCSVLoop_quoted_cell cell [] result I).
    - change (joinWith [44%N] (map csvQuote (cell :: cell' :: cells)))
        with (csvQuote cell ++ 44%N :: joinWith [44%N] (map csvQuote (cell' :: cells))).
      rewrite (parseCSVLoop_quoted_cell cell _ result); [|done].
      simpl parseCSVLoop at 1. rewrite IH by done.
      by rewrite <- app_assoc. }
  by rewrite H.
Qed.

Lemma parseCSVLine_reads_quoted_cells_witness :
  parseCSVLine (joinWith [44%N] (map csvQuote [lit "Pinca, reta"; [34%N] ++ lit "Kelly"]))
  = [lit "Pinca, reta"; [34%N] ++ lit "Kelly"].
Proof.
  rewrite (parseCSVLine_reads_quoted_cells [lit "Pinca, reta"; [34%N] ++ lit "Kelly"]).
  - reflexivity.
  - discriminate.
Defined.

(** ** The catalog loader *)

Section LoaderFacts.
Context (U : Unicode) (parseFloat : jsstring -> option Q) (Date_now : nat -> N).

Local Abbreviation mapRowOf := (mapRow parseFloat Date_now).
Local Abbreviation parseProductsOf := (parseProducts U parseFloat Date_now).
Local Abbreviation loaded := (fetchAndParseProducts U parseFloat Date_now).

(** *** The cells a row reads *)

Lemma fillRaw_values (headers : list jsstring) (i : nat) (values : list jsstring)
    (rawObj : gmap jsstring jsstring) (key v : jsstring) :
  fillRaw headers i values rawObj !! key = Some v ->
  rawObj !! key = Some v \/ exists j, v = default [] (values !! j).
Proof.
  revert i rawObj. induction headers as [|header rest IH]; intros i rawObj; [by left|].
  simpl. intros H. apply IH in H as [H|H]; [|by right].
  destruct (decide (header = key)) as [->|Hne].
  - rewrite lookup_insert_eq in H. injection H as <-. right. by exists i.
  - rewrite lookup_insert_ne in H by done. by left.
Qed.

Lemma findField_trimmed (headers values keywords : list jsstring) :
  Forall (fun cell => trim cell = cell) values ->
  trim (findField headers (fillRaw headers 0 values ∅) keywords)
  = findField headers (fillRaw headers 0 values ∅) keywords.
Proof.
  intros Hvalues. unfold findField.
  match goal with
  | |- trim (match ?key with _ => _ end) = _ => destruct key as [k|]; [|done]
  end.
  destruct (truthy k); [|done].
  destruct (fillRaw headers 0 values ∅ !! k) as [v|] eqn:E; [|done]. simpl.
  apply fillRaw_values in E as [E|[j ->]]; [by rewrite lookup_empty in E|].
  destruct (values !! j) as [cell|] eqn:Ecell; [|done]. simpl.
  rewrite List.Forall_forall in Hvalues. apply Hvalues.
  apply list_elem_of_lookup_2 in Ecell. by apply list_elem_of_In.
Qed.

Lemma orElse_present a b :
  trim a = a -> b <> [] /\ trim b = b -> orElse a b <> [] /\ trim (orElse a b) = orElse a b.
Proof.
  intros Ha Hb. unfold orElse, truthy. destruct a; simpl; [done|]. done.
Qed.

Lemma trimmed_cell line :
  trim (default [] (parseCSVLine line !! 0%nat)) = default [] (parseCSVLine line !! 0%nat).
Proof.
  destruct (parseCSVLoop_shape (length line) line [] false [] (le_n _))
    as (fields & Hfields & _ & Htrim & _).
  unfold parseCSVLine. rewrite Hfields. simpl.
  destruct Htrim; [done|]. done.
Qed.

Lemma parseCSVLine_trimmed line : Forall (fun cell => trim cell = cell) (parseCSVLine line).
Proof.
  destruct (parseCSVLoop_shape (length line) line [] false [] (le_n _))
    as (fields & Hfields & _ & Htrim & _).
  unfold parseCSVLine. by rewrite Hfields.
Qed.

Lemma reference_present (index : nat) :
  lit "REF-" ++ decimal (N.of_nat index) <> []
  /\ trim (lit "REF-" ++ decimal (N.of_nat index)) = lit "REF-" ++ decimal (N.of_nat index).
Proof.
  split; [done|]. apply trim_no_blank.
  apply Forall_app. split.
  - repeat (apply Forall_cons; split; [reflexivity|]). apply Forall_nil_2.
  - eapply Forall_impl; [apply decimal_digits|]. apply isDigit_not_blank.
Qed.

Lemma mapRow_fields headers index line :
  let p := mapRowOf headers index line in
  (title p <> [] /\ trim (title p) = title p)
  /\ (code p <> [] /\ trim (code p) = code p)
  /\ (brand p <> [] /\ trim (brand p) = brand p)
  /\ (supplier p <> [] /\ trim (supplier p) = supplier p)
  /\ category p <> []
  /\ (exists value, price p = Some value)
  /\ matchScore p = None.
Proof.
  intros p.
  pose proof (parseCSVLine_trimmed line) as Hvalues.
  pose proof (fun keywords => findField_trimmed headers (parseCSVLine line) keywords Hvalues)
    as Hfield.
  assert (Hpresent : forall x, x <> [] /\ trim x = x -> trim x <> [] /\ trim (trim x) = trim x).
  { intros x [Hne Hx]. by rewrite !Hx. }
  split; [|split; [|split; [|split; [|split; [|split]]]]].
  - apply Hpresent, orElse_present; [|done].
    unfold orElse. destruct (truthy _); [apply Hfield|apply trimmed_cell].
  - apply Hpresent, orElse_present; [apply Hfield|apply reference_present].
  - apply Hpresent, orElse_present; [apply Hfield|done].
  - apply Hpresent, orElse_present; [apply Hfield|done].
  - apply (orElse_present _ (lit "Geral")); [apply Hfield|done].
  - by eexists.
  - done.
Qed.
End LoaderFacts.

(** X25.  The loader gives an empty catalog when the sheet cannot be
    fetched, when the server answers with an error status, when the body
    cannot be read, and when the body is an HTML page.  Otherwise it gives
    one product per non-blank line after the first non-blank line, the
    header; a sheet with fewer than two non-blank lines gives none. *)
Theorem loader_row_count (U : Unicode) (parseFloat : jsstring -> option Q)
    (Date_now : nat -> N) (body : jsstring) :
  let load := fetchAndParseProducts U parseFloat Date_now in
  let nonBlank := List.filter (fun line => negb (streq (trim line) [])) (splitOn 10 body) in
  load FetchThrows = []
  /\ (forall text, load (FetchResponds false text) = [])
  /\ load (FetchResponds true None) = []
  /\ (startsWith (trim body) (lit "<!DOCTYPE html>") = true ->
      load (FetchResponds true (Some body)) = [])
  /\ (startsWith (trim body) (lit "<!DOCTYPE html>") = false ->
      length (load (FetchResponds true (Some body))) = length nonBlank - 1).
Proof.
  intros load nonBlank. unfold load. simpl.
  split; [done|]. split; [done|]. split; [done|]. split.
  - by intros ->.
  - intros ->. unfold parseProducts. fold nonBlank.
    destruct (length nonBlank <? 2)%nat eqn:E.
    + apply Nat.ltb_lt in E. simpl. lia.
    + destruct nonBlank as [|headerLine dataLines]; [done|].
      rewrite length_imap. simpl. lia.
Qed.

Lemma loader_row_count_witness :
  length (fetchAndParseProducts asciiRuntime (fun _ => None) (fun _ => 1700000000000%N)
            (FetchResponds true
               (Some (joinWith [10%N] [lit "Nome,Preco"; lit "Tesoura Mayo,10";
                                       lit "  "; lit "Pinca Kelly,7"]))))
  = 2.
Proof.
  rewrite (proj2 (proj2 (proj2 (proj2
             (loader_row_count asciiRuntime (fun _ => None) (fun _ => 1700000000000%N)
                (joinWith [10%N] [lit "Nome,Preco"; lit "Tesoura Mayo,10";
                                  lit "  "; lit "Pinca Kelly,7"])))))).
  - reflexivity.
  - reflexivity.
Defined.

(** X26.  Whatever the response, the clock and the sheet, the products
    of the loaded catalog have non-empty, pairwise different ids: the id
    of a product starts with prod- and the number of its row. *)
Theorem loaded_ids_are_distinct (U : Unicode) (parseFloat : jsstring -> option Q)
    (Date_now : nat -> N) (response : FetchResult) :
  let catalog := fetchAndParseProducts U parseFloat Date_now response in
  NoDup (map id catalog)
  /\ Forall (fun p => id p <> []) catalog
  /\ forall index p, catalog !! index = Some p ->
       id p = lit "prod-" ++ decimal (N.of_nat index) ++ lit "-" ++ decimal (Date_now index).
Proof.
  intros catalog. split; [apply loaded_ids_NoDup|]. split; [apply loaded_ids_nonempty|].
  intros index p. unfold catalog, fetchAndParseProducts.
  destruct response as [|ok [body|]]; [done| |by destruct ok].
  destruct ok; [|done]. simpl. destruct (startsWith _ _); [done|].
  unfold parseProducts. destruct (_ <? 2)%nat; [done|].
  destruct (List.filter _ _) as [|headerLine dataLines]; [done|].
  rewrite list_lookup_imap. destruct (dataLines !! index); [|done].
  simpl. by intros [= <-].
Qed.

Lemma loaded_ids_witness :
  let catalog :=
    fetchAndParseProducts asciiRuntime (fun _ => None) (fun _ => 17%N)
      (FetchResponds true
         (Some (joinWith [10%N] [lit "Nome"; lit "Tesoura Mayo"; lit "Tesoura Mayo"]))) in
  exists p, catalog !! 1%nat = Some p /\ id p = lit "prod-1-17".
Proof.
  cbv zeta. eexists. split; [reflexivity|].
  rewrite (proj2 (proj2 (loaded_ids_are_distinct asciiRuntime (fun _ => None) (fun _ => 17%N)
             (FetchResponds true
                (Some (joinWith [10%N] [lit "Nome"; lit "Tesoura Mayo";
                                        lit "Tesoura Mayo"])))))
             1%nat _ eq_refl).
  reflexivity.
Defined.

(** X27.  Every product of the loaded catalog has a non-empty, trimmed
    title, code, brand and supplier, a non-empty category and a price
    that is a number, whatever the cells of its row hold: no field is
    left empty by a missing or empty cell.  The loader attaches no match
    score. *)
Theorem loaded_fields_are_present (U : Unicode) (parseFloat : jsstring -> option Q)
    (Date_now : nat -> N) (response : FetchResult) :
  Forall (fun p =>
            (title p <> [] /\ trim (title p) = title p)
            /\ (code p <> [] /\ trim (code p) = code p)
            /\ (brand p <> [] /\ trim (brand p) = brand p)
            /\ (supplier p <> [] /\ trim (supplier p) = supplier p)
            /\ category p <> []
            /\ (exists value, price p = Some value)
            /\ matchScore p = None)
         (fetchAndParseProducts U parseFloat Date_now response).
Proof.
  apply List.Forall_forall. intros p Hp.
  apply loaded_rows in Hp as (headers & index & line & ->).
  apply mapRow_fields.
Qed.

(** X28.  Loading and searching compose: for every sheet, right after a
    search over the loaded catalog the grand total is the sum, added in
    double precision line by line, of the price of the top candidate times
    the requested quantity rounded to a double, and under a supplier
    filter the same sum with 0 for the lines whose top candidate is from
    another supplier.  No assumption on the ids is left: the loader
    provides them. *)
Theorem loaded_catalog_totals (U : Unicode) (parseFloat : jsstring -> option Q)
    (Date_now : nat -> N) (response : FetchResult)
    (calculateMatchScore : MappedProduct -> jsstring -> Q)
    (extractedItems : list ExtractedItem) (selectedSupplierFilter : jsstring) :
  let allProducts := fetchAndParseProducts U parseFloat Date_now response in
  let search := handleSearch calculateMatchScore allProducts extractedItems in
  grandTotal allSuppliers (fst search) (snd search)
  = sumNumbers (map (lineDefaultTotal calculateMatchScore allProducts) extractedItems)
  /\ (streq selectedSupplierFilter allSuppliers = false ->
      grandTotal selectedSupplierFilter (fst search) (snd search)
      = sumNumbers (map (lineSupplierTotal calculateMatchScore allProducts
                           selectedSupplierFilter) extractedItems)).
Proof.
  intros allProducts search.
  pose proof (loaded_ids_NoDup U parseFloat Date_now response) as Hnodup.
  pose proof (loaded_ids_nonempty U parseFloat Date_now response) as Hids.
  fold allProducts in Hnodup, Hids.
  split.
  - unfold search, grandTotal. rewrite filteredResults_all, handleSearch_lines.
    apply (sumLines_after_search calculateMatchScore allProducts extractedItems
             [] extractedItems 0%Q eq_refl).
    apply List.Forall_forall. intros item _.
    pose proof (rank_from_catalog calculateMatchScore allProducts (name item)) as Hfrom.
    destruct (rank calculateMatchScore allProducts (name item)) as [|top rest]; [done|].
    apply Forall_cons in Hfrom as [(c & Hc & ->) _].
    rewrite List.Forall_forall in Hids. exact (Hids c Hc).
  - intros Hfilter. unfold search, grandTotal, filteredResults.
    rewrite Hfilter, handleSearch_lines, map_map.
    cbn [term originalTerm products detectedQuantity].
    exact (sumLines_after_filtered_search calculateMatchScore allProducts extractedItems
             selectedSupplierFilter [] extractedItems 0%Q eq_refl Hnodup Hids).
Qed.

Lemma loaded_catalog_totals_witness :
  let items := [ {| name := lit "pinca kelly"; quantity := 3 |};
                 {| name := lit "tesoura mayo"; quantity := 2 |} ] in
  let search := handleSearch (LooserValue.calculateMatchScore asciiRuntime) sampleCatalog
                  items in
  (grandTotal (lit "S2") (fst search) (snd search) == 7 * 3 + 0)%Q.
Proof.
  cbv zeta. unfold sampleCatalog.
  rewrite (proj2 (loaded_catalog_totals asciiRuntime sampleParseFloat sampleClock sampleSheet
             (LooserValue.calculateMatchScore asciiRuntime)
             [ {| name := lit "pinca kelly"; quantity := 3 |};
               {| name := lit "tesoura mayo"; quantity := 2 |} ]
             (lit "S2")) eq_refl).
  vm_compute. reflexivity.
Defined.

(** ** The status column and the filter options *)

(** X29.  Right after a search, with no supplier filter and non-empty
    ids on the top candidates, the status the export writes for a line
    is the classification the toast counted for it. *)
Theorem export_status_is_toast_class (U : Unicode)
    (calculateMatchScore : MappedProduct -> jsstring -> Q)
    (allProducts : list MappedProduct) (extractedItems : list ExtractedItem) :
  Forall (fun item => match rank calculateMatchScore allProducts (name item) with
                      | top :: _ => id top <> []
                      | [] => True
                      end) extractedItems ->
  let search := handleSearch calculateMatchScore allProducts extractedItems in
  forall idx line,
    filteredResults allSuppliers (fst search) !! idx = Some line ->
    exportStatus U (snd search) line idx = classify U line.
Proof.
  intros Hids search idx line. unfold search.
  rewrite filteredResults_all, handleSearch_lines, list_lookup_fmap.
  destruct (extractedItems !! idx) as [item|] eqn:Eitem; [|done].
  simpl. intros [= <-].
  assert (Hstate : snd (handleSearch calculateMatchScore allProducts extractedItems) !! idx
                   = match rank calculateMatchScore allProducts (name item) with
                     | top :: _ => Some [(id top, quantity item)]
                     | [] => None
                     end).
  { by rewrite handleSearch_state, Eitem. }
  rewrite List.Forall_forall in Hids.
  apply list_elem_of_lookup_2, list_elem_of_In, Hids in Eitem.
  unfold exportStatus, classify. cbn [term products].
  remember {| term := name item; originalTerm := name item;
              products := rank calculateMatchScore allProducts (name item);
              detectedQuantity := quantity item |} as line eqn:Eline.
  assert (Hprods : products line = rank calculateMatchScore allProducts (name item))
    by (by subst line).
  clear Eline.
  destruct (rank calculateMatchScore allProducts (name item)) as [|top rest].
  - destruct (selection_of_empty_line _ line idx Hstate Hprods) as (_ & -> & _). done.
  - destruct (selection_of_single_entry _ line idx _ _ Hstate Eitem) as (_ & -> & _).
    rewrite Hprods. simpl. by rewrite streq_refl.
Qed.

Lemma export_status_witness :
  let allProducts := [sampleProduct "prod-0-1" "Tesoura Mayo" 10;
                      sampleProduct "prod-1-1" "Pinca Kelly" 7] in
  let items := [ {| name := lit "Pinca Kelly"; quantity := 3 |};
                 {| name := lit "tesoura"; quantity := 2 |} ] in
  let search := handleSearch (LooserValue.calculateMatchScore asciiRuntime) allProducts items in
  exists line, fst search !! 1%nat = Some line
               /\ exportStatus asciiRuntime (snd search) line 1 = Similar.
Proof.
  cbv zeta. eexists. split; [reflexivity|].
  rewrite (export_status_is_toast_class asciiRuntime (LooserValue.calculateMatchScore asciiRuntime)
             [sampleProduct "prod-0-1" "Tesoura Mayo" 10;
              sampleProduct "prod-1-1" "Pinca Kelly" 7]
             [ {| name := lit "Pinca Kelly"; quantity := 3 |};
               {| name := lit "tesoura"; quantity := 2 |} ]).
  - vm_compute. reflexivity.
  - repeat (apply Forall_cons; split; [vm_compute; first [exact I | discriminate]|]).
    apply Forall_nil_2.
  - reflexivity.
Defined.

Lemma unitsLt_irrefl a : unitsLt a a = false.
Proof.
  induction a as [|x a IH]; [done|]. simpl.
  by rewrite N.ltb_irrefl, N.eqb_refl, IH.
Qed.

Lemma unitsLt_cons x a y b :
  unitsLt (x :: a) (y :: b) = true <-> (x < y)%N \/ (x = y /\ unitsLt a b = true).
Proof.
  simpl. rewrite orb_true_iff, andb_true_iff, N.ltb_lt, N.eqb_eq. done.
Qed.

Lemma unitsLt_trans a b c : unitsLt a b = true -> unitsLt b c = true -> unitsLt a c = true.
Proof.
  revert b c. induction a as [|x a IH]; intros [|y b] [|z c]; try done.
  rewrite !unitsLt_cons. intros [Hxy|[-> Hab]] [Hyz|[-> Hbc]].
  - left. lia.
  - by left.
  - by left.
  - right. split; [done|]. by apply (IH b c).
Qed.

Lemma unitsLt_total a b : unitsLt a b = true \/ a = b \/ unitsLt b a = true.
Proof.
  revert b. induction a as [|x a IH]; intros [|y b]; [by right; left|by left|by right; right|].
  rewrite !unitsLt_cons.
  destruct (N.lt_trichotomy x y) as [H|[->|H]]; [by left; left| |by right; right; left].
  destruct (IH b) as [H|[->|H]]; [by left; right|by right; left|by right; right; right].
Qed.

Lemma unitsLt_asym a b : unitsLt a b = true -> unitsLt b a = false.
Proof.
  intros Hab. destruct (unitsLt b a) eqn:Hba; [|done].
  pose proof (unitsLt_trans a b a Hab Hba) as H. by rewrite unitsLt_irrefl in H.
Qed.

Lemma defaultCompare_precedes a b : Qlt_bool (defaultCompare a b) 0 = unitsLt a b.
Proof.
  unfold defaultCompare. destruct (unitsLt a b); [done|]. by destruct (unitsLt b a).
Qed.

Lemma insertSorted_default_sorted x l :
  StronglySorted (fun a b => unitsLt b a = false) l ->
  StronglySorted (fun a b => unitsLt b a = false) (insertSorted defaultCompare x l).
Proof.
  induction 1 as [|y l Hl IH Hy]; simpl.
  - constructor; constructor.
  - rewrite defaultCompare_precedes. destruct (unitsLt y x) eqn:Eyx.
    + constructor; [done|]. apply List.Forall_forall. intros z Hz.
      apply insertSorted_In in Hz as [->|Hz].
      * by apply unitsLt_asym.
      * rewrite List.Forall_forall in Hy. by apply Hy.
    + constructor; [by constructor|]. constructor; [done|].
      apply List.Forall_forall. intros z Hz.
      rewrite List.Forall_forall in Hy. specialize (Hy z Hz).
      destruct (unitsLt z x) eqn:Ezx; [|done].
      destruct (unitsLt_total y x) as [H|[->|H]].
      * congruence.
      * congruence.
      * pose proof (unitsLt_trans z x y Ezx H). congruence.
Qed.

Lemma arraySort_default_sorted l :
  StronglySorted (fun a b => unitsLt b a = false) (arraySort defaultCompare l).
Proof.
  induction l as [|x l IH]; [constructor|]. simpl. by apply insertSorted_default_sorted.
Qed.

Lemma newSet_from xs : forall seen,
  NoDup seen ->
  let result := fold_left (fun seen x => if arrayIncludes seen x then seen else seen ++ [x])
                          xs seen in
  NoDup result /\ forall s, In s result <-> In s seen \/ In s xs.
Proof.
  induction xs as [|x xs IH]; intros seen Hseen; simpl.
  - split; [done|]. tauto.
  - destruct (arrayIncludes seen x) eqn:E.
    + destruct (IH seen Hseen) as [Hnodup Hin]. split; [done|].
      intros s. rewrite Hin. apply arrayIncludes_In in E.
      split; [tauto|]. intros [H|[<-|H]]; tauto.
    + assert (Hx : ~ In x seen).
      { intros H. apply arrayIncludes_In in H. congruence. }
      destruct (IH (seen ++ [x])) as [Hnodup Hin].
      { apply NoDup_app. split; [done|]. split; [|apply NoDup_singleton].
        intros y Hy Hy'. apply list_elem_of_singleton in Hy'. subst y.
        by apply list_elem_of_In in Hy. }
      split; [done|]. intros s. rewrite Hin, in_app_iff. simpl. tauto.
Qed.

(** X30.  The options of the supplier filter are the suppliers of the
    catalog, each once, in strictly ascending order of their code units;
    an empty answer of the loader leaves the catalog and the options as
    they were. *)
Theorem supplier_options_are_the_suppliers (data : list MappedProduct)
    (prev : list MappedProduct * list jsstring) :
  (forall s, In s (suppliersOf data) <-> exists p, In p data /\ supplier p = s)
  /\ NoDup (suppliersOf data)
  /\ StronglySorted (fun a b => unitsLt a b = true) (suppliersOf data)
  /\ (data <> [] -> init data prev = (data, suppliersOf data))
  /\ init [] prev = prev.
Proof.
  destruct (newSet_from (map supplier data) [] (NoDup_nil_2)) as [Hnodup Hin].
  cbv zeta in Hnodup, Hin. fold (newSet (map supplier data)) in Hnodup, Hin.
  assert (Hsorted_nodup : NoDup (suppliersOf data)).
  { unfold suppliersOf. by rewrite arraySort_Permutation. }
  split; [|split; [done|split; [|split]]].
  - intros s. unfold suppliersOf. rewrite arraySort_In, Hin, in_map_iff. simpl.
    split.
    + intros [[]|(p & Hp & Hdata)]. by exists p.
    + intros (p & Hdata & Hp). right. by exists p.
  - pose proof (arraySort_default_sorted (newSet (map supplier data))) as Hsorted.
    fold (suppliersOf data) in Hsorted.
    induction Hsorted as [|a l Hl IH Ha]; [constructor|].
    apply NoDup_cons in Hsorted_nodup as [Hnotin Hrest].
    constructor; [by apply IH|].
    apply List.Forall_forall. intros b Hb.
    rewrite List.Forall_forall in Ha. specialize (Ha b Hb).
    destruct (unitsLt_total a b) as [H|[->|H]]; [done| |congruence].
    by apply list_elem_of_In in Hb.
  - intros Hdata. unfold init. by destruct data.
  - done.
Qed.

Lemma supplier_options_witness :
  let data := [fromSupplier "Zeta" (sampleProduct "prod-0-1" "Tesoura Mayo" 10);
               fromSupplier "Alfa" (sampleProduct "prod-1-1" "Pinca Kelly" 7);
               fromSupplier "Zeta" (sampleProduct "prod-2-1" "Pinca Adson" 4)] in
  init data ([], []) = (data, [lit "Alfa"; lit "Zeta"]).
Proof.
  cbv zeta.
  rewrite (proj1 (proj2 (proj2 (proj2 (supplier_options_are_the_suppliers
             [fromSupplier "Zeta" (sampleProduct "prod-0-1" "Tesoura Mayo" 10);
              fromSupplier "Alfa" (sampleProduct "prod-1-1" "Pinca Kelly" 7);
              fromSupplier "Zeta" (sampleProduct "prod-2-1" "Pinca Adson" 4)]
             ([], [])))))).
  - reflexivity.
  - discriminate.
Defined.
